(** * LinChat: streaming message reconstruction

    A shallow embedding of the message-reconstruction core of LinChat:

    - [PartsBuilder] (composables/partsBuilder.js): the parts array of an
      assistant message and the operations that fold stream chunks into it;
    - [PartsHeap]: the same builder with object identities, for the
      snapshot operation [toReactiveArray];
    - [Stream] (composables/message.js): the generator
      [handleIncomingMessage] with its stream reader and tool loop, run
      against a scripted network;
    - [Manager] (composables/messagesManager.js): [sendMessage], the
      consumer of the generator;
    - [Timing] (composables/partsBuilder.js): the class [TimingTracker];
    - [Catalogue] (composables/availableModels.js): [findModelById];
    - [ToolManager] (composables/toolsManager.js): the registry of tools;
    - [Storage] (composables/storeConversations.js): the stored
      conversations and their titles;
    - [ChatPanel] (components/ChatPanel.vue): the grouping of the parts of
      a message for display.

    JavaScript strings are modelled by [string]; a character stands for one
    code unit below 256.  A field that is absent (undefined) or null is
    [None] where the code treats the two alike, and a [Js.value] where it
    tells them apart. *)

From Stdlib Require Import ZArith Bool Ascii String Lia.
From stdpp Require Import base option list strings gmap pretty.

(** ** JavaScript string helpers *)

Module Js.

(** [!!s] for a string value. *)
Definition truthy (s : string) : bool :=
  match s with EmptyString => false | String _ _ => true end.

(** [!!v] for an optional string field. *)
Definition truthyO (o : option string) : bool :=
  match o with Some s => truthy s | None => false end.

(** [a || b] on optional strings. *)
Definition or_else (a b : option string) : option string :=
  if truthyO a then a else b.

(** [v || d] with a string default. *)
Definition or_default (a : option string) (d : string) : string :=
  match a with
  | Some s => if truthy s then s else d
  | None => d
  end.

(** [v || null]: a falsy value becomes null. *)
Definition or_null (a : option string) : option string :=
  if truthyO a then a else None.

(** White space and line terminators of ECMAScript, among the code units
    below 256: TAB, LF, VT, FF, CR, SP and NBSP. *)
Definition is_ws (c : ascii) : bool :=
  let n := nat_of_ascii c in
  (n =? 9)%nat || (n =? 10)%nat || (n =? 11)%nat || (n =? 12)%nat
  || (n =? 13)%nat || (n =? 32)%nat || (n =? 160)%nat.

Fixpoint trimStart (s : string) : string :=
  match s with
  | EmptyString => EmptyString
  | String c r => if is_ws c then trimStart r else s
  end.

Fixpoint trimEnd (s : string) : string :=
  match s with
  | EmptyString => EmptyString
  | String c r =>
      let r' := trimEnd r in
      if is_ws c && negb (truthy r') then EmptyString else String c r'
  end.

(** [s.trim()] *)
Definition trim (s : string) : string := trimEnd (trimStart s).

(** [a === b] on strings. *)
Definition eqb (a b : string) : bool := String.eqb a b.

(** [a === b] where [a] is null or a string and [b] is undefined or a
    string: null and undefined are different values. *)
Definition strict_eqO (a b : option string) : bool :=
  match a, b with
  | Some x, Some y => String.eqb x y
  | _, _ => false
  end.

(** A value that is undefined, null or a string, where the code tells the
    three apart. *)
Inductive value :=
| Undefined
| Null
| Str (s : string).

(** The string of a value, if it is one. *)
Definition to_option (v : value) : option string :=
  match v with Str s => Some s | _ => None end.

(** [!!v] *)
Definition truthyV (v : value) : bool := truthyO (to_option v).

(** The text of a value in a template literal. *)
Definition to_string (v : value) : string :=
  match v with
  | Undefined => "undefined"
  | Null => "null"
  | Str s => s
  end.

(** [a === b] where [a] is null or a string and [b] is any value. *)
Definition strict_eqV (a : option string) (b : value) : bool :=
  match a, b with
  | None, Null => true
  | Some x, Str y => String.eqb x y
  | _, _ => false
  end.

End Js.

(** ** The parts builder (partsBuilder.js) *)

Module PartsBuilder.

(** A tool entry of a tool group:
    [{ index, id, type, function: { name, arguments }, result? }]. *)
Record Tool := mkTool {
  index : Z;
  id : option string;
  type : string;
  fn_name : string;
  fn_arguments : string;
  result : option string
}.

(** A tool-call delta as it comes from the stream:
    [{ index, id?, type?, function?: { name?, arguments? } }]. *)
Record FunctionDelta := mkFunctionDelta {
  name_d : option string;
  arguments_d : option string
}.

Record ToolData := mkToolData {
  index_d : Z;
  id_v : Js.value;
  type_d : option string;
  function_d : option FunctionDelta
}.

(** [toolData.id] where the code reads it as a string or as falsy. *)
Definition id_d (d : ToolData) : option string := Js.to_option (id_v d).

(** An image entry [{ url, revised_prompt }] of an image part. *)
Record Image := mkImage {
  url : string;
  revised_prompt : option string
}.

(** An image object of the API:
    [{ image_url?: { url? }, url?, revised_prompt? }]. *)
Record ApiImage := mkApiImage {
  image_url : option (option string);
  url_a : option string;
  revised_prompt_a : option string
}.

Inductive Part :=
| ContentPart (content : string)
| ReasoningPart (content : string)
| ToolGroup (toolType : option string) (tools : list Tool)
| ImagePart (images : list Image).

Inductive PartType := TContent | TReasoning | TToolGroup | TImage.

Definition part_type (p : Part) : PartType :=
  match p with
  | ContentPart _ => TContent
  | ReasoningPart _ => TReasoning
  | ToolGroup _ _ => TToolGroup
  | ImagePart _ => TImage
  end.

Definition PartType_eqb (a b : PartType) : bool :=
  match a, b with
  | TContent, TContent | TReasoning, TReasoning
  | TToolGroup, TToolGroup | TImage, TImage => true
  | _, _ => false
  end.

(** [lastPart.toolType === toolType] *)
Definition toolType_eqb (a b : option string) : bool :=
  match a, b with
  | Some x, Some y => String.eqb x y
  | None, None => true
  | _, _ => false
  end.

(** The state of a builder is its [parts] array. *)
Abbreviation Parts := (list Part).

Definition getLastPart (parts : Parts) : option Part := last parts.

(** [getOrCreatePart] returns the last part of the array it leaves behind:
    either the part that was last already, or the one it pushed. *)
Definition getOrCreatePart (ty : PartType) (toolType : option string)
    (parts : Parts) : Parts :=
  let lastPart := getLastPart parts in
  match ty with
  | TToolGroup =>
      match lastPart with
      | Some (ToolGroup k _) =>
          if toolType_eqb k toolType then parts
          else parts ++ [ToolGroup toolType []]
      | _ => parts ++ [ToolGroup toolType []]
      end
  | TImage =>
      match lastPart with
      | Some (ImagePart _) => parts
      | _ => parts ++ [ImagePart []]
      end
  | TContent =>
      match lastPart with
      | Some (ContentPart _) => parts
      | _ => parts ++ [ContentPart ""]
      end
  | TReasoning =>
      match lastPart with
      | Some (ReasoningPart _) => parts
      | _ => parts ++ [ReasoningPart ""]
      end
  end.

(** An in-place update of the part returned by [getOrCreatePart]. *)
Definition update_last (f : Part → Part) (parts : Parts) : Parts :=
  match reverse parts with
  | [] => []
  | p :: r => reverse r ++ [f p]
  end.

Definition part_content (p : Part) : string :=
  match p with
  | ContentPart c | ReasoningPart c => c
  | _ => ""
  end.

Definition set_content (c : string) (p : Part) : Part :=
  match p with
  | ContentPart _ => ContentPart c
  | ReasoningPart _ => ReasoningPart c
  | _ => p
  end.

Definition appendContent (text : string) (parts : Parts) : Parts :=
  if negb (Js.truthy text) then parts
  else
    update_last (λ part, set_content (part_content part +:+ text) part)
      (getOrCreatePart TContent None parts).

Definition appendReasoning (text : string) (parts : Parts) : Parts :=
  if negb (Js.truthy text) || Js.eqb (Js.trim text) "None" then parts
  else
    update_last
      (λ part,
        if Js.eqb (Js.trim (part_content part)) ""
           && negb (Js.eqb (Js.trim text) "")
        then set_content text part
        else set_content (part_content part +:+ text) part)
      (getOrCreatePart TReasoning None parts).

Definition push_image (img : Image) (p : Part) : Part :=
  match p with
  | ImagePart imgs => ImagePart (imgs ++ [img])
  | _ => p
  end.

Definition addImage (url : string) (revisedPrompt : option string)
    (parts : Parts) : Parts :=
  if negb (Js.truthy url) then parts
  else update_last (push_image (mkImage url revisedPrompt))
         (getOrCreatePart TImage None parts).

Definition processImage (image : ApiImage) (parts : Parts) : Parts :=
  let url := Js.or_else (default None (image_url image)) (url_a image) in
  let revisedPrompt := Js.or_null (revised_prompt_a image) in
  match url with
  | Some u => if Js.truthy u then addImage u revisedPrompt parts else parts
  | None => parts
  end.

(** [toolData.function?.name] and [toolData.function?.arguments] *)
Definition fn_name_of (d : ToolData) : option string :=
  function_d d ≫= name_d.
Definition fn_arguments_of (d : ToolData) : option string :=
  function_d d ≫= arguments_d.

(** The update branch of [addOrUpdateTool]. *)
Definition update_tool (d : ToolData) (t : Tool) : Tool :=
  let t1 :=
    if Js.truthyO (fn_name_of d)
    then mkTool (index t) (id t) (type t) (default "" (fn_name_of d))
           (fn_arguments t) (result t)
    else t in
  let t2 :=
    if Js.truthyO (fn_arguments_of d)
    then mkTool (index t1) (id t1) (type t1) (fn_name t1)
           (fn_arguments t1 +:+ default "" (fn_arguments_of d)) (result t1)
    else t1 in
  let t3 :=
    if Js.truthyO (id_d d)
    then mkTool (index t2) (id_d d) (type t2) (fn_name t2)
           (fn_arguments t2) (result t2)
    else t2 in
  if Js.truthyO (type_d d)
  then mkTool (index t3) (id t3) (default "" (type_d d)) (fn_name t3)
         (fn_arguments t3) (result t3)
  else t3.

(** The creation branch of [addOrUpdateTool]. *)
Definition new_tool (d : ToolData) : Tool :=
  mkTool (index_d d) (Js.or_null (id_d d))
    (Js.or_default (type_d d) "function")
    (Js.or_default (fn_name_of d) "")
    (Js.or_default (fn_arguments_of d) "")
    None.

(** [tools.find(t => t.index === i)] followed by the update of the tool
    found, in place. *)
Fixpoint update_first (test : Tool → bool) (f : Tool → Tool)
    (tools : list Tool) : option (list Tool) :=
  match tools with
  | [] => None
  | t :: r =>
      if test t then Some (f t :: r)
      else (λ r', t :: r') <$> update_first test f r
  end.

Definition addOrUpdateTool_part (d : ToolData) (p : Part) : Part :=
  match p with
  | ToolGroup k tools =>
      match update_first (λ t, (index t =? index_d d)%Z) (update_tool d) tools with
      | Some tools' => ToolGroup k tools'
      | None => ToolGroup k (tools ++ [new_tool d])
      end
  | _ => p
  end.

Definition addOrUpdateTool (toolType : string) (d : ToolData)
    (parts : Parts) : Parts :=
  update_last (addOrUpdateTool_part d)
    (getOrCreatePart TToolGroup (Some toolType) parts).

Definition set_result (r : string) (t : Tool) : Tool :=
  mkTool (index t) (id t) (type t) (fn_name t) (fn_arguments t) (Some r).

(** [setToolResult]: the new parts and the boolean returned.  The id of a
    tool is null or a string; [toolId] is what the caller passes. *)
Fixpoint setToolResult_go (toolId : Js.value) (r : string)
    (parts : Parts) : option Parts :=
  match parts with
  | [] => None
  | ToolGroup k tools :: rest =>
      match update_first (λ t, Js.strict_eqV (id t) toolId) (set_result r) tools with
      | Some tools' => Some (ToolGroup k tools' :: rest)
      | None => (λ rest', ToolGroup k tools :: rest') <$> setToolResult_go toolId r rest
      end
  | p :: rest => (λ rest', p :: rest') <$> setToolResult_go toolId r rest
  end.

Definition setToolResult (toolId : Js.value) (r : string)
    (parts : Parts) : Parts * bool :=
  match setToolResult_go toolId r parts with
  | Some parts' => (parts', true)
  | None => (parts, false)
  end.

Definition is_tool_group (p : Part) : bool :=
  match p with ToolGroup _ _ => true | _ => false end.
Definition is_content (p : Part) : bool :=
  match p with ContentPart _ => true | _ => false end.
Definition is_image (p : Part) : bool :=
  match p with ImagePart _ => true | _ => false end.

Definition part_tools (p : Part) : list Tool :=
  match p with ToolGroup _ tools => tools | _ => [] end.

Definition getAllTools (parts : Parts) : list Tool :=
  flat_map part_tools (List.filter is_tool_group parts).

Definition hasParts (parts : Parts) : bool :=
  (0 <? length parts)%nat.
Definition hasContentPart (parts : Parts) : bool := existsb is_content parts.
Definition hasImagePart (parts : Parts) : bool := existsb is_image parts.

Definition ensureContentPartFirst (content : string) (parts : Parts) : Parts :=
  if hasImagePart parts && negb (hasContentPart parts) && Js.truthy content
  then ContentPart content :: parts
  else parts.

End PartsBuilder.

(** ** The parts builder with object identities

    The same class over a heap of JavaScript objects, for the operations
    whose result depends on which objects are shared.  A reference is a
    position of the heap; an allocation appends to it. *)

Module PartsHeap.
Import PartsBuilder.

Abbreviation loc := nat.

Inductive Obj :=
| OText (ty : PartType) (content : string)
    (* [{ type: 'content' | 'reasoning', content }] *)
| OToolGroup (toolType : option string) (tools : loc)
    (* [{ type: 'tool_group', toolType, tools }] *)
| OImagePart (images : loc)
    (* [{ type: 'image', images }] *)
| OArray (elems : list loc)
| OTool (index : Z) (id : option string) (type : string) (function : loc)
    (result : option string)
| OFunction (name arguments : string)
| OImage (url : string) (revised_prompt : option string).

Abbreviation Heap := (list Obj).

(** A builder: the heap and the reference [this.parts]. *)
Record Builder := mkBuilder {
  heap : Heap;
  parts : loc
}.

Definition alloc (o : Obj) (h : Heap) : Heap * loc := (h ++ [o], length h).

Definition elems_of (h : Heap) (a : loc) : option (list loc) :=
  match h !! a with
  | Some (OArray els) => Some els
  | _ => None
  end.

(** [arr.push(x)] *)
Definition array_push (a x : loc) (h : Heap) : option Heap :=
  els ← elems_of h a; Some (<[a := OArray (els ++ [x])]> h).

(** [new PartsBuilder()] *)
Definition new_builder (h : Heap) : Builder :=
  let '(h', a) := alloc (OArray []) h in mkBuilder h' a.

Definition getLastPart (b : Builder) : option (option loc) :=
  els ← elems_of (heap b) (parts b); Some (last els).

Definition push_part (o : Obj) (b : Builder) : option (Builder * loc) :=
  let '(h, p) := alloc o (heap b) in
  h' ← array_push (parts b) p h; Some (mkBuilder h' (parts b), p).

Definition getOrCreatePart (ty : PartType) (toolType : option string)
    (b : Builder) : option (Builder * loc) :=
  lastPart ← getLastPart b;
  let lastObj := lastPart ≫= (λ p, heap b !! p) in
  match ty with
  | TToolGroup =>
      let create :=
        let '(h, a) := alloc (OArray []) (heap b) in
        push_part (OToolGroup toolType a) (mkBuilder h (parts b)) in
      match lastPart, lastObj with
      | Some p, Some (OToolGroup k _) =>
          if toolType_eqb k toolType then Some (b, p) else create
      | _, _ => create
      end
  | TImage =>
      match lastPart, lastObj with
      | Some p, Some (OImagePart _) => Some (b, p)
      | _, _ =>
          let '(h, a) := alloc (OArray []) (heap b) in
          push_part (OImagePart a) (mkBuilder h (parts b))
      end
  | _ =>
      match lastPart, lastObj with
      | Some p, Some (OText ty' _) =>
          if PartType_eqb ty' ty then Some (b, p) else push_part (OText ty "") b
      | _, _ => push_part (OText ty "") b
      end
  end.

Definition appendContent (text : string) (b : Builder) : option Builder :=
  if negb (Js.truthy text) then Some b
  else
    '(b', p) ← getOrCreatePart TContent None b;
    match heap b' !! p with
    | Some (OText ty c) =>
        Some (mkBuilder (<[p := OText ty (c +:+ text)]> (heap b')) (parts b'))
    | _ => None
    end.

Definition addImage (url : string) (revisedPrompt : option string)
    (b : Builder) : option Builder :=
  if negb (Js.truthy url) then Some b
  else
    '(b', p) ← getOrCreatePart TImage None b;
    match heap b' !! p with
    | Some (OImagePart a) =>
        let '(h, i) := alloc (OImage url revisedPrompt) (heap b') in
        h' ← array_push a i h; Some (mkBuilder h' (parts b'))
    | _ => None
    end.

(** [part.tools.find(t => t.index === i)] *)
Fixpoint find_tool (h : Heap) (i : Z) (ts : list loc) : option loc :=
  match ts with
  | [] => None
  | t :: r =>
      match h !! t with
      | Some (OTool j _ _ _ _) => if (j =? i)%Z then Some t else find_tool h i r
      | _ => find_tool h i r
      end
  end.

Definition addOrUpdateTool (toolType : string) (d : ToolData)
    (b : Builder) : option Builder :=
  '(b', p) ← getOrCreatePart TToolGroup (Some toolType) b;
  match heap b' !! p with
  | Some (OToolGroup _ a) =>
      ts ← elems_of (heap b') a;
      match find_tool (heap b') (index_d d) ts with
      | Some t =>
          match heap b' !! t with
          | Some (OTool i tid ty f r) =>
              match heap b' !! f with
              | Some (OFunction n args) =>
                  let n' := if Js.truthyO (fn_name_of d)
                            then default "" (fn_name_of d) else n in
                  let args' := if Js.truthyO (fn_arguments_of d)
                               then args +:+ default "" (fn_arguments_of d)
                               else args in
                  let tid' := if Js.truthyO (id_d d) then id_d d else tid in
                  let ty' := if Js.truthyO (type_d d)
                             then default "" (type_d d) else ty in
                  Some (mkBuilder
                          (<[t := OTool i tid' ty' f r]>
                             (<[f := OFunction n' args']> (heap b')))
                          (parts b'))
              | _ => None
              end
          | _ => None
          end
      | None =>
          let '(h1, f) :=
            alloc (OFunction (Js.or_default (fn_name_of d) "")
                     (Js.or_default (fn_arguments_of d) "")) (heap b') in
          let '(h2, t) :=
            alloc (OTool (index_d d) (Js.or_null (id_d d))
                     (Js.or_default (type_d d) "function") f None) h1 in
          h3 ← array_push a t h2; Some (mkBuilder h3 (parts b'))
      end
  | _ => None
  end.

(** The copy [toReactiveArray] makes of one part: the new heap and the
    reference to the new part object. *)
Definition copy_part (h : Heap) (p : loc) : option (Heap * loc) :=
  match h !! p with
  | Some (OToolGroup k a) =>
      ts ← elems_of h a;
      let '(h1, a') := alloc (OArray ts) h in
      Some (alloc (OToolGroup k a') h1)
  | Some (OImagePart a) =>
      imgs ← elems_of h a;
      let '(h1, a') := alloc (OArray imgs) h in
      Some (alloc (OImagePart a') h1)
  | Some (OText ty c) => Some (alloc (OText ty c) h)
  | _ => None
  end.

Fixpoint copy_parts (h : Heap) (ps : list loc) : option (Heap * list loc) :=
  match ps with
  | [] => Some (h, [])
  | p :: r =>
      '(h1, p') ← copy_part h p;
      '(h2, r') ← copy_parts h1 r;
      Some (h2, p' :: r')
  end.

(** [toReactiveArray()]: the heap afterwards and the array returned. *)
Definition toReactiveArray (b : Builder) : option (Heap * loc) :=
  ps ← elems_of (heap b) (parts b);
  '(h, ps') ← copy_parts (heap b) ps;
  Some (alloc (OArray ps') h).

(** *** Reading a parts array back as a value *)

Definition read_tool (h : Heap) (t : loc) : option Tool :=
  match h !! t with
  | Some (OTool i tid ty f r) =>
      match h !! f with
      | Some (OFunction n args) => Some (mkTool i tid ty n args r)
      | _ => None
      end
  | _ => None
  end.

Definition read_image (h : Heap) (i : loc) : option Image :=
  match h !! i with
  | Some (OImage u rp) => Some (mkImage u rp)
  | _ => None
  end.

Definition read_part (h : Heap) (p : loc) : option Part :=
  match h !! p with
  | Some (OText TContent c) => Some (ContentPart c)
  | Some (OText TReasoning c) => Some (ReasoningPart c)
  | Some (OToolGroup k a) =>
      ts ← elems_of h a; tools ← mapM (read_tool h) ts; Some (ToolGroup k tools)
  | Some (OImagePart a) =>
      ls ← elems_of h a; imgs ← mapM (read_image h) ls; Some (ImagePart imgs)
  | _ => None
  end.

Definition read_parts (h : Heap) (a : loc) : option Parts :=
  ps ← elems_of h a; mapM (read_part h) ps.

(** The tool objects and the image objects a parts array leads to. *)
Definition part_members (h : Heap) (p : loc) : list loc :=
  match h !! p with
  | Some (OToolGroup _ a) | Some (OImagePart a) => default [] (elems_of h a)
  | _ => []
  end.

Definition members (h : Heap) (a : loc) : list loc :=
  flat_map (part_members h) (default [] (elems_of h a)).

(** The part objects of a parts array and their [tools] and [images]
    arrays. *)
Definition part_array (h : Heap) (p : loc) : list loc :=
  match h !! p with
  | Some (OToolGroup _ a) | Some (OImagePart a) => [a]
  | _ => []
  end.

Definition containers (h : Heap) (a : loc) : list loc :=
  a :: default [] (elems_of h a)
    ++ flat_map (part_array h) (default [] (elems_of h a)).

(** *** Properties of a snapshot *)

(** A location allocated after the heap [h] was taken. *)
Definition fresh_for (h : Heap) (l : loc) : Prop := (length h ≤ l)%nat.

Definition first_delta : ToolData :=
  mkToolData 0 (Js.Str "call_1") (Some "function")
    (Some (mkFunctionDelta (Some "search") (Some "{"))).
Definition second_delta : ToolData :=
  mkToolData 0 Js.Undefined None (Some (mkFunctionDelta None (Some "}"))).

(** The builder after the first delta. *)
Definition one_tool : option Builder :=
  addOrUpdateTool "function" first_delta (new_builder []).

End PartsHeap.

(** ** The stream generator (message.js) *)

Module Stream.
Import PartsBuilder.

Definition LF : string := String "010"%char EmptyString.
Definition DQ : string := String "034"%char EmptyString.

(** A JSON value the code passes on without looking inside, as its text. *)
Abbreviation Json := string.

(** *** Messages of a conversation and their wire format *)

Record Attachment := mkAttachment {
  att_id : string;
  att_type : string;
  filename : string;
  dataUrl : string;
  mimeType : string
}.

(** A message object of the [messages] array, without its time stamps;
    [errorDetails] is its message and status. *)
Record Message := mkMessage {
  msg_id : string;
  role : string;
  content : string;
  attachments : list Attachment;
  reasoning : string;
  parts : list Part;
  tool_calls : list Tool;
  annotations : option Json;
  complete : bool;
  tokenCount : Z;
  totalTokens : Z;
  promptTokens : Z;
  error : bool;
  errorDetails : option (string * option string)
}.

Inductive ContentItem :=
| TextItem (text : string)
| ImageUrlItem (url : string)
| FileItem (filename : string) (file_data : option string).

Inductive ApiContent :=
| ContentString (s : string)
| ContentArray (items : list ContentItem).

Record ApiToolCall := mkApiToolCall {
  tc_id : option string;
  tc_type : string;
  tc_name : string;
  tc_arguments : string
}.

Record ApiMessage := mkApiMessage {
  api_role : string;
  api_content : ApiContent;
  api_annotations : option Json;
  api_tool_calls : option (list ApiToolCall);
  api_tool_call_id : Js.value;
  api_name : option string
}.

(** [s.split(',')[1]] *)
Fixpoint until_comma (s : string) : string * option string :=
  match s with
  | EmptyString => (EmptyString, None)
  | String c r =>
      if Ascii.eqb c ","%char then (EmptyString, Some r)
      else let '(h, t) := until_comma r in (String c h, t)
  end.

Definition split_comma_1 (s : string) : option string :=
  match until_comma s with
  | (_, Some r) => Some (fst (until_comma r))
  | (_, None) => None
  end.

(** [l.join(sep)] *)
Fixpoint join (sep : string) (l : list string) : string :=
  match l with
  | [] => EmptyString
  | [x] => x
  | x :: r => x +:+ sep +:+ join sep r
  end.

Definition attachment_items (atts : list Attachment) : list ContentItem :=
  flat_map (λ a,
    if String.eqb (att_type a) "image" then [ImageUrlItem (dataUrl a)]
    else if String.eqb (att_type a) "pdf"
    then [FileItem (filename a) (split_comma_1 (dataUrl a))]
    else []) atts.

Definition tool_summary (t : Tool) : string :=
  let name := if Js.truthy (fn_name t) then fn_name t else "unknown" in
  "[Tool: " +:+ name
    +:+ (if result t is Some _ then " (completed)" else "") +:+ "]".

Definition part_items (p : Part) : list ContentItem :=
  match p with
  | ReasoningPart c =>
      if Js.truthy c && Js.truthy (Js.trim c)
      then [TextItem ("<thinking>" +:+ LF +:+ c +:+ LF +:+ "</thinking>")]
      else []
  | ContentPart c =>
      if Js.truthy c && Js.truthy (Js.trim c) then [TextItem c] else []
  | ImagePart imgs =>
      flat_map (λ img, if Js.truthy (url img) then [ImageUrlItem (url img)] else []) imgs
  | ToolGroup _ tools =>
      match tools with
      | [] => []
      | _ => [TextItem (join LF (tool_summary <$> tools))]
      end
  end.

Definition is_text_item (i : ContentItem) : bool :=
  match i with TextItem _ => true | _ => false end.

(** [p.text] of a content item; the collapse only meets text items. *)
Definition item_text (i : ContentItem) : string :=
  match i with TextItem t => t | _ => "undefined" end.

Definition format_tool_calls (tcs : list Tool) : option (list ApiToolCall) :=
  match tcs with
  | [] => None
  | _ =>
      Some ((λ tc, mkApiToolCall (id tc)
                    (if Js.truthy (type tc) then type tc else "function")
                    (fn_name tc)
                    (if Js.truthy (fn_arguments tc) then fn_arguments tc else "{}"))
            <$> tcs)
  end.

Definition formatMessageForAPI (msg : Message) : ApiMessage :=
  if String.eqb (role msg) "user" then
    match attachments msg with
    | [] =>
        mkApiMessage (role msg) (ContentString (content msg)) (annotations msg)
          None Js.Undefined None
    | atts =>
        mkApiMessage (role msg)
          (ContentArray (TextItem (content msg) :: attachment_items atts))
          (annotations msg) None Js.Undefined None
    end
  else if String.eqb (role msg) "assistant" then
    let body :=
      match parts msg with
      | [] =>
          if Js.truthy (reasoning msg) && Js.truthy (Js.trim (reasoning msg))
          then ContentString ("<thinking>" +:+ LF +:+ reasoning msg +:+ LF
                              +:+ "</thinking>" +:+ LF +:+ LF +:+ content msg)
          else ContentString (content msg)
      | ps =>
          let contentParts := flat_map part_items ps in
          match contentParts with
          | [] => ContentString (content msg)
          | _ =>
              if existsb (λ p, negb (is_text_item p)) contentParts
              then ContentArray contentParts
              else ContentString (join (LF +:+ LF) (item_text <$> contentParts))
          end
      end in
    mkApiMessage (role msg) body (annotations msg)
      (format_tool_calls (tool_calls msg)) Js.Undefined None
  else
    (* the "tool" role and any other role: stored messages carry neither
       [tool_call_id] nor [name] *)
    mkApiMessage (role msg) (ContentString (content msg)) (annotations msg)
      None Js.Undefined None.

(** *** Frames of the event stream *)

(** [parsed.error]: its message, which the reader prints as it is, and
    its type. *)
Record ErrorObj := mkErrorObj {
  e_message : Js.value;
  e_type : option string
}.

(** [choice.delta]; the content is told apart from undefined when the
    images are yielded. *)
Record Delta := mkDelta {
  d_content : Js.value;
  d_reasoning : option string;
  d_tool_calls : option (list ToolData);
  d_images : option (list ApiImage);
  d_annotations : option Json
}.

Record ChoiceMessage := mkChoiceMessage {
  cm_content : option string;
  cm_annotations : option Json
}.

Record Choice := mkChoice {
  delta : option Delta;
  finish_reason : option string;
  message : option ChoiceMessage
}.

(** [parsed.usage]: the token counts, numbers where they are present. *)
Record Usage := mkUsage {
  completion_tokens : option Z;
  total_tokens : option Z;
  prompt_tokens : option Z
}.

(** A parsed frame; [choice0] is [parsed.choices && parsed.choices[0]]. *)
Record Frame := mkFrame {
  f_error : option ErrorObj;
  choice0 : option Choice;
  f_usage : option Usage;
  f_annotations : option Json
}.

(** What [JSON.parse] returns for the text of a frame: null, or a value
    with the fields the reader looks at (a number, a string or a boolean
    has none of them). *)
Inductive Parsed :=
| ParsedNull
| ParsedFrame (parsed : Frame).

(** *** Chunks yielded to the consumer *)

(** [errorDetails] of a chunk; a message that is null or absent is
    [None]. *)
Record ErrorDetails := mkErrorDetails {
  ed_name : string;
  ed_message : option string;
  ed_rawError : option string
}.

Record Chunk := mkChunk {
  c_content : option string;
  c_reasoning : option string;
  c_tool_calls : list ToolData;
  c_tool_result : option (Js.value * string);
  c_usage : option Usage;
  c_annotations : option Json;
  c_images : list ApiImage;
  c_error : bool;
  c_errorDetails : option ErrorDetails
}.

Definition chunk0 : Chunk :=
  mkChunk None None [] None None None [] false None.

Definition content_chunk (c : string) (tcs : list ToolData) : Chunk :=
  mkChunk (Some c) None tcs None None None [] false None.
Definition reasoning_chunk (r : string) (tcs : list ToolData) : Chunk :=
  mkChunk None (Some r) tcs None None None [] false None.
Definition tool_calls_chunk (tcs : list ToolData) : Chunk :=
  mkChunk None None tcs None None None [] false None.
Definition usage_chunk (u : Usage) : Chunk :=
  mkChunk None None [] None (Some u) None [] false None.
Definition annotations_chunk (a : Json) : Chunk :=
  mkChunk None None [] None None (Some a) [] false None.
Definition images_chunk (c : option string) (imgs : list ApiImage) : Chunk :=
  mkChunk c None [] None None None imgs false None.
Definition tool_result_chunk (tid : Js.value) (r : string) : Chunk :=
  mkChunk None None [] (Some (tid, r)) None None [] false None.

Definition CANCEL_MARKER : string := LF +:+ LF +:+ "[STREAM CANCELED]".

Definition cancel_chunk : Chunk := content_chunk CANCEL_MARKER [].

(** *** Errors, the network and the trace of a run *)

Record JsError := mkJsError {
  err_name : string;
  err_message : string
}.

Definition Error (msg : string) : JsError := mkJsError "Error" msg.

(** What a rejected fetch or read carries once the signal is aborted. *)
Definition AbortError : JsError :=
  mkJsError "AbortError" "The user aborted a request.".

(** What [parsed.error] throws when [parsed] is null; the message is the
    one of V8. *)
Definition null_frame_error : JsError :=
  mkJsError "TypeError" "Cannot read properties of null (reading 'error')".

(** [error.toString()] *)
Definition error_toString (e : JsError) : string :=
  if negb (Js.truthy (err_name e)) then err_message e
  else if negb (Js.truthy (err_message e)) then err_name e
  else err_name e +:+ ": " +:+ err_message e.

(** One [reader.read()] before the end of the body: decoded text, or a
    rejection. *)
Inductive ReadOutcome :=
| ReadText (text : string)
| ReadReject (e : JsError).

(** [response.json()] of a response that is not ok: the body parsed, with
    its [error?.message], or a rejection, when the body is no JSON or when
    the signal is aborted while it is read. *)
Inductive ErrorBody :=
| BodyJson (errorMessage : option string)
| BodyReject (e : JsError).

(** One [fetch]: a rejection, a response that is not ok (its status and
    its body), or a response with its body. *)
Inductive FetchOutcome :=
| FetchReject (e : JsError)
| FetchNotOk (status : Z) (errorData : ErrorBody)
| FetchOk (body : list ReadOutcome).

(** The tool call accumulated over one response. *)
Record AccTool := mkAccTool {
  a_id : Js.value;
  a_type : string;
  a_name : string;
  a_arguments : string
}.

Record Request := mkRequest {
  req_messages : list ApiMessage;
  req_tools : option (list Json);
  req_plugins : bool
}.

Inductive Event :=
| EvRequest (r : Request)
| EvRejected (e : JsError)
| EvYield (c : Chunk)
| EvExecTools (calls : list AccTool).

Inductive Outcome (A : Type) :=
| Ok (a : A)
| Throw (e : JsError)
| Diverge.
Arguments Ok {A} a.
Arguments Throw {A} e.
Arguments Diverge {A}.

(** A computation of the generator: the events so far and how it ended. *)
Record Gen (A : Type) := mkGen {
  trace : list Event;
  outcome : Outcome A
}.
Arguments mkGen {A} trace outcome.
Arguments trace {A} g.
Arguments outcome {A} g.

#[export] Instance Gen_ret : MRet Gen := λ A a, mkGen [] (Ok a).
#[export] Instance Gen_bind : MBind Gen := λ A B k m,
  match outcome m with
  | Ok a => mkGen (trace m ++ trace (k a)) (outcome (k a))
  | Throw e => mkGen (trace m) (Throw e)
  | Diverge => mkGen (trace m) Diverge
  end.

Definition emit (ev : Event) : Gen unit := mkGen [ev] (Ok tt).
Definition yield (c : Chunk) : Gen unit := emit (EvYield c).
Definition throw {A} (e : JsError) : Gen A := mkGen [] (Throw e).
Definition diverge {A} : Gen A := mkGen [] Diverge.

Definition try_catch {A} (m : Gen A) (handler : JsError → Gen A) : Gen A :=
  match outcome m with
  | Throw e => mkGen (trace m ++ trace (handler e)) (outcome (handler e))
  | _ => m
  end.

(** The chunks of a trace, in order. *)
Definition yields (t : list Event) : list Chunk :=
  omap (λ ev, if ev is EvYield c then Some c else None) t.
Definition requests (t : list Event) : list Request :=
  omap (λ ev, if ev is EvRequest r then Some r else None) t.
Definition tool_rounds (t : list Event) : list (list AccTool) :=
  omap (λ ev, if ev is EvExecTools cs then Some cs else None) t.

(** *** The tool registry (toolsManager.js) *)

Inductive ExecResult :=
| ExecReturn (json : Json)   (* [JSON.stringify(result ?? null)] *)
| ExecThrow (msg : string).  (* [err.message || String(err)] *)

Record ToolEntry := mkToolEntry {
  executor : Json → list Message → ExecResult;
  schema : Json
}.

(** [toolManager.tools], a Map from tool names. *)
Abbreviation Registry := (gmap string ToolEntry).

Definition getTool (reg : Registry) (name : string) : option ToolEntry :=
  reg !! name.

Definition getSchemasByNames (reg : Registry) (names : list string) : list Json :=
  schema <$> omap (λ name, reg !! name) names.

(** The catalogue entry of a model, as far as the generator reads it. *)
Record ModelInfo := mkModelInfo {
  model_id : string;
  tool_use : option bool
}.

Record Settings := mkSettings {
  custom_instructions : option string;
  tool_max_iterations : option Z
}.

(** *** The accumulator of tool calls

    A JavaScript object keyed by the delta's index.  [Object.values] lists
    array-index keys first, in ascending order, then the other keys in
    insertion order; the association list is kept in that order. *)

Definition is_array_index (i : Z) : bool :=
  (0 <=? i)%Z && (i <? 4294967295)%Z.

Abbreviation Accumulator := (list (Z * AccTool)).

Fixpoint acc_get (i : Z) (acc : Accumulator) : option AccTool :=
  match acc with
  | [] => None
  | (j, v) :: r => if (i =? j)%Z then Some v else acc_get i r
  end.

Fixpoint acc_set (i : Z) (v : AccTool) (acc : Accumulator) : Accumulator :=
  match acc with
  | [] => [(i, v)]
  | (j, w) :: r =>
      if (i =? j)%Z then (i, v) :: r
      else if is_array_index i && (negb (is_array_index j) || (i <? j)%Z)
      then (i, v) :: (j, w) :: r
      else (j, w) :: acc_set i v r
  end.

Definition Object_values (acc : Accumulator) : list AccTool := snd <$> acc.

(** What one delta does to the entry of its index. *)
Definition merge_delta (d : ToolData) (existing : AccTool) : AccTool :=
  let e1 :=
    if Js.truthyV (id_v d)
    then mkAccTool (id_v d) (a_type existing) (a_name existing) (a_arguments existing)
    else existing in
  let e2 :=
    if Js.truthyO (fn_name_of d)
    then mkAccTool (a_id e1) (a_type e1) (default "" (fn_name_of d)) (a_arguments e1)
    else e1 in
  if Js.truthyO (fn_arguments_of d)
  then mkAccTool (a_id e2) (a_type e2) (a_name e2)
         (a_arguments e2 +:+ default "" (fn_arguments_of d))
  else e2.

(** One pass of the loop over [choice.delta.tool_calls]. *)
Definition accumulate (acc : Accumulator) (d : ToolData) : Accumulator :=
  let existing :=
    match acc_get (index_d d) acc with
    | Some e => e
    | None => mkAccTool (id_v d) (Js.or_default (type_d d) "function") "" ""
    end in
  acc_set (index_d d) (merge_delta d existing) acc.

(** The variables of one response: the accumulator, [hadToolCalls] and
    [finishedReason]. *)
Record RoundState := mkRoundState {
  toolCallAccumulator : Accumulator;
  hadToolCalls : bool;
  finishedReason : option string
}.

Definition round0 : RoundState := mkRoundState [] false None.

(** [s.split(LF)], never empty. *)
Fixpoint split_nl (s : string) : list string :=
  match s with
  | EmptyString => [EmptyString]
  | String c r =>
      if Ascii.eqb c "010"%char then EmptyString :: split_nl r
      else
        match split_nl r with
        | h :: t => String c h :: t
        | [] => [String c EmptyString]
        end
  end.

(** [line.slice(6)] *)
Definition slice6 (line : string) : string :=
  String.substring 6 (String.length line - 6) line.

Definition yield_all (cs : list Chunk) : Gen unit :=
  mkGen (EvYield <$> cs) (Ok tt).

Definition when (b : bool) (m : Gen unit) : Gen unit :=
  if b then m else mret tt.

Section Generator.

(** [JSON.parse] of the text of a frame; [None] when it throws. *)
Variable JSON_parse : string → option Parsed.
(** Whether [JSON.parse] accepts the text of tool arguments. *)
Variable JSON_valid : Json → bool.
(** [JSON.stringify] of a string. *)
Variable JSON_stringify_string : string → Json.
(** The tool registry and the model catalogue [findModelById(availableModels, _)]. *)
Variable toolManager : Registry.
Variable findModelById : string → option ModelInfo.

(** Steps 1 to 7 and the images of one frame with a first choice. *)
Definition process_choice (parsed : Frame) (choice : Choice)
    (st : RoundState) : Gen RoundState :=
  let d_tcs := delta choice ≫= d_tool_calls in
  let tcs := default [] d_tcs in
  let st1 :=
    match d_tcs with
    | Some l =>
        mkRoundState (foldl accumulate (toolCallAccumulator st) l) true
          (finishedReason st)
    | None => st
    end in
  let st2 :=
    if Js.truthyO (finish_reason choice)
    then mkRoundState (toolCallAccumulator st1) (hadToolCalls st1)
           (finish_reason choice)
    else st1 in
  let content :=
    match delta choice with Some d => d_content d | None => Js.Undefined end in
  let reasoning := delta choice ≫= d_reasoning in
  when (Js.truthyV content)
    (yield (content_chunk (default "" (Js.to_option content)) tcs)) ;;
  when (Js.truthyO reasoning) (yield (reasoning_chunk (default "" reasoning) tcs)) ;;
  (match d_tcs with Some l => yield (tool_calls_chunk l) | None => mret tt end) ;;
  (match f_usage parsed with Some u => yield (usage_chunk u) | None => mret tt end) ;;
  (match
     match message choice ≫= cm_annotations with
     | Some a => Some a
     | None =>
         match delta choice ≫= d_annotations with
         | Some a => Some a
         | None => f_annotations parsed
         end
     end
   with
   | Some a => yield (annotations_chunk a)
   | None => mret tt
   end) ;;
  (match delta choice ≫= d_images with
   | Some images =>
       when (0 <? length images)%nat
         (yield (images_chunk
                   (match content with
                    | Js.Undefined => message choice ≫= cm_content
                    | _ => Js.to_option content
                    end) images))
   | None => mret tt
   end) ;;
  mret st2.

(** The [for (const line of lines)] loop with its [continue] and [break]. *)
Fixpoint for_lines (lines : list string) (st : RoundState) : Gen RoundState :=
  match lines with
  | [] => mret st
  | line :: rest =>
      if negb (String.prefix "data: " line) then for_lines rest st
      else
        let data := slice6 line in
        if String.eqb data "[DONE]" then mret st
        else
          match JSON_parse data with
          | None => for_lines rest st
          | Some ParsedNull => throw null_frame_error
          | Some (ParsedFrame parsed) =>
              match f_error parsed with
              | Some err =>
                  yield (mkChunk
                           (Some (LF +:+ LF +:+ "[ERROR: "
                                  +:+ Js.to_string (e_message err) +:+ "]"))
                           None [] None None None [] true
                           (Some (mkErrorDetails
                                    (Js.or_default (e_type err) "APIError")
                                    (Js.to_option (e_message err)) None))) ;;
                  throw (Error (Js.or_default (Js.to_option (e_message err))
                                  "API error"))
              | None =>
                  st' ← (match choice0 parsed with
                         | Some choice => process_choice parsed choice st
                         | None => mret st
                         end);
                  if Js.strict_eqO (finishedReason st') (Some "tool_calls")
                  then mret st'
                  else for_lines rest st'
              end
          end
  end.

(** The [while (true)] loop over [reader.read()]; the end of the list is
    [done]. *)
Fixpoint read_loop (body : list ReadOutcome) (buffer : string)
    (st : RoundState) : Gen RoundState :=
  match body with
  | [] => mret st
  | ReadReject e :: _ => emit (EvRejected e) ;; throw e
  | ReadText value :: rest =>
      let lines := split_nl (buffer +:+ value) in
      st' ← for_lines (removelast lines) st;
      read_loop rest (List.last lines EmptyString) st'
  end.

Definition tool_message (tool_call_id : Js.value) (name : string)
    (content : Json) : ApiMessage :=
  mkApiMessage "tool" (ContentString content) None None tool_call_id (Some name).

Definition executeToolCallsLocally (completedToolCalls : list AccTool)
    (messageHistory : list Message) : list ApiMessage :=
  (λ toolCall,
    let name := a_name toolCall in
    let text := if Js.truthy (a_arguments toolCall) then a_arguments toolCall else "{}" in
    let args := if JSON_valid text then text else "{}" in
    match getTool toolManager name with
    | None =>
        tool_message (a_id toolCall) name
          ("{" +:+ DQ +:+ "error" +:+ DQ +:+ ": " +:+ DQ +:+ "Unknown tool '"
           +:+ name +:+ "'" +:+ DQ +:+ "}")
    | Some tool =>
        match executor tool args messageHistory with
        | ExecReturn json => tool_message (a_id toolCall) name json
        | ExecThrow msg =>
            tool_message (a_id toolCall) name
              ("{" +:+ DQ +:+ "error" +:+ DQ +:+ ":"
               +:+ JSON_stringify_string ("Tool execution failed: " +:+ msg)
               +:+ "}")
        end
    end) <$> completedToolCalls.

Definition tool_result_of (toolMsg : ApiMessage) : Chunk :=
  tool_result_chunk (api_tool_call_id toolMsg)
    (match api_content toolMsg with ContentString s => s | ContentArray _ => "" end).

Section Turn.

Variable net : nat → FetchOutcome.
Variable plainMessages : list Message.
Variable baseMessages : list ApiMessage.
Variable hasPDFAttachments : bool.
Variable enabledToolSchemas : list Json.
Variable modelSupportsTools : bool.
Variable maxToolIterations : Z.

(** One pass of the agent loop: [None] is a [break], [Some] the new
    [iteration] and [intermediateMessages]. *)
Definition round_step (round : nat) (iteration : Z)
    (intermediateMessages : list ApiMessage)
    : Gen (option (Z * list ApiMessage)) :=
  let messagesForThisCall := baseMessages ++ intermediateMessages in
  emit (EvRequest (mkRequest messagesForThisCall
                     (if modelSupportsTools then Some enabledToolSchemas else None)
                     hasPDFAttachments)) ;;
  match net round with
  | FetchReject e => emit (EvRejected e) ;; throw e
  | FetchNotOk status errorData =>
      (* a rejection of [response.json()] is caught and stands for [{}] *)
      let errorMessage :=
        match errorData with
        | BodyJson message => Js.or_default message "Unknown error"
        | BodyReject _ => "Unknown error"
        end in
      throw (Error ("API request failed with status " +:+ pretty status +:+ ": "
                    +:+ errorMessage))
  | FetchOk body =>
      st ← read_loop body EmptyString round0;
      let completedToolCalls := Object_values (toolCallAccumulator st) in
      if negb (hadToolCalls st) || negb modelSupportsTools then mret None
      else
        let iteration := (iteration + 1)%Z in
        if (maxToolIterations <=? iteration)%Z then mret None
        else
          emit (EvExecTools completedToolCalls) ;;
          let toolResultMessages :=
            executeToolCallsLocally completedToolCalls plainMessages in
          yield_all (tool_result_of <$> toolResultMessages) ;;
          mret (Some (iteration,
                      intermediateMessages
                      ++ mkApiMessage "assistant" (ContentString "") None
                           (Some ((λ tc, mkApiToolCall (Js.to_option (a_id tc))
                                           (a_type tc) (a_name tc) (a_arguments tc))
                                  <$> completedToolCalls))
                           Js.Undefined None
                         :: toolResultMessages))
  end.

(** The agent loop [while (true)]; [Diverge] when the fuel does not
    suffice. *)
Fixpoint tool_loop (fuel : nat) (round : nat) (iteration : Z)
    (intermediateMessages : list ApiMessage) : Gen unit :=
  match fuel with
  | O => diverge
  | S fuel' =>
      r ← round_step round iteration intermediateMessages;
      match r with
      | None => mret tt
      | Some (iteration', intermediateMessages') =>
          tool_loop fuel' (S round) iteration' intermediateMessages'
      end
  end.

End Turn.

(** [const enabledToolNames = []]: nothing is ever pushed to it. *)
Definition enabledToolNames : list string := [].

Definition user_content (queryWithDateTime : string)
    (attachments : list Attachment) : ApiContent :=
  match attachments with
  | [] => ContentString queryWithDateTime
  | _ => ContentArray (TextItem queryWithDateTime :: attachment_items attachments)
  end.

Definition handler (error : JsError) : Gen unit :=
  if String.eqb (err_name error) "AbortError" then yield cancel_chunk
  else
    let errorMessage :=
      if Js.truthy (err_message error) then err_message error
      else "No detailed information" in
    yield (mkChunk
             (Some (LF +:+ LF +:+ "[CRITICAL ERROR: Failed to patch request."
                    +:+ errorMessage +:+ "]"))
             None [] None None None [] true
             (Some (mkErrorDetails
                      (if Js.truthy (err_name error) then err_name error
                       else "UnknownError")
                      (Some errorMessage) (Some (error_toString error))))).

(** [handleIncomingMessage]: the trace of one turn against the network
    [net], where [net n] answers the fetch number [n] of the turn and
    [currentDate] is the date put in front of the query. *)
Definition handleIncomingMessage (net : nat → FetchOutcome)
    (currentDate : string) (query : string) (plainMessages : list Message)
    (selectedModel : string) (settings : Settings)
    (attachments : list Attachment) : Gen unit :=
  try_catch
    (if negb (Js.truthy query)
     then throw (Error "Missing required parameters for handleIncomingMessage")
     else
       let selectedModelInfo := findModelById selectedModel in
       let queryWithDateTime :=
         "<context>" +:+ LF
         +:+ "  <!-- CURRENT DATE ADDED AUTOMATICALLY; ONLY USE THE CURRENT DATE WHEN REQUIRED OR EXPLICITLY TOLD TO USE. -->"
         +:+ LF +:+ "  Current Date: " +:+ currentDate +:+ LF +:+ "</context>"
         +:+ LF +:+ LF +:+ query in
       let modelHasToolUse :=
         match selectedModelInfo ≫= tool_use with
         | Some false => false
         | _ => true
         end in
       let hasPDFAttachments :=
         existsb (λ a, String.eqb (att_type a) "pdf") attachments in
       let userMessage :=
         mkApiMessage "user" (user_content queryWithDateTime attachments)
           None None Js.Undefined None in
       let baseMessages :=
         (formatMessageForAPI <$> plainMessages) ++ [userMessage] in
       let baseMessages :=
         match custom_instructions settings with
         | Some ci =>
             if Js.truthy ci
             then mkApiMessage "system" (ContentString ci) None None Js.Undefined None
                  :: baseMessages
             else baseMessages
         | None => baseMessages
         end in
       let enabledToolSchemas :=
         match enabledToolNames with
         | [] => []
         | names => getSchemasByNames toolManager names
         end in
       let modelSupportsTools :=
         modelHasToolUse && (0 <? length enabledToolSchemas)%nat in
       let maxToolIterations := default 4%Z (tool_max_iterations settings) in
       tool_loop net plainMessages baseMessages hasPDFAttachments
         enabledToolSchemas modelSupportsTools maxToolIterations
         (S (Z.to_nat maxToolIterations)) 0 0%Z [])
    handler.

End Generator.

End Stream.

(** ** The messages manager (messagesManager.js) *)

Module Manager.
Import PartsBuilder Stream.

(** *** What the consumer does with one chunk *)

(** The loop over [chunk.tool_calls]. *)
Definition apply_tool_deltas (ds : list ToolData) (parts : Parts) : Parts :=
  foldl (λ ps tool, addOrUpdateTool (Js.or_default (type_d tool) "function") tool ps)
    parts ds.

(** The builder's share of the body of the [for await] loop. *)
Definition apply_chunk_parts (chunk : Chunk) (parts : Parts) : Parts :=
  let parts :=
    match c_content chunk with
    | Some c => if Js.truthy c then appendContent c parts else parts
    | None => parts
    end in
  let parts := foldl (λ ps image, processImage image ps) parts (c_images chunk) in
  let parts :=
    match c_reasoning chunk with
    | Some r =>
        if Js.truthy r && negb (Js.eqb (Js.trim r) "None")
        then appendReasoning r parts else parts
    | None => parts
    end in
  let parts := apply_tool_deltas (c_tool_calls chunk) parts in
  match c_tool_result chunk with
  | Some (tid, r) => fst (setToolResult tid r parts)
  | None => parts
  end.

Definition set_content_m (c : string) (m : Message) : Message :=
  mkMessage (msg_id m) (role m) c (attachments m) (reasoning m) (parts m)
    (tool_calls m) (annotations m) (complete m) (tokenCount m) (totalTokens m)
    (promptTokens m) (error m) (errorDetails m).
Definition set_reasoning_m (r : string) (m : Message) : Message :=
  mkMessage (msg_id m) (role m) (content m) (attachments m) r (parts m)
    (tool_calls m) (annotations m) (complete m) (tokenCount m) (totalTokens m)
    (promptTokens m) (error m) (errorDetails m).
Definition set_parts_m (ps : list Part) (tcs : list Tool) (m : Message) : Message :=
  mkMessage (msg_id m) (role m) (content m) (attachments m) (reasoning m) ps
    tcs (annotations m) (complete m) (tokenCount m) (totalTokens m)
    (promptTokens m) (error m) (errorDetails m).
Definition set_only_parts_m (ps : list Part) (m : Message) : Message :=
  set_parts_m ps (tool_calls m) m.
Definition set_annotations_m (a : option Json) (m : Message) : Message :=
  mkMessage (msg_id m) (role m) (content m) (attachments m) (reasoning m) (parts m)
    (tool_calls m) a (complete m) (tokenCount m) (totalTokens m)
    (promptTokens m) (error m) (errorDetails m).
Definition set_complete_m (b : bool) (m : Message) : Message :=
  mkMessage (msg_id m) (role m) (content m) (attachments m) (reasoning m) (parts m)
    (tool_calls m) (annotations m) b (tokenCount m) (totalTokens m)
    (promptTokens m) (error m) (errorDetails m).
Definition set_usage_m (u : Usage) (m : Message) : Message :=
  mkMessage (msg_id m) (role m) (content m) (attachments m) (reasoning m) (parts m)
    (tool_calls m) (annotations m) (complete m)
    (default (tokenCount m) (completion_tokens u))
    (default (totalTokens m) (total_tokens u))
    (default (promptTokens m) (prompt_tokens u))
    (error m) (errorDetails m).

(** The share of [assistantMsg] in the body of the loop. *)
Definition apply_chunk_msg (chunk : Chunk) (m : Message) : Message :=
  let m :=
    match c_content chunk with
    | Some c => if Js.truthy c then set_content_m (content m +:+ c) m else m
    | None => m
    end in
  let m :=
    match c_reasoning chunk with
    | Some r =>
        if Js.truthy r && negb (Js.eqb (Js.trim r) "None")
        then
          if Js.eqb (Js.trim (reasoning m)) "" && negb (Js.eqb (Js.trim r) "")
          then set_reasoning_m r m
          else set_reasoning_m (reasoning m +:+ r) m
        else m
    | None => m
    end in
  let m := match c_usage chunk with Some u => set_usage_m u m | None => m end in
  match c_annotations chunk with
  | Some a => set_annotations_m (Some a) m
  | None => m
  end.

(** *** The reactive state

    Message objects live in [heap]; [messages] is the array
    [messages.value] of references to them. *)
Record State := mkState {
  heap : list Message;
  messages : list nat;
  isLoading : bool
}.

Definition deref (s : State) (l : nat) : option Message := heap s !! l.

(** The message objects of [messages.value], in order. *)
Definition messages_value (s : State) : list Message :=
  omap (deref s) (messages s).

Definition alloc (m : Message) (s : State) : State * nat :=
  (mkState (heap s ++ [m]) (messages s) (isLoading s), length (heap s)).

Definition mutate (l : nat) (f : Message → Message) (s : State) : State :=
  mkState (alter f l (heap s)) (messages s) (isLoading s).

Definition set_messages (ms : list nat) (s : State) : State :=
  mkState (heap s) ms (isLoading s).

Definition set_isLoading (b : bool) (s : State) : State :=
  mkState (heap s) (messages s) b.

Definition push (m : Message) (s : State) : State * nat :=
  let '(s', l) := alloc m s in
  (set_messages (messages s' ++ [l]) s', l).

Definition addUserMessage (newId : string) (content : string)
    (atts : list Attachment) (s : State) : State :=
  if negb (Js.truthy (Js.trim content)) && (length atts =? 0)%nat then s
  else
    fst (push (mkMessage newId "user" content atts "" [] [] None true 0 0 0
                 false None) s).

Definition createAssistantMessage (newId : string) (s : State) : State * nat :=
  push (mkMessage newId "assistant" "" [] "" [] [] None false 0 0 0 false None) s.

(** [messages.value.findIndex(m => m.id === id)] *)
Fixpoint findIndex (s : State) (mid : string) (refs : list nat) : option nat :=
  match refs with
  | [] => None
  | l :: r =>
      match deref s l with
      | Some m =>
          if String.eqb (msg_id m) mid then Some 0%nat
          else S <$> findIndex s mid r
      | None => S <$> findIndex s mid r
      end
  end.

(** [updateAssistantMessage(message, updates)], where [message] is the
    object at [l] and [updates] is spread over a copy of the array element
    with the same id. *)
Definition updateAssistantMessage (l : nat) (updates : Message → Message)
    (s : State) : State :=
  match deref s l with
  | None => s
  | Some message =>
      match findIndex s (msg_id message) (messages s) with
      | None => s
      | Some i =>
          match messages s !! i ≫= deref s with
          | None => s
          | Some old =>
              let '(s', l') := alloc (updates old) s in
              set_messages (<[i := l']> (messages s')) s'
          end
      end
  end.

(** [updateMessageReactivity()]: a copy of [assistantMsg] with the parts
    and tools of the builder replaces the last element of the array. *)
Definition updateMessageReactivity (l : nat) (builder : Parts) (s : State) : State :=
  match deref s l with
  | None => s
  | Some assistantMsg =>
      let '(s', l') := alloc (set_parts_m builder (getAllTools builder) assistantMsg) s in
      set_messages (removelast (messages s') ++ [l']) s'
  end.

(** [new PartsBuilder()] *)
Definition new_parts : Parts := [].

(** One pass of the [for await] loop. *)
Definition consume (l : nat) (st : State * Parts) (chunk : Chunk) : State * Parts :=
  let '(s, builder) := st in
  let builder := apply_chunk_parts chunk builder in
  let s := mutate l (apply_chunk_msg chunk) s in
  (updateMessageReactivity l builder s, builder).

(** The [finally] block. *)
Definition finalize (l : nat) (st : State * Parts) : State * Parts :=
  let '(s, builder) := st in
  let s :=
    match deref s l with
    | Some m =>
        match parts m with
        | [] => mutate l (set_parts_m builder (getAllTools builder)) s
        | _ => s
        end
    | None => s
    end in
  let s :=
    mutate l (λ m, if Js.eqb (Js.trim (reasoning m)) "" then set_reasoning_m "" m else m) s in
  let flat := default "" (content <$> deref s l) in
  let '(s, builder) :=
    if hasImagePart builder && negb (hasContentPart builder) && Js.truthy flat
    then
      let builder := ensureContentPartFirst flat builder in
      (mutate l (set_only_parts_m builder) s, builder)
    else (s, builder) in
  let s := updateAssistantMessage l (set_complete_m true) s in
  let s :=
    match deref s l with
    | Some m =>
        match errorDetails m with
        | Some (msg, status) =>
            if complete m && negb (Js.truthy (content m))
            then updateAssistantMessage l
                   (set_content_m
                      (LF +:+ "[ERROR: " +:+ msg +:+ "]"
                       +:+ (if Js.truthyO status
                            then " HTTP " +:+ default "" status else ""))) s
            else s
        | None => s
        end
    | None => s
    end in
  (set_isLoading false s, builder).

(** The history handed to the generator. *)
Definition history (messageToStore : string) (s : State) : list Message :=
  List.filter (λ msg, complete msg && negb (Js.eqb (content msg) messageToStore))
    (messages_value s).

Record Call := mkCall {
  message_arg : string;
  originalMessage : option string;
  attachments_arg : list Attachment;
  skipUserMessage : bool;
  selected_model_id : string;
  settings_arg : Settings;
  (** the results of the two calls of [generateId] and the date *)
  userId : string;
  assistantId : string;
  currentDate : string
}.

Definition messageToStore (c : Call) : string :=
  default (message_arg c) (originalMessage c).

Section SendMessage.

Variable JSON_parse : string → option Parsed.
Variable JSON_valid : Json → bool.
Variable JSON_stringify_string : string → Json.
Variable toolManager : Registry.
Variable findModelById : string → option ModelInfo.
Variable net : nat → FetchOutcome.

(** The state once the user message and the assistant message are pushed,
    and the reference [assistantMsg]. *)
Definition begin (c : Call) (s : State) : State * nat :=
  let s := set_isLoading true s in
  let s :=
    if skipUserMessage c then s
    else addUserMessage (userId c) (messageToStore c) (attachments_arg c) s in
  createAssistantMessage (assistantId c) s.

(** The generator [sendMessage] creates. *)
Definition streamGenerator (c : Call) (s : State) : Gen unit :=
  handleIncomingMessage JSON_parse JSON_valid JSON_stringify_string toolManager
    findModelById net (currentDate c) (message_arg c)
    (history (messageToStore c) (fst (begin c s)))
    (selected_model_id c) (settings_arg c) (attachments_arg c).

(** The body of [sendMessage] over the generator [streamGenerator] it is
    given: the final state and the builder's parts; [None] when the
    generator does not finish. *)
Definition sendMessage_with (streamGenerator : Gen unit) (c : Call) (s : State)
    : option (State * Parts) :=
  if (negb (Js.truthy (Js.trim (message_arg c)))
      && (length (attachments_arg c) =? 0)%nat) || isLoading s
  then Some (s, [])
  else
    let '(s1, l) := begin c s in
    match findModelById (selected_model_id c) with
    | None =>
        Some (set_isLoading false
                (updateAssistantMessage l
                   (λ m, set_complete_m true
                           (set_content_m
                              ((if Js.truthy (default "" (content <$> deref s1 l))
                                then default "" (content <$> deref s1 l) +:+ LF +:+ LF
                                else "") +:+ "Error: No AI model selected.") m))
                   s1), [])
    | Some _ =>
        let gen := streamGenerator in
        match outcome gen with
        | Diverge => None
        | Ok _ =>
            let '(s2, builder) := foldl (consume l) (s1, new_parts) (yields (trace gen)) in
            let s3 := mutate l (set_parts_m builder (getAllTools builder)) s2 in
            Some (finalize l (s3, builder))
        | Throw _ =>
            Some (finalize l (foldl (consume l) (s1, new_parts) (yields (trace gen))))
        end
    end.

(** [sendMessage], with the generator [handleIncomingMessage] gives it. *)
Definition sendMessage (c : Call) (s : State) : option (State * Parts) :=
  sendMessage_with (streamGenerator c s) c s.

End SendMessage.

End Manager.

(** ** The timing tracker (partsBuilder.js)

    The class [TimingTracker] writes three time stamps of the assistant
    message it is given.  A [Date] is its time value in milliseconds; each
    operation takes the time [new Date()] gives if the operation asks for
    it. *)

Module Timing.

(** The fields of the message the tracker touches; null is [None]. *)
Record Times := mkTimes {
  firstTokenTime : option Z;
  reasoningStartTime : option Z;
  reasoningEndTime : option Z
}.

Record TimingTracker := mkTimingTracker {
  message : Times;
  firstTokenReceived : bool
}.

(** [new TimingTracker(message)] *)
Definition new_TimingTracker (message : Times) : TimingTracker :=
  mkTimingTracker message false.

(** The time stamps [createAssistantMessage] gives a new message. *)
Definition new_times : Times := mkTimes None None None.

Definition markFirstToken (now : Z) (t : TimingTracker) : TimingTracker :=
  if negb (firstTokenReceived t)
  then mkTimingTracker
         (mkTimes (Some now) (reasoningStartTime (message t))
            (reasoningEndTime (message t)))
         true
  else t.

Definition startReasoning (now : Z) (t : TimingTracker) : TimingTracker :=
  match reasoningStartTime (message t) with
  | None =>
      mkTimingTracker
        (mkTimes (firstTokenTime (message t)) (Some now)
           (reasoningEndTime (message t)))
        (firstTokenReceived t)
  | Some _ => t
  end.

Definition endReasoning (now : Z) (t : TimingTracker) : TimingTracker :=
  match reasoningStartTime (message t), reasoningEndTime (message t) with
  | Some _, None =>
      mkTimingTracker
        (mkTimes (firstTokenTime (message t)) (reasoningStartTime (message t))
           (Some now))
        (firstTokenReceived t)
  | _, _ => t
  end.

Definition calculateReasoningDuration (now : Z) (t : TimingTracker) : option Z :=
  match reasoningStartTime (message t) with
  | None => None
  | Some start =>
      let endTime := default now (reasoningEndTime (message t)) in
      Some (endTime - start)%Z
  end.

(** The calls of the tracker, and a run of calls, each with the time of
    its clock reading. *)
Inductive TrackerCall := MarkFirstToken | StartReasoning | EndReasoning.

Definition call (t : TimingTracker) (c : Z * TrackerCall) : TimingTracker :=
  match c.2 with
  | MarkFirstToken => markFirstToken c.1 t
  | StartReasoning => startReasoning c.1 t
  | EndReasoning => endReasoning c.1 t
  end.

Definition run (calls : list (Z * TrackerCall)) (t : TimingTracker) : TimingTracker :=
  foldl call t calls.

(** The readings of the clock at the four calls [sendMessage] makes for
    one chunk: at [markFirstToken] and [endReasoning] for its content, and
    at [markFirstToken] and [startReasoning] for its reasoning. *)
Record Readings := mkReadings {
  content_mark : Z;
  content_end : Z;
  reasoning_mark : Z;
  reasoning_start : Z
}.

(** The calls [sendMessage] makes for one chunk of the stream. *)
Definition calls_of (now : Readings) (chunk : Stream.Chunk)
    : list (Z * TrackerCall) :=
  (match Stream.c_content chunk with
   | Some c =>
       if Js.truthy c
       then [(content_mark now, MarkFirstToken); (content_end now, EndReasoning)]
       else []
   | None => []
   end)
  ++ (match Stream.c_reasoning chunk with
      | Some r =>
          if Js.truthy r && negb (Js.eqb (Js.trim r) "None")
          then [(reasoning_mark now, MarkFirstToken);
                (reasoning_start now, StartReasoning)]
          else []
      | None => []
      end).

End Timing.

(** ** The model catalogue (availableModels.js) *)

Module Catalogue.

(** An entry of the models list: a model, or a category with the models
    under it.  A field that is absent is [None]; [models] is the array
    [item.models], when there is one.  Of the fields the search does not
    read, [tool_use] is the one the generator reads. *)
#[local] Unset Elimination Schemes.
Inductive Item := mkItem {
  id : option string;
  category : option string;
  name : option string;
  tool_use : option bool;
  models : option (list Item)
}.
#[local] Set Elimination Schemes.

(** [a === b] on values that are undefined or strings. *)
Definition strict_eq (a b : option string) : bool :=
  match a, b with
  | Some x, Some y => String.eqb x y
  | None, None => true
  | _, _ => false
  end.

(** The [for (const item of modelsList)] loop: the first item for which the
    body returns. *)
Definition first_found {A B} (body : A → option B) : list A → option B :=
  fix loop (l : list A) : option B :=
    match l with
    | [] => None
    | item :: rest =>
        match body item with
        | Some found => Some found
        | None => loop rest
        end
    end.

(** The body of the loop for one item. *)
Fixpoint find_in_item (wanted : option string) (item : Item) : option Item :=
  if strict_eq (id item) wanted then Some item
  else
    match models item with
    | Some ms => first_found (find_in_item wanted) ms
    | None => None
    end.

(** [findModelById(models, id)], where [models] is [None] when the
    argument is no array (and no ref of one). *)
Definition findModelById (models : option (list Item)) (wanted : option string)
    : option Item :=
  match models with
  | Some modelsList => first_found (find_in_item wanted) modelsList
  | None => None
  end.

Definition DEFAULT_MODEL_ID : string := "gemini-3-pro-preview".

Definition model (i n : string) : Item :=
  mkItem (Some i) None (Some n) None None.

Definition defaultModels : list Item :=
  [mkItem None (Some "My Custom Models") None None
     (Some [model "gemini-3-pro-preview" "Gemini 3 Pro Preview";
            model "gemini-3-flash-preview" "Gemini 3 Flash Preview";
            model "qwen3-coder-plus" "Qwen 3 Coder Plus";
            model "qwen3-coder-flash" "Qwen 3 Coder Flash"])].

End Catalogue.

(** ** The tool manager (toolsManager.js)

    The methods of [ToolManager] that change or read single entries of the
    map [tools]; [getTool] and [getSchemasByNames] are with the generator. *)

Module ToolManager.
Import Stream.

(** [new ToolManager()]: the empty map, to which [registerDefaultTools]
    adds nothing. *)
Definition new_ToolManager : Registry := ∅.

Definition registerTool (name : string)
    (executor : Json → list Message → ExecResult) (schema : Json)
    (tools : Registry) : Registry :=
  <[name := mkToolEntry executor schema]> tools.

Definition unregisterTool (name : string) (tools : Registry) : Registry :=
  delete name tools.

End ToolManager.

(** ** The conversation store (storeConversations.js)

    The functions [sendMessage] calls to persist the messages, over the
    two kinds of entries they keep in localforage: the conversations, under
    a key made of their id, and the list of metadata. *)

Module Storage.
Import Stream.

(** [s.split(/\r?\n/)[0]]: the text before the first line break, a line
    feed or a carriage return followed by one. *)
Fixpoint first_line (s : string) : string :=
  match s with
  | EmptyString => EmptyString
  | String c r =>
      if Ascii.eqb c "010"%char then EmptyString
      else if Ascii.eqb c "013"%char
           && match r with String d _ => Ascii.eqb d "010"%char | EmptyString => false end
      then EmptyString
      else String c (first_line r)
  end.

Definition deriveTitleFromMessages (plainMessages : list Message) : string :=
  match
    List.find (λ msg, String.eqb (role msg) "user" && Js.truthy (content msg)
                      && Js.truthy (Js.trim (content msg))) plainMessages
  with
  | None => "New Chat"
  | Some firstUserMessage =>
      let title := first_line (Js.trim (content firstUserMessage)) in
      let title :=
        if (40 <? String.length title)%nat then String.substring 0 40 title
        else title in
      if Js.truthy title then title else "New Chat"
  end.

(** The object stored for a message: id, role, content and the completion
    flag; for a user message its attachments, when it has some; for an
    assistant message its reasoning, tool calls, token count, annotations
    and parts.  A field that the stored object does not have reads as the
    empty value of its kind. *)
Definition raw (msg : Message) : Message :=
  let user := String.eqb (role msg) "user" in
  let assistant := String.eqb (role msg) "assistant" in
  mkMessage (msg_id msg) (role msg) (content msg)
    (if user then attachments msg else [])
    (if assistant then reasoning msg else "")
    (if assistant then parts msg else [])
    (if assistant then tool_calls msg else [])
    (if assistant then annotations msg else None)
    (complete msg)
    (if assistant then tokenCount msg else 0%Z)
    0 0 false None.

Record Conversation := mkConversation {
  title : string;
  lastUpdated : Z;
  messages : list Message
}.

Record Metadata := mkMetadata {
  meta_id : string;
  meta_title : string;
  meta_lastUpdated : Z
}.

(** localforage: the conversations by id, and the item
    [conversations_metadata], which is absent at first. *)
Record Store := mkStore {
  conversations : gmap string Conversation;
  metadata : option (list Metadata)
}.

(** [createConversation], where [conversationId] is what
    [crypto.randomUUID()] gives: the store afterwards and the id returned.
    The title is the derived one until the title generated in the
    background arrives. *)
Definition createConversation (conversationId : string)
    (plainMessages : list Message) (lastUpdated : Z) (st : Store) : Store * string :=
  let rawMessages := raw <$> plainMessages in
  let title := deriveTitleFromMessages plainMessages in
  (mkStore
     (<[conversationId := mkConversation title lastUpdated rawMessages]>
        (conversations st))
     (Some (default [] (metadata st)
            ++ [mkMetadata conversationId title lastUpdated])),
   conversationId).

Definition storeMessages (conversationId : string)
    (plainMessages : list Message) (lastUpdated : Z) (st : Store) : Store :=
  match conversations st !! conversationId with
  | None => st
  | Some data =>
      let rawMessages := raw <$> plainMessages in
      let title :=
        if negb (Js.truthy (title data)) || String.eqb (title data) "Untitled"
        then deriveTitleFromMessages plainMessages
        else title data in
      let updatedMetadata :=
        List.filter (λ m, negb (String.eqb (meta_id m) conversationId))
          (default [] (metadata st)) in
      mkStore
        (<[conversationId := mkConversation title lastUpdated rawMessages]>
           (conversations st))
        (Some (updatedMetadata ++ [mkMetadata conversationId title lastUpdated]))
  end.

Definition deleteConversation (conversationId : string) (st : Store) : Store :=
  mkStore (delete conversationId (conversations st))
    (Some (List.filter (λ m, negb (String.eqb (meta_id m) conversationId))
             (default [] (metadata st)))).

(** The messages [changeConversation] gives the array for a conversation,
    outside the incognito mode, in which it does nothing: those stored, or
    none when the conversation is not there. *)
Definition loadMessages (conversationId : string) (st : Store) : list Message :=
  match conversations st !! conversationId with
  | Some conv => messages conv
  | None => []
  end.

End Storage.

(** ** The display of the parts (ChatPanel.vue)

    [getPartGroups] puts the parts of a message into the groups the panel
    renders: reasoning and tool groups together, content, images. *)

Module ChatPanel.
Import PartsBuilder.

(** The group types ['mixed'], ['content'] and ['image']. *)
Inductive GroupType := Mixed | Content | Image.

Definition GroupType_eqb (a b : GroupType) : bool :=
  match a, b with
  | Mixed, Mixed | Content, Content | Image, Image => true
  | _, _ => false
  end.

(** [{ type: currentGroupType, parts: currentGroup }], where the type is
    the variable [currentGroupType], null at first. *)
Record Group := mkGroup {
  type : option GroupType;
  parts : list Part
}.

(** The variables of the loop. *)
Record Loop := mkLoop {
  groups : list Group;
  currentGroup : list Part;
  currentGroupType : option GroupType
}.

(** [currentGroupType !== k] *)
Definition differs (current : option GroupType) (k : GroupType) : bool :=
  match current with
  | Some c => negb (GroupType_eqb c k)
  | None => true
  end.

(** [if (currentGroup.length > 0) groups.push({ ... })] *)
Definition push_current (st : Loop) : list Group :=
  match currentGroup st with
  | [] => groups st
  | _ => groups st ++ [mkGroup (currentGroupType st) (currentGroup st)]
  end.

(** One branch of the loop body, for a part that goes to a group of type
    [k]: start a new group, or add to the current one. *)
Definition enter (k : GroupType) (part : Part) (st : Loop) : Loop :=
  if differs (currentGroupType st) k
  then mkLoop (push_current st) [part] (Some k)
  else mkLoop (groups st) (currentGroup st ++ [part]) (currentGroupType st).

Definition step (st : Loop) (part : Part) : Loop :=
  match part with
  | ReasoningPart _ | ToolGroup _ _ => enter Mixed part st
  | ContentPart _ => enter Content part st
  | ImagePart _ => enter Image part st
  end.

Definition getPartGroups (parts : list Part) : list Group :=
  match parts with
  | [] => []
  | _ => push_current (foldl step (mkLoop [] [] None) parts)
  end.

End ChatPanel.

(** * Properties

    The predicates the theorems are stated with, and the scripted inputs of
    the examples. *)

Import PartsBuilder Stream Manager.

Definition mergeable (p q : Part) : bool :=
  match p, q with
  | ContentPart _, ContentPart _ => true
  | ImagePart _, ImagePart _ => true
  | ToolGroup k _, ToolGroup k' _ => toolType_eqb k k'
  | _, _ => false
  end.

Fixpoint no_adjacent_mergeable (ps : Parts) : bool :=
  match ps with
  | [] => true
  | p :: r =>
      match r with
      | [] => true
      | q :: _ => negb (mergeable p q) && no_adjacent_mergeable r
      end
  end.

(** The part of a part that grouping looks at. *)
Definition same_group (p q : Part) : Prop :=
  ∀ x, mergeable p x = mergeable q x ∧ mergeable x p = mergeable x q.

(** The parts of the builder once the first [n] chunks are applied. *)
Definition parts_after (chunks : list Chunk) (n : nat) : Parts :=
  foldl (λ ps c, apply_chunk_parts c ps) [] (take n chunks).

(** The last truthy value among [l], or [init] when there is none. *)
Definition last_truthy (init : option string) (l : list (option string))
    : option string :=
  foldl (λ acc o, if Js.truthyO o then o else acc) init l.

Definition concat_arguments (ds : list ToolData) : string :=
  foldr (λ d s, Js.or_default (fn_arguments_of d) "" +:+ s) "" ds.

Definition merged_tool (i : Z) (ds : list ToolData) : Tool :=
  mkTool i (last_truthy None (id_d <$> ds))
    (Js.or_default (last_truthy None (type_d <$> ds)) "function")
    (Js.or_default (last_truthy None (fn_name_of <$> ds)) "")
    (concat_arguments ds) None.

(** The same for the ids of the accumulator, which keeps what the first
    delta carried, null and undefined included. *)
Definition last_truthy_value (init : Js.value) (l : list Js.value) : Js.value :=
  foldl (λ acc v, if Js.truthyV v then v else acc) init l.

Definition merged_acc (d : ToolData) (ds : list ToolData) : AccTool :=
  mkAccTool (last_truthy_value (id_v d) (id_v <$> ds))
    (Js.or_default (type_d d) "function")
    (Js.or_default (last_truthy None (fn_name_of <$> (d :: ds))) "")
    (concat_arguments (d :: ds)).

Definition updates (t : Tool) (ds : list ToolData) : Tool :=
  foldl (λ t d, update_tool d t) t ds.

Definition merges (e : AccTool) (ds : list ToolData) : AccTool :=
  foldl (λ e d, merge_delta d e) e ds.

(** Whether [addOrUpdateTool] finds the index of the delta in the group it
    works on. *)
Definition finds_tool (k : string) (d : ToolData) (ps : Parts) : bool :=
  match last ps with
  | Some (ToolGroup k' ts) =>
      toolType_eqb k' (Some k) && existsb (λ t, (index t =? index_d d)%Z) ts
  | _ => false
  end.

Definition tool_indexes (ps : Parts) : list Z := index <$> getAllTools ps.

Definition has_id (tid : string) (t : Tool) : bool :=
  Js.strict_eqV (id t) (Js.Str tid).

Definition group_has_id (tid : string) (p : Part) : bool :=
  existsb (has_id tid) (part_tools p).

(** A tool of the part has the id null. *)
Definition has_null_id (p : Part) : bool :=
  existsb (λ t, match id t with None => true | Some _ => false end) (part_tools p).

(** A computation that ends: it returns or throws. *)
Definition ends {A} (m : Gen A) : Prop := outcome m ≠ Diverge.

(** No fetch or read was rejected in [t]. *)
Definition no_reject (t : list Event) : Prop := ∀ e, EvRejected e ∉ t.

(** A rejection is the last event of a computation, which throws what the
    rejection carries. *)
Definition rejects_last {A} (m : Gen A) : Prop :=
  no_reject (trace m)
  ∨ ∃ pre e, trace m = pre ++ [EvRejected e] ∧ no_reject pre ∧ outcome m = Throw e.

(** Only chunks are yielded in [t]: nothing is requested and no tool runs. *)
Definition only_yields (t : list Event) : Prop :=
  Forall (λ ev, match ev with EvYield _ => True | _ => False end) t.

Definition yields_only {A} (m : Gen A) : Prop := only_yields (trace m).

(** Events of the reader: chunks and rejections. *)
Definition reader_events (t : list Event) : Prop :=
  Forall (λ ev, match ev with EvYield _ | EvRejected _ => True | _ => False end) t.

(** Every completion response asks for tools: the body is read to its end
    and has a frame with [delta.tool_calls]. *)
Definition requests_tools (JSON_parse : string → option Parsed)
    (o : FetchOutcome) : Prop :=
  ∃ body st,
    o = FetchOk body
    ∧ outcome (read_loop JSON_parse body "" round0) = Ok st
    ∧ hadToolCalls st = true.

(** The number of completion requests the agent loop makes from
    [iteration] on when every response asks for tools. *)
Definition rounds_left (maxToolIterations iteration : Z) : nat :=
  Z.to_nat (Z.max 1 (maxToolIterations - iteration)).

(** The system message put in front when custom instructions are set. *)
Definition system_messages (settings : Settings) : list ApiMessage :=
  match custom_instructions settings with
  | Some ci =>
      if Js.truthy ci
      then [mkApiMessage "system" (ContentString ci) None None Js.Undefined None]
      else []
  | None => []
  end.

(** The user message of the turn. *)
Definition user_message (currentDate query : string)
    (attachments : list Attachment) : ApiMessage :=
  mkApiMessage "user"
    (user_content
       ("<context>" +:+ LF
        +:+ "  <!-- CURRENT DATE ADDED AUTOMATICALLY; ONLY USE THE CURRENT DATE WHEN REQUIRED OR EXPLICITLY TOLD TO USE. -->"
        +:+ LF +:+ "  Current Date: " +:+ currentDate +:+ LF +:+ "</context>"
        +:+ LF +:+ LF +:+ query)
       attachments)
    None None Js.Undefined None.

(** The flat content the chunks add up to. *)
Definition add_content (flat : string) (chunk : Chunk) : string :=
  match c_content chunk with
  | Some c => if Js.truthy c then flat +:+ c else flat
  | None => flat
  end.

Definition flat_content (cs : list Chunk) : string := foldl add_content "" cs.

(** No message of the array has the id [aid], and every reference of the
    array is live. *)
Definition others (aid : string) (h : list Message) (refs : list nat) : Prop :=
  Forall (λ r, ∃ x, h !! r = Some x ∧ msg_id x ≠ aid) refs.

(** While the turn runs: [assistantMsg], at [l], is incomplete and holds
    the flat content so far, and the last element of the array is a message
    with the same id and content. *)
Definition running (aid : string) (l : nat) (flat : string) (s : State) : Prop :=
  ∃ m ms0 l' m',
    heap s !! l = Some m ∧ msg_id m = aid ∧ content m = flat ∧ complete m = false
    ∧ messages s = ms0 ++ [l'] ∧ heap s !! l' = Some m'
    ∧ msg_id m' = aid ∧ content m' = flat
    ∧ others aid (heap s) ms0.

(** What [sendMessage] needs to go through with a turn. *)
Definition ready (c : Call) (s : State) : Prop :=
  (Js.truthy (Js.trim (message_arg c)) = true ∨ attachments_arg c ≠ [])
  ∧ isLoading s = false
  ∧ others (assistantId c) (heap s) (messages s)
  ∧ userId c ≠ assistantId c.

(** When the turn is over: the last message of the array is the
    assistant's, complete, with the flat content. *)
Definition finished (aid : string) (flat : string) (s : State) : Prop :=
  ∃ m, last (messages_value s) = Some m
       ∧ msg_id m = aid ∧ content m = flat ∧ complete m = true
       ∧ isLoading s = false.

(** The tool-call delta of the examples. *)
Definition demo_delta : ToolData :=
  mkToolData 0 (Js.Str "call_1") (Some "function")
    (Some (mkFunctionDelta (Some "search") (Some "{}"))).

Definition tool_calls_frame : Frame :=
  mkFrame None
    (Some (mkChoice (Some (mkDelta Js.Undefined None (Some [demo_delta]) None None))
             (Some "tool_calls") None))
    None None.

Definition content_frame (text : string) : Frame :=
  mkFrame None
    (Some (mkChoice (Some (mkDelta (Js.Str text) None None None None)) None None))
    None None.

(** The parser of the examples: three payloads and the frames they stand
    for, a tool-call frame and two content frames. *)
Definition demo_parse (data : string) : option Parsed :=
  if String.eqb data "<tool_calls>" then Some (ParsedFrame tool_calls_frame)
  else if String.eqb data "<late>" then Some (ParsedFrame (content_frame "late"))
  else if String.eqb data "<hello>" then Some (ParsedFrame (content_frame "Hello"))
  else None.

(** A registry with one tool, and a catalogue with one model. *)
Definition demo_tools : Registry :=
  {[ "search" := mkToolEntry (λ _ _, ExecReturn "[]") "{}" ]}.

Definition demo_models (mid : string) : option ModelInfo :=
  if String.eqb mid "gemini-3-pro-preview"
  then Some (mkModelInfo "gemini-3-pro-preview" None) else None.

(** A server that asks for the tool on every request. *)
Definition always_tools (n : nat) : FetchOutcome :=
  FetchOk [ReadText ("data: <tool_calls>" +:+ LF)].

(** A first message in an empty conversation. *)
Definition demo_call (max : option Z) : Call :=
  mkCall "hi" None [] false "gemini-3-pro-preview" (mkSettings None max)
    "u1" "a1" "2026-01-01".

Definition empty_state : State := mkState [] [] false.

(** A response that stops with an abort in the middle of the stream. *)
Definition aborted_mid_stream (n : nat) : FetchOutcome :=
  FetchOk [ReadText ("data: <hello>" +:+ LF); ReadReject AbortError].

(** A response with the status 500, and an abort while its body is read. *)
Definition abort_in_error_body (n : nat) : FetchOutcome :=
  FetchNotOk 500 (BodyReject AbortError).

(** Whether the string ends in [suffix]. *)
Fixpoint ends_with (suffix s : string) : bool :=
  String.eqb s suffix
  || match s with
     | EmptyString => false
     | String _ r => ends_with suffix r
     end.

(** A response whose frame with the finish reason tool_calls is followed,
    in the next read, by a content frame. *)
Definition frames_after_finish (n : nat) : FetchOutcome :=
  FetchOk [ReadText ("data: <tool_calls>" +:+ LF); ReadText ("data: <late>" +:+ LF)].

(** Every reference of the array is live. *)
Definition live (s : State) : Prop :=
  Forall (λ r, is_Some (heap s !! r)) (messages s).

(** The test of the filter in [sendMessage]. *)
Definition in_history (messageToStore : string) (msg : Message) : bool :=
  complete msg && negb (Js.eqb (content msg) messageToStore).

(** The images of all image parts, in order. *)
Definition part_images (p : Part) : list Image :=
  match p with ImagePart imgs => imgs | _ => [] end.

Definition all_images (ps : Parts) : list Image := flat_map part_images ps.

(** The image [processImage] takes from an API image object, if any. *)
Definition image_of (image : ApiImage) : option Image :=
  match Js.or_else (default None (image_url image)) (url_a image) with
  | Some u =>
      if Js.truthy u then Some (mkImage u (Js.or_null (revised_prompt_a image)))
      else None
  | None => None
  end.

(** The text of the content parts, one after the other. *)
Definition part_text (p : Part) : string :=
  match p with ContentPart c => c | _ => "" end.

Definition text_of (ps : Parts) : string :=
  foldr (λ p s, part_text p +:+ s) "" ps.

(** A part with the results of its tools forgotten. *)
Definition forget_result (t : Tool) : Tool :=
  mkTool (index t) (id t) (type t) (fn_name t) (fn_arguments t) None.

Definition forget_results (p : Part) : Part :=
  match p with
  | ToolGroup k tools => ToolGroup k (forget_result <$> tools)
  | _ => p
  end.

(** The times of the calls of one kind in a run, in order. *)
Definition is_call (c d : Timing.TrackerCall) : bool :=
  match c, d with
  | Timing.MarkFirstToken, Timing.MarkFirstToken
  | Timing.StartReasoning, Timing.StartReasoning
  | Timing.EndReasoning, Timing.EndReasoning => true
  | _, _ => false
  end.

Definition times_of (c : Timing.TrackerCall) (calls : list (Z * Timing.TrackerCall)) : list Z :=
  omap (λ x, if is_call x.2 c then Some x.1 else None) calls.

(** The calls that come after the first [startReasoning]. *)
Fixpoint after_start (calls : list (Z * Timing.TrackerCall)) : list (Z * Timing.TrackerCall) :=
  match calls with
  | [] => []
  | (_, Timing.StartReasoning) :: rest => rest
  | _ :: rest => after_start rest
  end.

(** A tracker as [sendMessage] makes it, for a new assistant message. *)
Definition fresh_tracker : Timing.TimingTracker :=
  Timing.new_TimingTracker Timing.new_times.

(** The clock never runs backwards over the readings [times], and [now] is
    not before any of them. *)
Fixpoint clock_ok (times : list Z) (now : Z) : Prop :=
  match times with
  | [] => True
  | x :: rest => Forall (Z.le x) rest ∧ (x ≤ now)%Z ∧ clock_ok rest now
  end.

(** Whether a chunk makes [sendMessage] take in content, and reasoning. *)
Definition has_content (chunk : Chunk) : bool := Js.truthyO (c_content chunk).

Definition has_reasoning (chunk : Chunk) : bool :=
  match c_reasoning chunk with
  | Some r => Js.truthy r && negb (Js.eqb (Js.trim r) "None")
  | None => false
  end.

(** The calls of the tracker over a stream of chunks, each chunk with the
    readings of the clock while the loop handles it. *)
Definition chunk_calls (chunks : list (Timing.Readings * Chunk))
    : list (Z * Timing.TrackerCall) :=
  flat_map (λ rc, Timing.calls_of rc.1 rc.2) chunks.

(** The chunks that come after the first chunk with reasoning. *)
Fixpoint after_reasoning (chunks : list (Timing.Readings * Chunk))
    : list (Timing.Readings * Chunk) :=
  match chunks with
  | [] => []
  | rc :: rest => if has_reasoning rc.2 then rest else after_reasoning rest
  end.

(** The times at which the chunks of a stream set the three stamps, if
    they find them unset. *)
Definition first_token_at (rc : Timing.Readings * Chunk) : option Z :=
  if has_content rc.2 then Some (Timing.content_mark rc.1)
  else if has_reasoning rc.2 then Some (Timing.reasoning_mark rc.1)
  else None.

Definition reasoning_start_at (rc : Timing.Readings * Chunk) : option Z :=
  if has_reasoning rc.2 then Some (Timing.reasoning_start rc.1) else None.

Definition reasoning_end_at (rc : Timing.Readings * Chunk) : option Z :=
  if has_content rc.2 then Some (Timing.content_end rc.1) else None.

(** The time stamps of a tracker are in order and not after [hi]. *)
Definition ordered (hi : Z) (t : Timing.TimingTracker) : Prop :=
  (∀ e, Timing.reasoningEndTime (Timing.message t) = Some e →
        ∃ s, Timing.reasoningStartTime (Timing.message t) = Some s ∧ (s ≤ e)%Z ∧ (e ≤ hi)%Z)
  ∧ (∀ s, Timing.reasoningStartTime (Timing.message t) = Some s → (s ≤ hi)%Z)
  ∧ (∀ f, Timing.firstTokenTime (Timing.message t) = Some f → (f ≤ hi)%Z).

(** The entries of a models list with everything under them, in document
    order. *)
Fixpoint items_of (item : Catalogue.Item) : list Catalogue.Item :=
  item :: match Catalogue.models item with
          | Some ms => flat_map items_of ms
          | None => []
          end.

(** Whether the character occurs in the string. *)
Fixpoint has_char (c : ascii) (s : string) : bool :=
  match s with
  | EmptyString => false
  | String d r => Ascii.eqb d c || has_char c r
  end.

(** An image of the parts that has a URL. *)
Definition has_image_url (ps : list Part) : bool :=
  existsb (λ img, Js.truthy (url img)) (all_images ps).

(** The texts of some reads, one after the other. *)
Definition concat_texts (texts : list string) : string :=
  foldr (λ t s, t +:+ s) "" texts.

(** The chunk the generator yields for an error that is not an abort. *)
Definition critical_chunk (error : JsError) : Chunk :=
  let errorMessage :=
    if Js.truthy (err_message error) then err_message error
    else "No detailed information" in
  mkChunk
    (Some (LF +:+ LF +:+ "[CRITICAL ERROR: Failed to patch request."
           +:+ errorMessage +:+ "]"))
    None [] None None None [] true
    (Some (mkErrorDetails
             (if Js.truthy (err_name error) then err_name error else "UnknownError")
             (Some errorMessage) (Some (error_toString error)))).

(** The chunk the reader yields for a frame with an [error] field. *)
Definition api_error_chunk (err : ErrorObj) : Chunk :=
  mkChunk
    (Some (LF +:+ LF +:+ "[ERROR: "
           +:+ match e_message err with
               | Js.Str text => text
               | Js.Null => "null"
               | Js.Undefined => "undefined"
               end +:+ "]"))
    None [] None None None [] true
    (Some (mkErrorDetails (Js.or_default (e_type err) "APIError")
             (match e_message err with Js.Str text => Some text | _ => None end)
             None)).

(** Strictly ascending. *)
Fixpoint ascending (l : list Z) : Prop :=
  match l with
  | [] => True
  | x :: rest => Forall (Z.lt x) rest ∧ ascending rest
  end.


(** The buffer of the reader after one more read, [buffer = lines.pop()],
    and after some reads. *)
Definition next_buffer (buffer value : string) : string :=
  List.last (split_nl (buffer +:+ value)) "".

Definition buffer_after (texts : list string) : string :=
  foldl next_buffer "" texts.

(** A parser that knows two payloads, a content frame and a frame with an
    [error] field whose message is null, and a server that sends the
    second in two reads, after the first and before a third frame. *)
Definition error_frame : Frame :=
  mkFrame (Some (mkErrorObj Js.Null (Some "rate_limit_error"))) None None None.

Definition error_parse (data : string) : option Parsed :=
  if String.eqb data "<error>" then Some (ParsedFrame error_frame)
  else if String.eqb data "<hello>" then Some (ParsedFrame (content_frame "Hello"))
  else None.

Definition error_in_stream (n : nat) : FetchOutcome :=
  FetchOk [ReadText ("data: <hello>" +:+ LF); ReadText "data: <er";
           ReadText ("ror>" +:+ LF +:+ "data: <late>" +:+ LF);
           ReadText ("data: <late>" +:+ LF)].

(** The keys of the accumulator, in the order of [Object.values]. *)
Definition keys (acc : Accumulator) : list Z := fst <$> acc.

(** The order of [Object.values]: after a key that is an array index come
    only greater array indexes and keys that are none; after a key that is
    no array index come only other keys that are none. *)
Definition may_follow (x y : Z) : Prop :=
  if is_array_index x then is_array_index y = false ∨ (x < y)%Z
  else is_array_index y = false ∧ x ≠ y.

Fixpoint index_order (l : list Z) : Prop :=
  match l with
  | [] => True
  | x :: rest => Forall (may_follow x) rest ∧ index_order rest
  end.

(** A response whose one frame brings the tool call of index 1 before the
    tool call of index 0. *)
Definition unordered_frame : Frame :=
  mkFrame None
    (Some (mkChoice
             (Some (mkDelta Js.Undefined None
                      (Some [mkToolData 1 (Js.Str "call_b") None
                               (Some (mkFunctionDelta (Some "second") None));
                             mkToolData 0 (Js.Str "call_a") None
                               (Some (mkFunctionDelta (Some "first") None))])
                      None None))
             (Some "tool_calls") None))
    None None.

Definition unordered_parse (data : string) : option Parsed :=
  if String.eqb data "<unordered>" then Some (ParsedFrame unordered_frame) else None.

Definition unordered_tools (n : nat) : FetchOutcome :=
  FetchOk [ReadText ("data: <unordered>" +:+ LF)].

(** The text of the tool message for a tool that is not registered. *)
Definition unknown_tool_content (name : string) : Json :=
  "{" +:+ DQ +:+ "error" +:+ DQ +:+ ": " +:+ DQ +:+ "Unknown tool '"
  +:+ name +:+ "'" +:+ DQ +:+ "}".

(** While the turn runs with the builder [builder]: [assistantMsg], at
    [l], is incomplete; the last element of the array is a message with its
    id that shows the parts of the builder, and the flat content of both is
    the text of the content parts; the messages before it are [before]. *)
Definition tracking (aid : string) (l : nat) (builder : Parts)
    (before : list Message) (s : State) : Prop :=
  ∃ m ms0 l' m',
    heap s !! l = Some m ∧ msg_id m = aid ∧ complete m = false
    ∧ content m = text_of builder
    ∧ messages s = ms0 ++ [l'] ∧ heap s !! l' = Some m' ∧ msg_id m' = aid
    ∧ content m' = text_of builder
    ∧ parts m' = builder ∧ tool_calls m' = getAllTools builder
    ∧ others aid (heap s) ms0
    ∧ omap (λ r, heap s !! r) ms0 = before.

(** The assistant message as [createAssistantMessage] makes it. *)
Definition new_assistant (aid : string) : Message :=
  mkMessage aid "assistant" "" [] "" [] [] None false 0 0 0 false None.

(** A call for a model that the catalogue does not have. *)
Definition unknown_model_call : Call :=
  mkCall "hi" None [] false "no-such-model" (mkSettings None None)
    "u1" "a1" "2026-01-01".

(** A server that answers with one content frame. *)
Definition hello_stream (n : nat) : FetchOutcome :=
  FetchOk [ReadText ("data: <hello>" +:+ LF)].

(** A frame with two images and the content null, a parser that knows it
    beside the frames of [demo_parse], and a server that sends it before a
    content frame. *)
Definition image_frame : Frame :=
  mkFrame None
    (Some (mkChoice
             (Some (mkDelta Js.Null None None
                      (Some [mkApiImage (Some (Some "data:image/png;base64,AAAA"))
                               None None;
                             mkApiImage None (Some "data:image/png;base64,BBBB")
                               (Some "a cat")])
                      None))
             None None))
    None None.

Definition image_parse (data : string) : option Parsed :=
  if String.eqb data "<images>" then Some (ParsedFrame image_frame)
  else demo_parse data.

Definition image_stream (n : nat) : FetchOutcome :=
  FetchOk [ReadText ("data: <images>" +:+ LF +:+ "data: <hello>" +:+ LF)].

(** The metadata entries of a store, and those of one conversation. *)
Definition entries (st : Storage.Store) : list Storage.Metadata :=
  default [] (Storage.metadata st).

Definition entries_of (conversationId : string) (st : Storage.Store)
    : list Storage.Metadata :=
  List.filter (λ m, String.eqb (Storage.meta_id m) conversationId) (entries st).

Definition entries_but (conversationId : string) (st : Storage.Store)
    : list Storage.Metadata :=
  List.filter (λ m, negb (String.eqb (Storage.meta_id m) conversationId)) (entries st).

(** Only assistant messages carry annotations. *)
Definition plain_annotations (msg : Message) : Prop :=
  role msg ≠ "assistant" → annotations msg = None.

(** A store with one conversation, and two messages to store in it. *)
Definition one_conversation : Storage.Store :=
  Storage.mkStore
    {[ "c1" := Storage.mkConversation "Untitled" 1 [] ]}
    (Some [Storage.mkMetadata "c1" "Untitled" 1; Storage.mkMetadata "c0" "Earlier" 0]).

Definition two_messages : list Message :=
  [mkMessage "m0" "user" "What is Rocq?" [] "" [] [] None true 0 0 0 false None;
   mkMessage "m1" "assistant" "A proof assistant." [] "" [ContentPart "A proof assistant."]
     [] None true 5 12 7 false None].

(** The type of the group a part goes to. *)
Definition kind_of (p : Part) : ChatPanel.GroupType :=
  match p with
  | ReasoningPart _ | ToolGroup _ _ => ChatPanel.Mixed
  | ContentPart _ => ChatPanel.Content
  | ImagePart _ => ChatPanel.Image
  end.

(** A group is not empty, has a type, and holds parts of that type. *)
Definition well_grouped (g : ChatPanel.Group) : Prop :=
  ChatPanel.parts g ≠ []
  ∧ ∃ k, ChatPanel.type g = Some k
         ∧ Forall (λ p, kind_of p = k) (ChatPanel.parts g).

(** No two neighbours of the list are equal. *)
Definition alternating {A} (l : list A) : Prop :=
  ∀ i x y, l !! i = Some x → l !! S i = Some y → x ≠ y.

(** The parts of the groups, one group after the other. *)
Definition ungroup (gs : list ChatPanel.Group) : list Part :=
  mjoin (ChatPanel.parts <$> gs).

(** What the loop of [getPartGroups] keeps, with [done] the parts it has
    taken: the groups and the current group hold them in order; the groups
    are well formed; the current group is empty only before the first part,
    and holds parts of the current type; and no group has the type of the
    next. *)
Definition grouping (done : list Part) (st : ChatPanel.Loop) : Prop :=
  ungroup (ChatPanel.groups st) ++ ChatPanel.currentGroup st = done
  ∧ Forall well_grouped (ChatPanel.groups st)
  ∧ match ChatPanel.currentGroupType st with
    | None => ChatPanel.currentGroup st = [] ∧ ChatPanel.groups st = []
    | Some k =>
        ChatPanel.currentGroup st ≠ []
        ∧ Forall (λ p, kind_of p = k) (ChatPanel.currentGroup st)
    end
  ∧ alternating ((ChatPanel.type <$> ChatPanel.groups st)
                 ++ [ChatPanel.currentGroupType st]).

(** The builder of [PartsHeap.one_tool], with one tool in one group. *)
Definition builder_with_tool : PartsHeap.Builder :=
  default (PartsHeap.new_builder []) PartsHeap.one_tool.

(** * Theorems *)

(** ** The embedding on small inputs *)

Example trim_both_ends : Js.trim ("  a b " +:+ LF) = "a b".
Proof. reflexivity. Qed.

Example split_keeps_the_rest :
  split_nl ("a" +:+ LF +:+ "b" +:+ LF +:+ "c") = ["a"; "b"; "c"]
  ∧ split_nl ("a" +:+ LF) = ["a"; ""]
  ∧ split_nl "" = [""].
Proof. split_and!; reflexivity. Qed.

Example content_fragments_merge :
  foldl (λ ps t, apply_chunk_parts (content_chunk t []) ps) []
    ["Hel"; "lo, "; "world"] = [ContentPart "Hello, world"].
Proof. reflexivity. Qed.

Example kinds_alternate :
  foldl (λ ps c, apply_chunk_parts c ps) []
    [reasoning_chunk "think" []; content_chunk "a" []; content_chunk "b" [];
     tool_calls_chunk [demo_delta]; content_chunk "c" []]
  = [ReasoningPart "think"; ContentPart "ab";
     ToolGroup (Some "function")
       [mkTool 0 (Some "call_1") "function" "search" "{}" None];
     ContentPart "c"].
Proof. reflexivity. Qed.

Example image_only_turn_gets_content_first :
  ensureContentPartFirst "caption"
    (apply_chunk_parts
       (images_chunk None [mkApiImage (Some (Some "data:image/png;base64,AAAA")) None None])
       [])
  = [ContentPart "caption";
     ImagePart [mkImage "data:image/png;base64,AAAA" None]].
Proof. reflexivity. Qed.

(** A frame cut in two by the network is read once it is whole. *)
Example frame_split_across_reads :
  yields (trace (read_loop demo_parse
                   [ReadText "data: <hel"; ReadText ("lo>" +:+ LF)] "" round0))
  = [content_chunk "Hello" []].
Proof. reflexivity. Qed.

(** Lines that are no data frames and payloads that do not parse are
    passed over. *)
Example noise_is_skipped :
  yields (trace (read_loop demo_parse
                   [ReadText (": keep-alive" +:+ LF +:+ LF +:+ "data: {oops" +:+ LF
                              +:+ "data: <hello>" +:+ LF)] "" round0))
  = [content_chunk "Hello" []].
Proof. reflexivity. Qed.

(** A frame with images brings all of them in one chunk, whose content is
    that of the delta, null included, or else that of the message; and a
    frame that is the value null makes the reader throw. *)
Example image_frame_yields_every_image :
  let images := [mkApiImage (Some (Some "data:image/png;base64,AAAA")) None None;
                 mkApiImage None (Some "data:image/png;base64,BBBB") None] in
  let frame content :=
    ParsedFrame
      (mkFrame None
         (Some (mkChoice (Some (mkDelta content None None (Some images) None)) None
                  (Some (mkChoiceMessage (Some "caption") None))))
         None None) in
  let parse data :=
    if String.eqb data "<null content>" then Some (frame Js.Null)
    else if String.eqb data "<no content>" then Some (frame Js.Undefined)
    else if String.eqb data "null" then Some ParsedNull
    else None in
  yields (trace (read_loop parse [ReadText ("data: <null content>" +:+ LF)] "" round0))
  = [images_chunk None images]
  ∧ yields (trace (read_loop parse [ReadText ("data: <no content>" +:+ LF)] "" round0))
    = [images_chunk (Some "caption") images]
  ∧ outcome (read_loop parse [ReadText ("data: null" +:+ LF)] "" round0)
    = Throw null_frame_error.
Proof. split_and!; reflexivity. Qed.

Example accumulator_lists_by_index :
  fst <$> foldl accumulate []
    [mkToolData 2 Js.Undefined None None; mkToolData 0 Js.Undefined None None;
     mkToolData 1 Js.Undefined None None]
  = [0; 1; 2]%Z.
Proof. reflexivity. Qed.

(** ** Grouping of the parts (C1) *)

Lemma same_group_refl p : same_group p p.
Proof. by intros x. Qed.

Lemma no_adjacent_snoc ps q :
  no_adjacent_mergeable (ps ++ [q]) =
  no_adjacent_mergeable ps
  && match last ps with Some p => negb (mergeable p q) | None => true end.
Proof.
  induction ps as [|p [|p' r] IH]; simpl; try done.
  - by rewrite andb_true_r.
  - simpl in IH. rewrite IH. by rewrite andb_assoc.
Qed.

Lemma update_last_snoc f ps p : update_last f (ps ++ [p]) = ps ++ [f p].
Proof. unfold update_last. rewrite reverse_snoc. simpl. by rewrite reverse_involutive. Qed.

Lemma update_last_nil f : update_last f [] = [].
Proof. done. Qed.

Lemma last_snoc_inv {A} (l : list A) : l = [] ∨ ∃ l' x, l = l' ++ [x].
Proof.
  induction l as [|a l IH] using rev_ind; [by left|right; eauto].
Qed.

Lemma no_adjacent_update_last f ps :
  (∀ p, same_group (f p) p) →
  no_adjacent_mergeable (update_last f ps) = no_adjacent_mergeable ps.
Proof.
  intros Hf. destruct (last_snoc_inv ps) as [->|(l & x & ->)]; [done|].
  rewrite update_last_snoc, !no_adjacent_snoc.
  destruct (last l); [|done]. by destruct (Hf x p) as [_ ->].
Qed.

Lemma last_update_last f ps : last (update_last f ps) = f <$> last ps.
Proof.
  destruct (last_snoc_inv ps) as [->|(l & x & ->)]; [done|].
  by rewrite update_last_snoc, !last_snoc.
Qed.

Lemma no_adjacent_getOrCreatePart ty k ps :
  no_adjacent_mergeable ps = true →
  no_adjacent_mergeable (getOrCreatePart ty k ps) = true.
Proof.
  intros H. unfold getOrCreatePart, getLastPart.
  destruct ty, (last ps) as [[c|c|k' ts|imgs]|] eqn:E; try done;
    try (rewrite no_adjacent_snoc, H, E; done).
  destruct (toolType_eqb k' k) eqn:Ek; [done|].
  rewrite no_adjacent_snoc, H, E. simpl. by rewrite Ek.
Qed.

Lemma same_group_set_content c p : same_group (set_content c p) p.
Proof. by destruct p. Qed.

Lemma same_group_push_image i p : same_group (push_image i p) p.
Proof. by destruct p. Qed.

Lemma same_group_addOrUpdateTool_part d p : same_group (addOrUpdateTool_part d p) p.
Proof. destruct p; try done. simpl. by case_match. Qed.

Lemma no_adjacent_appendContent text ps :
  no_adjacent_mergeable ps = true →
  no_adjacent_mergeable (appendContent text ps) = true.
Proof.
  intros H. unfold appendContent. case_match; [done|].
  rewrite no_adjacent_update_last; [by apply no_adjacent_getOrCreatePart|].
  intros p. apply same_group_set_content.
Qed.

Lemma no_adjacent_appendReasoning text ps :
  no_adjacent_mergeable ps = true →
  no_adjacent_mergeable (appendReasoning text ps) = true.
Proof.
  intros H. unfold appendReasoning. case_match; [done|].
  rewrite no_adjacent_update_last; [by apply no_adjacent_getOrCreatePart|].
  intros p. case_match; apply same_group_set_content.
Qed.

Lemma no_adjacent_addImage u rp ps :
  no_adjacent_mergeable ps = true →
  no_adjacent_mergeable (addImage u rp ps) = true.
Proof.
  intros H. unfold addImage. case_match; [done|].
  rewrite no_adjacent_update_last; [by apply no_adjacent_getOrCreatePart|].
  intros p. apply same_group_push_image.
Qed.

Lemma no_adjacent_processImage img ps :
  no_adjacent_mergeable ps = true →
  no_adjacent_mergeable (processImage img ps) = true.
Proof.
  intros H. unfold processImage. repeat case_match; try done.
  by apply no_adjacent_addImage.
Qed.

Lemma no_adjacent_addOrUpdateTool k d ps :
  no_adjacent_mergeable ps = true →
  no_adjacent_mergeable (addOrUpdateTool k d ps) = true.
Proof.
  intros H. unfold addOrUpdateTool.
  rewrite no_adjacent_update_last; [by apply no_adjacent_getOrCreatePart|].
  intros p. apply same_group_addOrUpdateTool_part.
Qed.

Lemma setToolResult_go_groups tid r ps ps' :
  setToolResult_go tid r ps = Some ps' →
  Forall2 same_group ps' ps.
Proof.
  revert ps'. induction ps as [|p ps IH]; intros ps' H; [done|].
  simpl in H. destruct p as [c|c|k ts|imgs];
    try (destruct (setToolResult_go tid r ps) as [rest|]; simplify_eq/=;
         constructor; [apply same_group_refl|by apply IH]).
  destruct (update_first _ _ ts) as [ts'|].
  - simplify_eq. constructor; [done|]. apply Forall2_same_length_lookup_2; [done|].
    intros i x y ??; simplify_eq. apply same_group_refl.
  - destruct (setToolResult_go tid r ps) as [rest|]; simplify_eq/=.
    constructor; [done|by apply IH].
Qed.

Lemma no_adjacent_same_group ps ps' :
  Forall2 same_group ps' ps →
  no_adjacent_mergeable ps' = no_adjacent_mergeable ps.
Proof.
  induction 1 as [|p' p r' r Hp Hr IH]; [done|].
  destruct Hr as [|q' q r'' r0 Hq Hr]; [done|].
  change (negb (mergeable p' q') && no_adjacent_mergeable (q' :: r'')
          = negb (mergeable p q) && no_adjacent_mergeable (q :: r0)).
  rewrite IH. f_equal. f_equal.
  destruct (Hp q') as [-> _]. by destruct (Hq p) as [_ ->].
Qed.

Lemma no_adjacent_setToolResult tid r ps :
  no_adjacent_mergeable ps = true →
  no_adjacent_mergeable (fst (setToolResult tid r ps)) = true.
Proof.
  intros H. unfold setToolResult.
  destruct (setToolResult_go tid r ps) as [ps'|] eqn:E; [|done].
  simpl. by rewrite (no_adjacent_same_group _ _ (setToolResult_go_groups _ _ _ _ E)).
Qed.

Lemma foldl_preserves {A B} (P : A → Prop) (f : A → B → A) l a :
  (∀ a b, P a → P (f a b)) → P a → P (foldl f a l).
Proof. intros Hf. revert a. induction l; simpl; auto. Qed.

Lemma no_adjacent_apply_chunk chunk ps :
  no_adjacent_mergeable ps = true →
  no_adjacent_mergeable (apply_chunk_parts chunk ps) = true.
Proof.
  intros H. unfold apply_chunk_parts.
  set (p1 := match c_content chunk with Some c => _ | None => _ end).
  assert (H1 : no_adjacent_mergeable p1 = true).
  { subst p1. repeat case_match; try done. by apply no_adjacent_appendContent. }
  clearbody p1.
  set (p2 := foldl _ p1 (c_images chunk)).
  assert (H2 : no_adjacent_mergeable p2 = true).
  { subst p2. apply (foldl_preserves (λ ps, no_adjacent_mergeable ps = true)); [|done].
    intros. by apply no_adjacent_processImage. }
  clearbody p2.
  set (p3 := match c_reasoning chunk with Some c => _ | None => _ end).
  assert (H3 : no_adjacent_mergeable p3 = true).
  { subst p3. repeat case_match; try done. by apply no_adjacent_appendReasoning. }
  clearbody p3.
  set (p4 := apply_tool_deltas (c_tool_calls chunk) p3).
  assert (H4 : no_adjacent_mergeable p4 = true).
  { subst p4. unfold apply_tool_deltas. apply (foldl_preserves (λ ps, no_adjacent_mergeable ps = true)); [|done].
    intros. by apply no_adjacent_addOrUpdateTool. }
  clearbody p4.
  destruct (c_tool_result chunk) as [[tid r]|]; [|done].
  by apply no_adjacent_setToolResult.
Qed.

Lemma no_adjacent_ensureContentPartFirst content ps :
  no_adjacent_mergeable ps = true →
  no_adjacent_mergeable (ensureContentPartFirst content ps) = true.
Proof.
  intros H. unfold ensureContentPartFirst.
  destruct (hasImagePart ps && negb (hasContentPart ps) && Js.truthy content) eqn:E;
    [|done].
  destruct ps as [|q r]; [done|].
  change (negb (mergeable (ContentPart content) q) && no_adjacent_mergeable (q :: r) = true).
  rewrite H, andb_true_r.
  apply andb_prop in E as [E _]. apply andb_prop in E as [_ E].
  by destruct q.
Qed.

Lemma no_adjacent_finalize l s ps :
  no_adjacent_mergeable ps = true →
  no_adjacent_mergeable (snd (finalize l (s, ps))) = true.
Proof.
  intros H. unfold finalize.
  repeat (case_match; simplify_eq/=); try done.
  all: by apply no_adjacent_ensureContentPartFirst.
Qed.

(** C1: whatever chunks are applied, and however many of them, the parts
    of the builder never hold two adjacent content parts, two adjacent
    image parts or two adjacent tool groups of one tool type; this is so
    after each chunk, after [ensureContentPartFirst] with any content, and
    after the [finally] block of [sendMessage]. *)
Theorem parts_never_adjacent_mergeable (chunks : list Chunk) (n : nat) :
  no_adjacent_mergeable (parts_after chunks n) = true
  ∧ (∀ content,
       no_adjacent_mergeable
         (ensureContentPartFirst content (parts_after chunks n)) = true)
  ∧ (∀ l s,
       no_adjacent_mergeable
         (snd (finalize l (s, parts_after chunks n))) = true).
Proof.
  assert (H : no_adjacent_mergeable (parts_after chunks n) = true).
  { unfold parts_after.
    apply (foldl_preserves (λ ps, no_adjacent_mergeable ps = true)); [|done].
    intros. by apply no_adjacent_apply_chunk. }
  split_and!; [done|..]; intros.
  - by apply no_adjacent_ensureContentPartFirst.
  - by apply no_adjacent_finalize.
Qed.

(** ** Strings and reasoning fragments (C7) *)

Lemma append_nil_l s : "" +:+ s = s.
Proof. reflexivity. Qed.

Lemma append_cons a s t : String a s +:+ t = String a (s +:+ t).
Proof. reflexivity. Qed.

Lemma append_nil_r s : s +:+ "" = s.
Proof. induction s as [|a s IH]; [done|]. by rewrite append_cons, IH. Qed.

Lemma append_assoc a b c : (a +:+ b) +:+ c = a +:+ (b +:+ c).
Proof. induction a as [|x a IH]; [done|]. by rewrite !append_cons, IH. Qed.

Lemma truthy_false s : Js.truthy s = false → s = "".
Proof. by destruct s. Qed.

Lemma trim_empty : Js.trim "" = "".
Proof. done. Qed.

Lemma trim_nonempty s : Js.trim s ≠ "" → Js.truthy s = true.
Proof. by destruct s. Qed.

Lemma or_default_spec o d :
  Js.or_default o d = if Js.truthyO o then default "" o else d.
Proof. by destruct o as [[]|]. Qed.

Lemma getOrCreatePart_reasoning_last ps c :
  getOrCreatePart TReasoning None (ps ++ [ReasoningPart c]) = ps ++ [ReasoningPart c].
Proof. unfold getOrCreatePart, getLastPart. by rewrite last_snoc. Qed.

Lemma eqb_false_iff a b : Js.eqb a b = false ↔ a ≠ b.
Proof. apply String.eqb_neq. Qed.
Lemma eqb_true_iff a b : Js.eqb a b = true ↔ a = b.
Proof. apply String.eqb_eq. Qed.

Lemma appendReasoning_ignored text ps :
  Js.trim text = "None" → appendReasoning text ps = ps.
Proof.
  intros H. unfold appendReasoning.
  by rewrite (proj2 (eqb_true_iff _ _) H), orb_true_r.
Qed.

Lemma appendReasoning_replaces ps existing text :
  Js.trim existing = "" → Js.trim text ≠ "" → Js.trim text ≠ "None" →
  appendReasoning text (ps ++ [ReasoningPart existing]) = ps ++ [ReasoningPart text].
Proof.
  intros He Ht Hn. unfold appendReasoning.
  rewrite (trim_nonempty _ Ht), (proj2 (eqb_false_iff _ _) Hn).
  cbn [negb orb].
  rewrite getOrCreatePart_reasoning_last, update_last_snoc.
  cbn [part_content set_content].
  by rewrite He, (proj2 (eqb_false_iff _ _) Ht).
Qed.

Lemma apply_reasoning_chunk text ps :
  apply_chunk_parts (reasoning_chunk text []) ps = appendReasoning text ps.
Proof.
  unfold apply_chunk_parts, appendReasoning. simpl.
  destruct (Js.truthy text); [|done]. simpl.
  by destruct (Js.eqb (Js.trim text) "None").
Qed.

(** C7 (amended): a reasoning chunk whose fragment is not white space and
    does not trim to None replaces the text of a last reasoning part that
    is all white space; a fragment that trims to None, the literal None
    included, changes nothing; the fragments empty, two spaces, hello give
    one reasoning part with the content hello. *)
Theorem reasoning_whitespace_prefix_replaced (ps : Parts) (existing text : string) :
  Js.trim existing = "" → Js.trim text ≠ "" → Js.trim text ≠ "None" →
  apply_chunk_parts (reasoning_chunk text []) (ps ++ [ReasoningPart existing])
    = ps ++ [ReasoningPart text]
  ∧ (∀ none ps', Js.trim none = "None" →
       apply_chunk_parts (reasoning_chunk none []) ps' = ps')
  ∧ foldl (λ ps t, apply_chunk_parts (reasoning_chunk t []) ps) []
      [""; "  "; "hello"] = [ReasoningPart "hello"].
Proof.
  intros He Ht Hn. split_and!.
  - rewrite apply_reasoning_chunk. by apply appendReasoning_replaces.
  - intros none ps' H. rewrite apply_reasoning_chunk. by apply appendReasoning_ignored.
  - done.
Qed.

Lemma reasoning_whitespace_prefix_replaced_witness :
  apply_chunk_parts (reasoning_chunk "hello" []) ([ContentPart "a"] ++ [ReasoningPart "  "])
    = [ContentPart "a"] ++ [ReasoningPart "hello"]
  ∧ (∀ none ps', Js.trim none = "None" →
       apply_chunk_parts (reasoning_chunk none []) ps' = ps')
  ∧ foldl (λ ps t, apply_chunk_parts (reasoning_chunk t []) ps) []
      [""; "  "; "hello"] = [ReasoningPart "hello"].
Proof.
  apply (reasoning_whitespace_prefix_replaced [ContentPart "a"] "  " "hello");
    [reflexivity | discriminate | discriminate].
Defined.

(** C7 as stated, refuted: a None with a space in front is not white
    space and is not the literal None, and it does not replace the white
    space collected so far: the chunk is ignored. *)
Lemma padded_None_not_replaced :
  Js.trim "  " = ""
  ∧ Js.trim " None" ≠ ""
  ∧ " None" ≠ "None"
  ∧ apply_chunk_parts (reasoning_chunk " None" []) [ReasoningPart "  "]
      = [ReasoningPart "  "]
  ∧ apply_chunk_parts (reasoning_chunk " None" []) [ReasoningPart "  "]
      ≠ [ReasoningPart " None"].
Proof. split_and!; done. Qed.

(** ** Merging tool-call deltas (C3) *)

Lemma last_truthy_truthy a l :
  Js.truthyO a = true → Js.truthyO (last_truthy a l) = true.
Proof.
  revert a. induction l as [|o l IH]; intros a Ha; [done|].
  simpl. destruct (Js.truthyO o) eqn:E; by apply IH.
Qed.

Lemma or_default_truthy a d d' :
  Js.truthyO a = true → Js.or_default a d = Js.or_default a d'.
Proof. by destruct a as [[]|]. Qed.

Lemma or_default_last_truthy a l d :
  Js.or_default (last_truthy a l) d
  = Js.or_default (last_truthy None l) (Js.or_default a d).
Proof.
  revert a. induction l as [|o l IH]; intros a; [done|].
  simpl. destruct (Js.truthyO o) eqn:E; [|apply IH].
  apply or_default_truthy. by apply last_truthy_truthy.
Qed.

Lemma last_truthy_cons a o l :
  last_truthy a (o :: l) = last_truthy (if Js.truthyO o then o else a) l.
Proof. reflexivity. Qed.

Lemma or_default_last_truthy_cons o l d :
  Js.or_default (last_truthy None (o :: l)) d
  = Js.or_default (last_truthy None l) (Js.or_default o d).
Proof.
  rewrite last_truthy_cons. destruct (Js.truthyO o) eqn:E.
  - by rewrite <-or_default_last_truthy.
  - by rewrite (or_default_spec o), E.
Qed.

Lemma update_tool_fields d t :
  index (update_tool d t) = index t
  ∧ id (update_tool d t) = (if Js.truthyO (id_d d) then id_d d else id t)
  ∧ type (update_tool d t) = Js.or_default (type_d d) (type t)
  ∧ fn_name (update_tool d t) = Js.or_default (fn_name_of d) (fn_name t)
  ∧ fn_arguments (update_tool d t)
    = fn_arguments t +:+ Js.or_default (fn_arguments_of d) ""
  ∧ result (update_tool d t) = result t.
Proof.
  unfold update_tool. rewrite !or_default_spec.
  destruct (Js.truthyO (fn_name_of d)), (Js.truthyO (fn_arguments_of d)),
    (Js.truthyO (id_d d)), (Js.truthyO (type_d d)); simpl;
    rewrite ?append_nil_r; done.
Qed.

Lemma updates_fields t ds :
  index (updates t ds) = index t
  ∧ id (updates t ds) = last_truthy (id t) (id_d <$> ds)
  ∧ type (updates t ds) = Js.or_default (last_truthy None (type_d <$> ds)) (type t)
  ∧ fn_name (updates t ds)
    = Js.or_default (last_truthy None (fn_name_of <$> ds)) (fn_name t)
  ∧ fn_arguments (updates t ds) = fn_arguments t +:+ concat_arguments ds
  ∧ result (updates t ds) = result t.
Proof.
  revert t. induction ds as [|d ds IH]; intros t.
  { simpl. by rewrite append_nil_r. }
  change (updates t (d :: ds)) with (updates (update_tool d t) ds).
  destruct (IH (update_tool d t)) as (-> & -> & -> & -> & -> & ->).
  destruct (update_tool_fields d t) as (-> & -> & -> & -> & -> & ->).
  rewrite !fmap_cons, !or_default_last_truthy_cons.
  change (concat_arguments (d :: ds))
    with (Js.or_default (fn_arguments_of d) "" +:+ concat_arguments ds).
  split_and!; try done. by rewrite append_assoc.
Qed.

Lemma updates_new_tool d ds :
  updates (new_tool d) ds = merged_tool (index_d d) (d :: ds).
Proof.
  destruct (updates_fields (new_tool d) ds) as (Hi & Hid & Hty & Hn & Ha & Hr).
  destruct (updates (new_tool d) ds) as [i tid ty n a r]. simpl in *.
  unfold merged_tool. subst.
  rewrite ?fmap_cons, ?or_default_last_truthy_cons. done.
Qed.

Lemma update_first_app test f pre t post :
  (∀ x, x ∈ pre → test x = false) → test t = true →
  update_first test f (pre ++ t :: post) = Some (pre ++ f t :: post).
Proof.
  intros Hpre Ht. induction pre as [|x pre IH]; simpl.
  - by rewrite Ht.
  - rewrite (Hpre x) by set_solver. rewrite IH; [done|]. set_solver.
Qed.

Lemma update_first_none test f l :
  (∀ x, x ∈ l → test x = false) → update_first test f l = None.
Proof.
  intros H. induction l as [|x l IH]; [done|]. simpl.
  rewrite (H x) by set_solver. rewrite IH; [done|]. set_solver.
Qed.

Lemma getOrCreatePart_group_last ps k ts :
  getOrCreatePart TToolGroup (Some k) (ps ++ [ToolGroup (Some k) ts])
  = ps ++ [ToolGroup (Some k) ts].
Proof.
  unfold getOrCreatePart, getLastPart. rewrite last_snoc. simpl.
  by rewrite String.eqb_refl.
Qed.

(** [getOrCreatePart] for a tool group always leaves a group of that kind
    last. *)
Lemma getOrCreatePart_group_shape ps k :
  ∃ ps0 tools,
    getOrCreatePart TToolGroup (Some k) ps = ps0 ++ [ToolGroup (Some k) tools].
Proof.
  unfold getOrCreatePart, getLastPart.
  destruct (last_snoc_inv ps) as [->|(ps0 & p & ->)]; [by exists [], []|].
  rewrite last_snoc. destruct p as [c|c|k' ts|imgs]; try (by eexists _, []).
  destruct (toolType_eqb k' (Some k)) eqn:E; [|by eexists _, []].
  destruct k' as [k'|]; [|done]. apply String.eqb_eq in E as ->. by exists ps0, ts.
Qed.

Lemma addOrUpdateTool_update ps k pre t post d :
  (∀ x, x ∈ pre → index x ≠ index_d d) → index t = index_d d →
  addOrUpdateTool k d (ps ++ [ToolGroup (Some k) (pre ++ t :: post)])
  = ps ++ [ToolGroup (Some k) (pre ++ update_tool d t :: post)].
Proof.
  intros Hpre Ht. unfold addOrUpdateTool.
  rewrite getOrCreatePart_group_last, update_last_snoc. simpl.
  rewrite update_first_app; [done| |by apply Z.eqb_eq].
  intros x Hx. apply Z.eqb_neq. by apply Hpre.
Qed.

Lemma addOrUpdateTool_create ps ps0 k tools d :
  getOrCreatePart TToolGroup (Some k) ps = ps0 ++ [ToolGroup (Some k) tools] →
  (∀ x, x ∈ tools → index x ≠ index_d d) →
  addOrUpdateTool k d ps = ps0 ++ [ToolGroup (Some k) (tools ++ [new_tool d])].
Proof.
  intros Hg Hts. unfold addOrUpdateTool. rewrite Hg, update_last_snoc. simpl.
  rewrite update_first_none; [done|].
  intros x Hx. apply Z.eqb_neq. by apply Hts.
Qed.

Lemma apply_tool_deltas_updates ps k pre t post i ds :
  (∀ x, x ∈ ds → index_d x = i ∧ Js.or_default (type_d x) "function" = k) →
  (∀ x, x ∈ pre → index x ≠ i) → index t = i →
  apply_tool_deltas ds (ps ++ [ToolGroup (Some k) (pre ++ t :: post)])
  = ps ++ [ToolGroup (Some k) (pre ++ updates t ds :: post)].
Proof.
  revert t. induction ds as [|d ds IH]; intros t Hds Hpre Ht; [done|].
  unfold apply_tool_deltas, updates in *. simpl.
  assert (Hd : d ∈ d :: ds) by apply list_elem_of_here.
  destruct (Hds d Hd) as [Hi Hk]. rewrite Hk.
  rewrite addOrUpdateTool_update; [|by rewrite Hi|congruence].
  apply IH; [|done|].
  { intros x Hx. apply Hds. by apply list_elem_of_further. }
  by destruct (update_tool_fields d t) as (-> & _).
Qed.

Lemma acc_get_set i v acc : acc_get i (acc_set i v acc) = Some v.
Proof.
  induction acc as [|[j w] acc IH]; simpl.
  - by rewrite Z.eqb_refl.
  - destruct (i =? j)%Z eqn:E; simpl.
    + by rewrite Z.eqb_refl.
    + case_match; simpl; by rewrite ?Z.eqb_refl, ?E.
Qed.

Lemma foldl_accumulate_get i acc e ds :
  (∀ x, x ∈ ds → index_d x = i) → acc_get i acc = Some e →
  acc_get i (foldl accumulate acc ds) = Some (merges e ds).
Proof.
  revert acc e. induction ds as [|d ds IH]; intros acc e Hds He; [done|].
  simpl. apply IH; [intros x Hx; apply Hds; by apply list_elem_of_further|].
  assert (Hd : d ∈ d :: ds) by apply list_elem_of_here.
  unfold accumulate. rewrite (Hds d Hd), He.
  apply acc_get_set.
Qed.

Lemma merge_delta_fields d e :
  a_id (merge_delta d e) = (if Js.truthyV (id_v d) then id_v d else a_id e)
  ∧ a_type (merge_delta d e) = a_type e
  ∧ a_name (merge_delta d e) = Js.or_default (fn_name_of d) (a_name e)
  ∧ a_arguments (merge_delta d e)
    = a_arguments e +:+ Js.or_default (fn_arguments_of d) "".
Proof.
  unfold merge_delta. rewrite !or_default_spec.
  destruct (Js.truthyO (fn_name_of d)), (Js.truthyO (fn_arguments_of d)),
    (Js.truthyV (id_v d)); simpl; rewrite ?append_nil_r; done.
Qed.

Lemma merges_fields e ds :
  a_id (merges e ds) = last_truthy_value (a_id e) (id_v <$> ds)
  ∧ a_type (merges e ds) = a_type e
  ∧ a_name (merges e ds)
    = Js.or_default (last_truthy None (fn_name_of <$> ds)) (a_name e)
  ∧ a_arguments (merges e ds) = a_arguments e +:+ concat_arguments ds.
Proof.
  revert e. induction ds as [|d ds IH]; intros e.
  { simpl. by rewrite append_nil_r. }
  change (merges e (d :: ds)) with (merges (merge_delta d e) ds).
  destruct (IH (merge_delta d e)) as (-> & -> & -> & ->).
  destruct (merge_delta_fields d e) as (-> & -> & -> & ->).
  rewrite !fmap_cons, !or_default_last_truthy_cons.
  change (concat_arguments (d :: ds))
    with (Js.or_default (fn_arguments_of d) "" +:+ concat_arguments ds).
  split_and!; try done. by rewrite append_assoc.
Qed.

Lemma merges_first d ds :
  merges (mkAccTool (id_v d) (Js.or_default (type_d d) "function") "" "") (d :: ds)
  = merged_acc d ds.
Proof.
  set (e0 := mkAccTool _ _ _ _).
  destruct (merges_fields e0 (d :: ds)) as (Hid & Hty & Hn & Ha).
  destruct (merges e0 (d :: ds)) as [tid ty n a]. simpl in *.
  unfold merged_acc. subst. f_equal.
  by destruct (Js.truthyV (id_v d)).
Qed.

(** C3 (amended): the deltas of one index and one tool type, applied to a
    builder whose group has no tool of that index yet and to an accumulator
    with no entry for it, add up to one tool: its id is that of the last
    delta with a non-empty id (in the builder: none when no delta has one;
    in the accumulator: what the first delta carried), its name that of
    the last delta with a non-empty name, its arguments the fragments in
    the order of arrival, and its type function when no delta names one. *)
Theorem tool_call_deltas_merge (i : Z) (k : string) (d : ToolData)
    (ds : list ToolData) (ps ps0 : Parts) (tools : list Tool) (acc : Accumulator) :
  (∀ x, x ∈ d :: ds → index_d x = i ∧ Js.or_default (type_d x) "function" = k) →
  getOrCreatePart TToolGroup (Some k) ps = ps0 ++ [ToolGroup (Some k) tools] →
  (∀ t, t ∈ tools → index t ≠ i) →
  acc_get i acc = None →
  apply_tool_deltas (d :: ds) ps
    = ps0 ++ [ToolGroup (Some k) (tools ++ [merged_tool i (d :: ds)])]
  ∧ acc_get i (foldl accumulate acc (d :: ds)) = Some (merged_acc d ds).
Proof.
  intros Hds Hg Hts Hacc. assert (Hd : d ∈ d :: ds) by apply list_elem_of_here.
  destruct (Hds d Hd) as [Hi Hk]. split.
  - unfold apply_tool_deltas. simpl. rewrite Hk.
    rewrite (addOrUpdateTool_create _ _ _ _ _ Hg) by (by rewrite Hi).
    fold (apply_tool_deltas ds (ps0 ++ [ToolGroup (Some k) (tools ++ [new_tool d])])).
    rewrite (apply_tool_deltas_updates _ _ _ _ [] i); [| |done|done].
    2:{ intros x Hx. apply Hds. by apply list_elem_of_further. }
    by rewrite updates_new_tool, Hi.
  - simpl. unfold accumulate at 2. rewrite Hi, Hacc.
    rewrite (foldl_accumulate_get i _ _ ds (λ x Hx, proj1 (Hds x (list_elem_of_further _ _ _ Hx)))
               (acc_get_set _ _ _)).
    f_equal. rewrite <-merges_first. done.
Qed.

Lemma tool_call_deltas_merge_witness :
  let d := mkToolData 0 (Js.Str "call_a") None (Some (mkFunctionDelta (Some "search") None)) in
  let ds := [mkToolData 0 Js.Undefined None (Some (mkFunctionDelta None (Some "{")));
             mkToolData 0 (Js.Str "call_b") (Some "function")
               (Some (mkFunctionDelta (Some "") (Some "}")))] in
  apply_tool_deltas (d :: ds) [ContentPart "x"]
    = [ContentPart "x"]
      ++ [ToolGroup (Some "function")
            ([] ++ [mkTool 0 (Some "call_b") "function" "search" "{}" None])]
  ∧ acc_get 0 (foldl accumulate [] (d :: ds))
    = Some (mkAccTool (Js.Str "call_b") "function" "search" "{}").
Proof.
  apply (tool_call_deltas_merge 0 "function"
           (mkToolData 0 (Js.Str "call_a") None (Some (mkFunctionDelta (Some "search") None)))
           [mkToolData 0 Js.Undefined None (Some (mkFunctionDelta None (Some "{")));
            mkToolData 0 (Js.Str "call_b") (Some "function")
              (Some (mkFunctionDelta (Some "") (Some "}")))]
           [ContentPart "x"] [ContentPart "x"] [] []).
  - intros x Hx. repeat (apply elem_of_cons in Hx as [->|Hx]; [done|]).
    by apply elem_of_nil in Hx.
  - reflexivity.
  - intros t Ht. by apply elem_of_nil in Ht.
  - reflexivity.
Defined.

(** C3 as stated, refuted: two deltas of index 0 carry the ids call_a and
    call_b; builder and accumulator end with call_b, the id of the second
    one. *)
Lemma id_follows_last_delta :
  let d1 := mkToolData 0 (Js.Str "call_a") None (Some (mkFunctionDelta (Some "search") None)) in
  let d2 := mkToolData 0 (Js.Str "call_b") None (Some (mkFunctionDelta None (Some "{}"))) in
  id_d d1 = Some "call_a"
  ∧ apply_chunk_parts (tool_calls_chunk [d2])
      (apply_chunk_parts (tool_calls_chunk [d1]) [])
    = [ToolGroup (Some "function")
         [mkTool 0 (Some "call_b") "function" "search" "{}" None]]
  ∧ Object_values (foldl accumulate [] [d1; d2])
    = [mkAccTool (Js.Str "call_b") "function" "search" "{}"]
  ∧ Some "call_b" ≠ Some "call_a".
Proof. split_and!; done. Qed.

(** ** The flat tool list and tool results (C6, C8) *)

Lemma getAllTools_app a b : getAllTools (a ++ b) = getAllTools a ++ getAllTools b.
Proof. unfold getAllTools. by rewrite List.filter_app, flat_map_app. Qed.

Lemma getAllTools_flatten ps : getAllTools ps = mjoin (part_tools <$> ps).
Proof.
  unfold getAllTools. induction ps as [|p ps IH]; [done|].
  destruct p; simpl; by rewrite IH.
Qed.

Lemma update_first_indexes test f l l' :
  (∀ t, index (f t) = index t) →
  update_first test f l = Some l' → index <$> l' = index <$> l.
Proof.
  intros Hf. revert l'. induction l as [|t l IH]; intros l' H; [done|].
  simpl in H. destruct (test t).
  - simplify_eq. simpl. by rewrite Hf.
  - destruct (update_first test f l); simplify_eq/=. f_equal. by apply IH.
Qed.

Lemma update_first_found test f l :
  existsb test l = true → is_Some (update_first test f l).
Proof.
  induction l as [|t l IH]; [done|]. simpl. destruct (test t); [done|].
  simpl. intros H. destruct (IH H) as [? ->]. done.
Qed.

Lemma update_first_not_found test f l :
  existsb test l = false → update_first test f l = None.
Proof.
  induction l as [|t l IH]; [done|]. simpl. destruct (test t); [done|].
  simpl. intros H. by rewrite IH.
Qed.

Lemma toolType_eqb_eq a b : toolType_eqb a b = true → a = b.
Proof.
  destruct a, b; simpl; try done. by intros ->%String.eqb_eq.
Qed.

Lemma tool_indexes_addOrUpdateTool k d ps :
  tool_indexes (addOrUpdateTool k d ps)
  = tool_indexes ps ++ (if finds_tool k d ps then [] else [index_d d]).
Proof.
  unfold tool_indexes, addOrUpdateTool, finds_tool, getOrCreatePart, getLastPart.
  destruct (last_snoc_inv ps) as [->|(ps0 & p & ->)]; [done|].
  rewrite last_snoc.
  assert (Hnew : index <$> getAllTools
            (update_last (addOrUpdateTool_part d)
               ((ps0 ++ [p]) ++ [ToolGroup (Some k) []]))
          = (index <$> getAllTools (ps0 ++ [p])) ++ [index_d d]).
  { rewrite update_last_snoc, getAllTools_app, fmap_app. done. }
  destruct p as [c|c|k' ts|imgs]; try done.
  destruct (toolType_eqb k' (Some k)) eqn:Ek; [|done].
  apply toolType_eqb_eq in Ek as ->. simpl.
  rewrite update_last_snoc, !getAllTools_app, !fmap_app, <-app_assoc. f_equal.
  simpl. destruct (existsb _ ts) eqn:E.
  - destruct (update_first_found _ (update_tool d) _ E) as [ts' Hts]. rewrite Hts.
    unfold getAllTools. simpl. rewrite !app_nil_r.
    apply (update_first_indexes _ _ _ _ (λ t, proj1 (update_tool_fields d t)) Hts).
  - rewrite (update_first_not_found _ _ _ E).
    unfold getAllTools. simpl. by rewrite !app_nil_r, fmap_app.
Qed.

(** C6 (amended): [getAllTools] lists the tools of the tool groups in the
    order of the parts, each group in the order it stores them; and
    [addOrUpdateTool] leaves the indexes listed as they were when it finds
    the index in the group it works on, and adds the new index at the end
    otherwise: the tools of a group stand in the order of their creation. *)
Theorem getAllTools_creation_order :
  (∀ ps, getAllTools ps = mjoin (part_tools <$> ps))
  ∧ (∀ k d ps,
       index <$> getAllTools (addOrUpdateTool k d ps)
       = (index <$> getAllTools ps)
         ++ (if finds_tool k d ps then [] else [index_d d])).
Proof.
  split; [apply getAllTools_flatten|apply tool_indexes_addOrUpdateTool].
Qed.

(** C6 as stated, refuted: one chunk brings the delta of index 1 before
    the delta of index 0, and [getAllTools] lists 1 before 0. *)
Lemma getAllTools_not_sorted :
  let d1 := mkToolData 1 (Js.Str "call_b") None (Some (mkFunctionDelta (Some "second") None)) in
  let d0 := mkToolData 0 (Js.Str "call_a") None (Some (mkFunctionDelta (Some "first") None)) in
  let ps := apply_chunk_parts (tool_calls_chunk [d1; d0]) [] in
  ps = [ToolGroup (Some "function")
          [mkTool 1 (Some "call_b") "function" "second" "" None;
           mkTool 0 (Some "call_a") "function" "first" "" None]]
  ∧ index <$> getAllTools ps = [1; 0]%Z
  ∧ index <$> getAllTools ps ≠ [0; 1]%Z.
Proof. split_and!; done. Qed.

Lemma strict_eqV_Str a tid : Js.strict_eqV a (Js.Str tid) = true ↔ a = Some tid.
Proof.
  destruct a as [x|]; simpl; [|done]. rewrite String.eqb_eq. naive_solver.
Qed.

Lemma update_first_Some test f l :
  existsb test l = true →
  ∃ j t, l !! j = Some t ∧ test t = true
         ∧ (∀ j' t', (j' < j)%nat → l !! j' = Some t' → test t' = false)
         ∧ update_first test f l = Some (<[j := f t]> l).
Proof.
  induction l as [|x l IH]; [done|]. simpl. destruct (test x) eqn:E.
  - intros _. exists 0%nat, x. split_and!; try done. intros; lia.
  - simpl. intros H. destruct (IH H) as (j & t & Hj & Ht & Hfirst & ->).
    exists (S j), t. split_and!; try done.
    intros [|j'] t' Hlt Hl; simplify_eq/=; [done|]. apply (Hfirst j'); [lia|done].
Qed.

Lemma setToolResult_go_spec tid r ps :
  existsb (group_has_id tid) ps = true →
  ∃ i k tools j t,
    ps !! i = Some (ToolGroup k tools) ∧ tools !! j = Some t ∧ id t = Some tid
    ∧ (∀ i' p, (i' < i)%nat → ps !! i' = Some p → group_has_id tid p = false)
    ∧ (∀ j' t', (j' < j)%nat → tools !! j' = Some t' → id t' ≠ Some tid)
    ∧ setToolResult_go (Js.Str tid) r ps
      = Some (<[i := ToolGroup k (<[j := set_result r t]> tools)]> ps).
Proof.
  induction ps as [|p ps IH]; [done|]. simpl.
  destruct (group_has_id tid p) eqn:E; simpl.
  - intros _. destruct p as [c|c|k tools|imgs]; try done.
    unfold group_has_id in E. simpl in E.
    destruct (update_first_Some (has_id tid) (set_result r) _ E)
      as (j & t & Hj & Ht & Hfirst & Hup).
    exists 0%nat, k, tools, j, t. split_and!; try done.
    + by apply strict_eqV_Str.
    + intros; lia.
    + intros j' t' Hlt Hl Hid. apply strict_eqV_Str in Hid.
      specialize (Hfirst j' t' Hlt Hl). unfold has_id in Hfirst. congruence.
    + unfold has_id in Hup. by rewrite Hup.
  - intros H. destruct (IH H) as (i & k & tools & j & t & Hi & Hj & Hid & Hf1 & Hf2 & Hgo).
    exists (S i), k, tools, j, t. split_and!; try done.
    + intros [|i'] p' Hlt Hl; simplify_eq/=; [done|]. apply (Hf1 i'); [lia|done].
    + destruct p as [c|c|k' tools'|imgs]; simpl; try (by rewrite Hgo).
      unfold group_has_id in E. simpl in E.
      change (λ t0, Js.strict_eqV (id t0) (Js.Str tid)) with (has_id tid).
      by rewrite (update_first_not_found (has_id tid) _ _ E), Hgo.
Qed.

Lemma apply_tool_result_chunk tid r ps :
  apply_chunk_parts (tool_result_chunk tid r) ps = fst (setToolResult tid r ps).
Proof. done. Qed.

(** C8: when some tool group, at any position of the parts, holds a tool
    with the id of a tool result, [setToolResult] returns true and sets the
    result of the tool the lookup finds, the first one with that id in the
    order of the parts and of the tools: afterwards that tool has the
    result of the chunk and its other fields as before, and nothing else
    has changed. *)
Theorem tool_result_found_in_any_part (ps : Parts) (tid r : string) :
  (∃ i k tools t,
     ps !! i = Some (ToolGroup k tools) ∧ t ∈ tools ∧ id t = Some tid) →
  ∃ i k tools j t,
    ps !! i = Some (ToolGroup k tools) ∧ tools !! j = Some t ∧ id t = Some tid
    ∧ (∀ i' k' tools' t', (i' < i)%nat → ps !! i' = Some (ToolGroup k' tools') →
         t' ∈ tools' → id t' ≠ Some tid)
    ∧ (∀ j' t', (j' < j)%nat → tools !! j' = Some t' → id t' ≠ Some tid)
    ∧ setToolResult (Js.Str tid) r ps
      = (<[i := ToolGroup k
                  (<[j := mkTool (index t) (id t) (type t) (fn_name t)
                            (fn_arguments t) (Some r)]> tools)]> ps, true)
    ∧ apply_chunk_parts (tool_result_chunk (Js.Str tid) r) ps
      = <[i := ToolGroup k
                 (<[j := mkTool (index t) (id t) (type t) (fn_name t)
                           (fn_arguments t) (Some r)]> tools)]> ps
    ∧ (∃ tools' t',
         apply_chunk_parts (tool_result_chunk (Js.Str tid) r) ps !! i
         = Some (ToolGroup k tools')
         ∧ tools' !! j = Some t' ∧ id t' = Some tid ∧ result t' = Some r).
Proof.
  intros (i0 & k0 & tools0 & t0 & Hi0 & Ht0 & Hid0).
  assert (H : existsb (group_has_id tid) ps = true).
  { apply existsb_exists. exists (ToolGroup k0 tools0). split.
    - apply list_elem_of_In. by eapply list_elem_of_lookup_2.
    - apply existsb_exists. exists t0. split; [by apply list_elem_of_In|].
      by apply strict_eqV_Str. }
  destruct (setToolResult_go_spec tid r ps H)
    as (i & k & tools & j & t & Hi & Hj & Hid & Hf1 & Hf2 & Hgo).
  assert (Hchunk : apply_chunk_parts (tool_result_chunk (Js.Str tid) r) ps
                   = <[i := ToolGroup k
                              (<[j := mkTool (index t) (id t) (type t) (fn_name t)
                                        (fn_arguments t) (Some r)]> tools)]> ps).
  { rewrite apply_tool_result_chunk. unfold setToolResult. by rewrite Hgo. }
  exists i, k, tools, j, t. split_and!; try done.
  - intros i' k' tools' t' Hlt Hl Hin Hid'.
    specialize (Hf1 i' _ Hlt Hl). unfold group_has_id in Hf1. simpl in Hf1.
    assert (existsb (has_id tid) tools' = true); [|congruence].
    apply existsb_exists. exists t'. split; [by apply list_elem_of_In|].
    by apply strict_eqV_Str.
  - unfold setToolResult. by rewrite Hgo.
  - rewrite Hchunk. eexists _, _. split_and!.
    + apply list_lookup_insert_eq. by eapply lookup_lt_Some.
    + apply list_lookup_insert_eq. by eapply lookup_lt_Some.
    + done.
    + done.
Qed.

Lemma tool_result_found_in_any_part_witness :
  let t := mkTool 0 (Some "call_a") "function" "search" "{}" None in
  let ps := [ToolGroup (Some "function") [t]; ContentPart "done"] in
  ∃ i k tools j t,
    ps !! i = Some (ToolGroup k tools) ∧ tools !! j = Some t ∧ id t = Some "call_a"
    ∧ (∀ i' k' tools' t', (i' < i)%nat → ps !! i' = Some (ToolGroup k' tools') →
         t' ∈ tools' → id t' ≠ Some "call_a")
    ∧ (∀ j' t', (j' < j)%nat → tools !! j' = Some t' → id t' ≠ Some "call_a")
    ∧ setToolResult (Js.Str "call_a") "42" ps
      = (<[i := ToolGroup k
                  (<[j := mkTool (index t) (id t) (type t) (fn_name t)
                            (fn_arguments t) (Some "42")]> tools)]> ps, true)
    ∧ apply_chunk_parts (tool_result_chunk (Js.Str "call_a") "42") ps
      = <[i := ToolGroup k
                 (<[j := mkTool (index t) (id t) (type t) (fn_name t)
                           (fn_arguments t) (Some "42")]> tools)]> ps
    ∧ (∃ tools' t',
         apply_chunk_parts (tool_result_chunk (Js.Str "call_a") "42") ps !! i
         = Some (ToolGroup k tools')
         ∧ tools' !! j = Some t' ∧ id t' = Some "call_a" ∧ result t' = Some "42").
Proof.
  apply (tool_result_found_in_any_part
           [ToolGroup (Some "function")
              [mkTool 0 (Some "call_a") "function" "search" "{}" None];
            ContentPart "done"] "call_a" "42").
  exists 0%nat, (Some "function"),
    [mkTool 0 (Some "call_a") "function" "search" "{}" None],
    (mkTool 0 (Some "call_a") "function" "search" "{}" None).
  split_and!; [reflexivity | | reflexivity].
  apply list_elem_of_here.
Defined.

(** ** The generator: what a computation leaves in its trace *)

Lemma bind_Ok {A B} (m : Gen A) (k : A → Gen B) a :
  outcome m = Ok a →
  m ≫= k = mkGen (trace m ++ trace (k a)) (outcome (k a)).
Proof. intros H. unfold mbind, Gen_bind. by rewrite H. Qed.

Lemma bind_Throw {A B} (m : Gen A) (k : A → Gen B) e :
  outcome m = Throw e → m ≫= k = mkGen (trace m) (Throw e).
Proof. intros H. unfold mbind, Gen_bind. by rewrite H. Qed.

Lemma bind_Diverge {A B} (m : Gen A) (k : A → Gen B) :
  outcome m = Diverge → m ≫= k = mkGen (trace m) Diverge.
Proof. intros H. unfold mbind, Gen_bind. by rewrite H. Qed.

Lemma only_yields_no_reject t : only_yields t → no_reject t.
Proof.
  intros H e He. eapply Forall_forall in H; [|done]. done.
Qed.

Lemma no_reject_app t1 t2 : no_reject t1 → no_reject t2 → no_reject (t1 ++ t2).
Proof.
  intros H1 H2 e H. apply elem_of_app in H as [H|H].
  - exact (H1 e H).
  - exact (H2 e H).
Qed.

Lemma ends_bind {A B} (m : Gen A) (k : A → Gen B) :
  ends m → (∀ a, ends (k a)) → ends (m ≫= k).
Proof.
  unfold ends. intros Hm Hk. unfold mbind, Gen_bind.
  destruct (outcome m) eqn:E; simpl; [apply Hk|done|done].
Qed.

Lemma ends_bind_Ok {A B} (m : Gen A) (k : A → Gen B) :
  ends m → (∀ a, outcome m = Ok a → ends (k a)) → ends (m ≫= k).
Proof.
  unfold ends. intros Hm Hk. unfold mbind, Gen_bind.
  destruct (outcome m) eqn:E; simpl; [by apply Hk|done|done].
Qed.

Lemma rejects_last_bind {A B} (m : Gen A) (k : A → Gen B) :
  rejects_last m → (∀ a, rejects_last (k a)) → rejects_last (m ≫= k).
Proof.
  intros [Hm|(pre & e & Ht & Hpre & Ho)] Hk.
  - unfold mbind, Gen_bind. destruct (outcome m) eqn:E; simpl; [|by left..].
    destruct (Hk a) as [Hka|(pre & e & Ht & Hpre & Ho)].
    + left. simpl. by apply no_reject_app.
    + right. exists (trace m ++ pre), e. simpl. split_and!; [|by apply no_reject_app|done].
      by rewrite Ht, app_assoc.
  - right. exists pre, e. by rewrite (bind_Throw _ _ _ Ho).
Qed.

Lemma rejects_last_pure {A} (t : list Event) (o : Outcome A) :
  only_yields t → rejects_last (mkGen t o).
Proof. intros H. left. by apply only_yields_no_reject. Qed.

Lemma rejects_last_ret {A} (a : A) : rejects_last (mret a : Gen A).
Proof. by left; intros e H%elem_of_nil. Qed.

Lemma ends_ret {A} (a : A) : ends (mret a : Gen A).
Proof. done. Qed.

Lemma rejects_last_yield c : rejects_last (yield c).
Proof. apply rejects_last_pure. by repeat constructor. Qed.

Lemma rejects_last_throw {A} e : rejects_last (throw e : Gen A).
Proof. by left; intros e' H%elem_of_nil. Qed.

Lemma rejects_last_reject {A} e :
  rejects_last (emit (EvRejected e) ;; throw e : Gen A).
Proof.
  right. exists [], e. split_and!; [done| |done].
  by intros e' H%elem_of_nil.
Qed.

Lemma rejects_last_when b m : rejects_last m → rejects_last (when b m).
Proof. destruct b; [done|]. intros _. apply rejects_last_ret. Qed.

Lemma ends_when b m : ends m → ends (when b m).
Proof. by destruct b. Qed.

Section Generator.

Context (JSON_parse : string → option Parsed) (JSON_valid : Json → bool)
  (JSON_stringify_string : string → Json) (toolManager : Registry)
  (findModelById : string → option ModelInfo).

Lemma yields_only_bind {A B} (m : Gen A) (k : A → Gen B) :
  yields_only m → (∀ a, yields_only (k a)) → yields_only (m ≫= k).
Proof.
  unfold yields_only, mbind, Gen_bind. intros Hm Hk.
  destruct (outcome m); simpl; try done. apply Forall_app. split; [done|apply Hk].
Qed.

Lemma yields_only_ret {A} (a : A) : yields_only (mret a : Gen A).
Proof. constructor. Qed.

Lemma yields_only_yield c : yields_only (yield c).
Proof. by repeat constructor. Qed.

Lemma yields_only_when b m : yields_only m → yields_only (when b m).
Proof. destruct b; [done|]. intros _. constructor. Qed.

Lemma yields_only_throw {A} e : yields_only (throw e : Gen A).
Proof. constructor. Qed.

Lemma process_choice_yields parsed choice st :
  yields_only (process_choice parsed choice st)
  ∧ ∃ st', outcome (process_choice parsed choice st) = Ok st'.
Proof.
  unfold process_choice.
  repeat match goal with
  | |- context [when ?b ?m] => destruct b; unfold when at 1
  | |- context [match ?x with _ => _ end] => destruct x
  end; split; (try by repeat constructor); by eexists.
Qed.

Lemma process_choice_ends parsed choice st :
  ends (process_choice parsed choice st).
Proof.
  destruct (process_choice_yields parsed choice st) as [_ [st' H]].
  unfold ends. by rewrite H.
Qed.

Lemma for_lines_yields lines st :
  yields_only (for_lines JSON_parse lines st) ∧ ends (for_lines JSON_parse lines st).
Proof.
  revert st. induction lines as [|line rest IH]; intros st; [by split; [constructor|]|].
  simpl. destruct (negb (String.prefix "data: " line)); [apply IH|].
  destruct (String.eqb (slice6 line) "[DONE]"); [by split; [constructor|]|].
  destruct (JSON_parse (slice6 line)) as [[|parsed]|]; [|  |apply IH].
  { split; [constructor|done]. }
  destruct (f_error parsed) as [err|].
  { split; [by repeat constructor|done]. }
  assert (H : ∀ st',
    yields_only (if Js.strict_eqO (finishedReason st') (Some "tool_calls")
                 then mret st' else for_lines JSON_parse rest st')
    ∧ ends (if Js.strict_eqO (finishedReason st') (Some "tool_calls")
            then mret st' else for_lines JSON_parse rest st')).
  { intros st'. destruct (Js.strict_eqO _ _); [by split; [constructor|]|apply IH]. }
  split.
  - apply yields_only_bind; [|intros; apply H].
    destruct (choice0 parsed); [apply process_choice_yields|constructor].
  - apply ends_bind; [|intros; apply H].
    destruct (choice0 parsed); [apply process_choice_ends|done].
Qed.

Lemma only_yields_reader t : only_yields t → reader_events t.
Proof. intros H. eapply Forall_impl; [done|]. by intros []. Qed.

Lemma reader_events_requests t : reader_events t → requests t = [] ∧ tool_rounds t = [].
Proof.
  induction 1 as [|ev t Hev Ht [IH1 IH2]]; [done|].
  by destruct ev.
Qed.

Lemma read_loop_spec body buffer st :
  rejects_last (read_loop JSON_parse body buffer st)
  ∧ ends (read_loop JSON_parse body buffer st)
  ∧ reader_events (trace (read_loop JSON_parse body buffer st)).
Proof.
  revert buffer st. induction body as [|r body IH]; intros buffer st.
  { split_and!; [apply rejects_last_ret|done|constructor]. }
  destruct r as [value|e]; simpl.
  - destruct (for_lines_yields (removelast (split_nl (buffer +:+ value))) st) as [Hy He].
    split_and!.
    + apply rejects_last_bind; [by apply rejects_last_pure|intros; apply IH].
    + apply ends_bind; [done|intros; apply IH].
    + unfold mbind, Gen_bind. destruct (outcome _); simpl;
        try (by apply only_yields_reader).
      apply Forall_app. split; [by apply only_yields_reader|apply IH].
  - split_and!; [apply rejects_last_reject|done|by repeat constructor].
Qed.

End Generator.

(** ** The agent loop and the generator as a whole *)

Lemma requests_app t1 t2 : requests (t1 ++ t2) = requests t1 ++ requests t2.
Proof. apply omap_app. Qed.
Lemma tool_rounds_app t1 t2 : tool_rounds (t1 ++ t2) = tool_rounds t1 ++ tool_rounds t2.
Proof. apply omap_app. Qed.
Lemma yields_app t1 t2 : yields (t1 ++ t2) = yields t1 ++ yields t2.
Proof. apply omap_app. Qed.

Lemma yield_all_only cs : only_yields (trace (yield_all cs)).
Proof. simpl. induction cs; by constructor. Qed.

Lemma only_yields_counts t : only_yields t → requests t = [] ∧ tool_rounds t = [].
Proof. intros H. by apply reader_events_requests, only_yields_reader. Qed.

Section Generator.

Context (JSON_parse : string → option Parsed) (JSON_valid : Json → bool)
  (JSON_stringify_string : string → Json) (toolManager : Registry)
  (findModelById : string → option ModelInfo).

Section Turn.

Context (net : nat → FetchOutcome) (plainMessages : list Message)
  (baseMessages : list ApiMessage) (hasPDFAttachments : bool)
  (enabledToolSchemas : list Json) (modelSupportsTools : bool)
  (maxToolIterations : Z).

Local Abbreviation round_step :=
  (round_step JSON_parse JSON_valid JSON_stringify_string toolManager net
     plainMessages baseMessages hasPDFAttachments enabledToolSchemas
     modelSupportsTools maxToolIterations).
Local Abbreviation tool_loop :=
  (tool_loop JSON_parse JSON_valid JSON_stringify_string toolManager net
     plainMessages baseMessages hasPDFAttachments enabledToolSchemas
     modelSupportsTools maxToolIterations).

Lemma rejects_last_emit {A} ev (m : Gen A) :
  (∀ e, ev ≠ EvRejected e) → rejects_last m → rejects_last (emit ev ;; m).
Proof.
  intros Hev Hm. apply rejects_last_bind; [|done].
  left. intros e H. apply elem_of_cons in H as [H|H].
  - by apply (Hev e).
  - by apply elem_of_nil in H.
Qed.

Lemma round_step_rejects round iteration im :
  rejects_last (round_step round iteration im).
Proof.
  unfold Stream.round_step. apply rejects_last_emit; [done|].
  destruct (net round) as [e|status msg|body].
  - apply rejects_last_reject.
  - apply rejects_last_throw.
  - apply rejects_last_bind; [apply read_loop_spec|]. intros st.
    destruct (_ || _); [apply rejects_last_ret|].
    destruct (_ <=? _)%Z; [apply rejects_last_ret|].
    apply rejects_last_emit; [done|].
    apply rejects_last_bind; [|intros; apply rejects_last_ret].
    apply rejects_last_pure, yield_all_only.
Qed.

Lemma round_step_ends round iteration im : ends (round_step round iteration im).
Proof.
  unfold Stream.round_step. apply ends_bind; [done|]. intros _.
  destruct (net round) as [e|status msg|body]; [done|done|].
  apply ends_bind; [apply read_loop_spec|]. intros st.
  destruct (_ || _); [done|]. by destruct (_ <=? _)%Z.
Qed.

(** A pass of the loop goes on only below the bound. *)
Lemma round_step_continues round iteration im iteration' im' :
  outcome (round_step round iteration im) = Ok (Some (iteration', im')) →
  iteration' = (iteration + 1)%Z ∧ (iteration' < maxToolIterations)%Z
  ∧ modelSupportsTools = true.
Proof.
  unfold Stream.round_step, mbind, Gen_bind. simpl.
  destruct (net round) as [e|status msg|body]; simpl; [done|done|].
  destruct (outcome (read_loop _ _ _ _)) as [st| |]; simpl; [|done|done].
  destruct modelSupportsTools; [|by rewrite orb_true_r].
  destruct (negb (hadToolCalls st)); simpl; [done|].
  destruct (_ <=? _)%Z eqn:E; simpl; [done|].
  intros [= <- _]. split_and!; [done| |done]. by apply Z.leb_gt in E.
Qed.

Lemma tool_loop_rejects fuel round iteration im :
  rejects_last (tool_loop fuel round iteration im).
Proof.
  revert round iteration im. induction fuel as [|fuel IH]; intros round iteration im.
  { left. by intros e H%elem_of_nil. }
  simpl. apply rejects_last_bind; [apply round_step_rejects|].
  intros [[iteration' im']|]; [apply IH|apply rejects_last_ret].
Qed.

Lemma tool_loop_S fuel round iteration im :
  tool_loop (S fuel) round iteration im
  = round_step round iteration im ≫= λ r,
      match r with
      | None => mret tt
      | Some (iteration', im') => tool_loop fuel (S round) iteration' im'
      end.
Proof. reflexivity. Qed.

Lemma tool_loop_ends fuel round iteration im :
  (rounds_left maxToolIterations iteration ≤ fuel)%nat →
  ends (tool_loop fuel round iteration im).
Proof.
  unfold rounds_left.
  revert round iteration im. induction fuel as [|fuel IH]; intros round iteration im Hf.
  { lia. }
  rewrite tool_loop_S.
  apply ends_bind_Ok; [apply round_step_ends|].
  intros [[iteration' im']|] Ho; [|done].
  destruct (round_step_continues _ _ _ _ _ Ho) as (-> & Hlt & _).
  apply IH. lia.
Qed.

(** A pass of the loop makes one request. *)
Lemma round_step_counts round iteration im :
  requests (trace (round_step round iteration im))
  = [mkRequest (baseMessages ++ im)
       (if modelSupportsTools then Some enabledToolSchemas else None)
       hasPDFAttachments]
  ∧ (modelSupportsTools = false →
     tool_rounds (trace (round_step round iteration im)) = []).
Proof.
  unfold Stream.round_step, mbind, Gen_bind. simpl.
  destruct (net round) as [e|status msg|body]; simpl; [done|done|].
  destruct (read_loop_spec JSON_parse body "" round0) as (_ & _ & Hev).
  apply reader_events_requests in Hev as [Hq Ht].
  destruct (outcome (read_loop _ _ _ _)) as [st| |]; simpl;
    rewrite ?requests_app, ?tool_rounds_app, ?Hq, ?Ht; try done.
  destruct (negb (hadToolCalls st) || negb modelSupportsTools) eqn:E; simpl;
    [done|].
  destruct (_ <=? _)%Z; simpl; [done|].
  destruct (only_yields_counts _
              (yield_all_only (tool_result_of <$>
                 executeToolCallsLocally JSON_valid JSON_stringify_string
                   toolManager (Object_values (toolCallAccumulator st))
                   plainMessages))) as [Hyq Hyt].
  simpl in Hyq. rewrite !app_nil_r, Hyq. split; [done|].
  intros ->. by rewrite orb_true_r in E.
Qed.

(** With tool support off the loop makes one request and runs no tool. *)
Lemma tool_loop_without_tools fuel round iteration im :
  modelSupportsTools = false →
  requests (trace (tool_loop (S fuel) round iteration im))
  = [mkRequest (baseMessages ++ im) None hasPDFAttachments]
  ∧ tool_rounds (trace (tool_loop (S fuel) round iteration im)) = []
  ∧ ends (tool_loop (S fuel) round iteration im).
Proof.
  intros Hoff. rewrite tool_loop_S.
  pose proof (round_step_continues round iteration im) as Hc.
  destruct (round_step_counts round iteration im) as [Hq Ht].
  specialize (Ht Hoff).
  pose proof (round_step_ends round iteration im) as He.
  set (g := round_step round iteration im) in *. clearbody g.
  rewrite Hoff in Hq.
  unfold mbind, Gen_bind. unfold ends in *.
  destruct (outcome g) as [[[iteration' im']|]| |];
    cbn [trace outcome mret Gen_ret]; rewrite ?app_nil_r; try done.
  destruct (Hc _ _ eq_refl) as (_ & _ & Hon). congruence.
Qed.

Lemma emit_bind {A} ev (m : Gen A) :
  (emit ev ;; m) = mkGen (ev :: trace m) (outcome m).
Proof. reflexivity. Qed.

(** One pass with tool support on, over a response that asks for tools. *)
Lemma round_step_with_tools round iteration im body st :
  modelSupportsTools = true → net round = FetchOk body →
  outcome (read_loop JSON_parse body "" round0) = Ok st →
  hadToolCalls st = true →
  let completed := Object_values (toolCallAccumulator st) in
  let results :=
    executeToolCallsLocally JSON_valid JSON_stringify_string toolManager
      completed plainMessages in
  let request :=
    EvRequest (mkRequest (baseMessages ++ im) (Some enabledToolSchemas)
                 hasPDFAttachments) in
  round_step round iteration im
  = if (maxToolIterations <=? iteration + 1)%Z
    then mkGen (request :: trace (read_loop JSON_parse body "" round0)) (Ok None)
    else mkGen (request :: trace (read_loop JSON_parse body "" round0)
                  ++ EvExecTools completed :: (EvYield <$> (tool_result_of <$> results)))
           (Ok (Some ((iteration + 1)%Z,
                      im ++ mkApiMessage "assistant" (ContentString "") None
                              (Some ((λ tc, mkApiToolCall (Js.to_option (a_id tc))
                                              (a_type tc) (a_name tc)
                                              (a_arguments tc))
                                     <$> completed))
                              Js.Undefined None
                            :: results))).
Proof.
  intros Hon Hb Hst Hhad completed results request.
  unfold Stream.round_step. rewrite emit_bind, Hb, Hon.
  rewrite (bind_Ok _ _ _ Hst), Hhad.
  cbn [negb orb]. fold completed. fold results.
  destruct (maxToolIterations <=? iteration + 1)%Z.
  - simpl. by rewrite app_nil_r.
  - rewrite emit_bind. simpl. by rewrite !app_nil_r.
Qed.

(** With tool support on and a model that always asks for tools, the loop
    makes [rounds_left] requests and runs the tools after each but the
    last. *)
Lemma tool_loop_with_tools fuel round iteration im :
  modelSupportsTools = true →
  (∀ n, requests_tools JSON_parse (net n)) →
  (rounds_left maxToolIterations iteration ≤ fuel)%nat →
  outcome (tool_loop fuel round iteration im) = Ok tt
  ∧ length (requests (trace (tool_loop fuel round iteration im)))
    = rounds_left maxToolIterations iteration
  ∧ length (tool_rounds (trace (tool_loop fuel round iteration im)))
    = (rounds_left maxToolIterations iteration - 1)%nat.
Proof.
  intros Hon Hnet. unfold rounds_left.
  revert round iteration im. induction fuel as [|fuel IH]; intros round iteration im Hf.
  { lia. }
  rewrite tool_loop_S. destruct (Hnet round) as (body & st & Hb & Hst & Hhad).
  destruct (read_loop_spec JSON_parse body "" round0) as (_ & _ & Hev).
  apply reader_events_requests in Hev as [Hq Ht].
  rewrite (round_step_with_tools _ _ _ _ _ Hon Hb Hst Hhad).
  destruct (maxToolIterations <=? iteration + 1)%Z eqn:E.
  - apply Z.leb_le in E. rewrite (bind_Ok _ _ None) by done.
    cbn [trace outcome]. rewrite app_nil_r.
    change (?x :: ?l) with ([x] ++ l).
    rewrite requests_app, tool_rounds_app, Hq, Ht. simpl.
    split_and!; [done|lia|lia].
  - apply Z.leb_gt in E. erewrite bind_Ok by done.
    cbn [trace outcome].
    match goal with
    | |- context [tool_loop fuel (S round) ?it ?im'] =>
        destruct (IH (S round) it im') as (Ho & Hreq & Htr); [lia|]
    end.
    rewrite Ho.
    destruct (only_yields_counts _
                (yield_all_only (tool_result_of <$>
                   executeToolCallsLocally JSON_valid JSON_stringify_string
                     toolManager (Object_values (toolCallAccumulator st))
                     plainMessages))) as [Hyq Hyt].
    cbn [trace yield_all] in Hyq, Hyt.
    change (?x :: ?l ++ ?y :: ?l') with ([x] ++ l ++ [y] ++ l').
    rewrite !requests_app, !tool_rounds_app, !length_app.
    rewrite Hq, Ht, Hyq, Hyt, Hreq, Htr. simpl.
    split_and!; [done|lia|lia].
Qed.

End Turn.

Abbreviation handleIncomingMessage' :=
  (handleIncomingMessage JSON_parse JSON_valid JSON_stringify_string toolManager
     findModelById).

Lemma handler_spec e :
  only_yields (trace (handler e)) ∧ outcome (handler e) = Ok tt
  ∧ (err_name e = "AbortError" → trace (handler e) = [EvYield cancel_chunk]).
Proof.
  unfold handler. destruct (String.eqb (err_name e) "AbortError") eqn:E.
  - split_and!; [by repeat constructor|done|done].
  - split_and!; [by repeat constructor|done|].
    intros H. apply String.eqb_neq in E. done.
Qed.

Section Run.

Context (net : nat → FetchOutcome) (currentDate query : string)
  (plainMessages : list Message) (selectedModel : string) (settings : Settings)
  (attachments : list Attachment).

Local Abbreviation gen :=
  (handleIncomingMessage' net currentDate query plainMessages selectedModel
     settings attachments).

(** The part of the generator inside [try]. *)
Lemma gen_body :
  ∃ body : Gen unit,
    gen = try_catch body handler
    ∧ rejects_last body ∧ ends body
    ∧ (Js.truthy query = true →
       requests (trace body)
       = [mkRequest
            (system_messages settings ++ (formatMessageForAPI <$> plainMessages)
             ++ [user_message currentDate query attachments])
            None
            (existsb (λ a, String.eqb (att_type a) "pdf") attachments)]
       ∧ tool_rounds (trace body) = [])
    ∧ (Js.truthy query = false → trace body = []).
Proof.
  unfold handleIncomingMessage. eexists. split; [reflexivity|].
  destruct (Js.truthy query) eqn:Eq; cbn [negb]; cbv zeta.
  - unfold enabledToolNames. cbn [length Nat.ltb Nat.leb]. rewrite andb_false_r.
    match goal with
    | |- context [Stream.tool_loop _ _ _ _ _ _ ?bm _ _ _ _ (S ?f) _ _ _] =>
        destruct (tool_loop_without_tools net plainMessages bm
                    (existsb (λ a, String.eqb (att_type a) "pdf") attachments)
                    [] false (default 4%Z (tool_max_iterations settings))
                    f 0%nat 0%Z [] eq_refl) as (Hq & Ht & He)
    end.
    split_and!; [apply tool_loop_rejects|done| |done].
    intros _. split; [|done]. rewrite Hq, app_nil_r. f_equal. f_equal.
    unfold system_messages, user_message.
    destruct (custom_instructions settings) as [ci|]; [|done].
    by destruct (Js.truthy ci).
  - split_and!; [apply rejects_last_throw|done|done|done].
Qed.

Lemma try_catch_trace {A} (m : Gen A) h :
  trace (try_catch m h)
  = trace m ++ match outcome m with Throw e => trace (h e) | _ => [] end.
Proof. unfold try_catch. destruct (outcome m); simpl; by rewrite ?app_nil_r. Qed.

Lemma try_catch_outcome {A} (m : Gen A) h :
  outcome (try_catch m h)
  = match outcome m with Throw e => outcome (h e) | o => o end.
Proof. unfold try_catch. destruct (outcome m) eqn:E; simpl; by rewrite ?E. Qed.

(** The generator returns, whatever the network does. *)
Lemma generator_returns : outcome gen = Ok tt.
Proof.
  destruct gen_body as (body & Hgen & _ & He & _). rewrite Hgen.
  rewrite try_catch_outcome. unfold ends in He.
  destruct (outcome body) as [[]|e|]; [done| |done].
  apply handler_spec.
Qed.

Lemma generator_requests :
  Js.truthy query = true →
  requests (trace gen)
  = [mkRequest
       (system_messages settings ++ (formatMessageForAPI <$> plainMessages)
        ++ [user_message currentDate query attachments])
       None
       (existsb (λ a, String.eqb (att_type a) "pdf") attachments)]
  ∧ tool_rounds (trace gen) = [].
Proof.
  intros Hq. destruct gen_body as (body & Hgen & _ & _ & Hb & _). rewrite Hgen.
  destruct (Hb Hq) as [Hreq Htr].
  rewrite try_catch_trace, requests_app, tool_rounds_app, Hreq, Htr.
  destruct (outcome body) as [|e|]; try done.
  destruct (handler_spec e) as [Hy _].
  apply only_yields_counts in Hy as [-> ->]. done.
Qed.

(** Once a fetch or a read is rejected for an abort, the marker is
    yielded and nothing else happens. *)
Lemma generator_canceled e :
  EvRejected e ∈ trace gen → err_name e = "AbortError" →
  ∃ pre, trace gen = pre ++ [EvRejected e; EvYield cancel_chunk]
         ∧ no_reject pre.
Proof.
  intros Hin Hname. destruct gen_body as (body & Hgen & Hr & _).
  rewrite Hgen in *. clear Hgen. rewrite try_catch_trace in *.
  assert (Hh : ∀ e', EvRejected e ∉ trace (handler e')).
  { intros e'. destruct (handler_spec e') as [Hy _].
    by apply only_yields_no_reject. }
  destruct Hr as [Hno|(pre & e0 & Ht & Hpre & Ho)].
  - apply elem_of_app in Hin as [Hin|Hin]; [by apply Hno in Hin|].
    destruct (outcome body) as [|e'|]; [by apply elem_of_nil in Hin| |by apply elem_of_nil in Hin].
    by apply Hh in Hin.
  - rewrite Ho, Ht in *.
    assert (e = e0) as <-.
    { apply elem_of_app in Hin as [Hin|Hin]; [|by apply Hh in Hin].
      apply elem_of_app in Hin as [Hin|Hin]; [by apply Hpre in Hin|].
      apply list_elem_of_singleton in Hin. congruence. }
    exists pre. split; [|done].
    destruct (handler_spec e) as (_ & _ & Hc). rewrite (Hc Hname).
    by rewrite <-app_assoc.
Qed.

End Run.

End Generator.

(** ** The consumer: [sendMessage] completes the message *)

Lemma others_app aid h h' refs : others aid h refs → others aid (h ++ h') refs.
Proof.
  intros H. eapply Forall_impl; [done|].
  intros r (x & Hx & Hid). exists x. split; [|done].
  by apply lookup_app_l_Some.
Qed.

Lemma others_alter aid h l f refs :
  (∀ x, msg_id (f x) = msg_id x) →
  others aid h refs → others aid (alter f l h) refs.
Proof.
  intros Hf H. eapply Forall_impl; [done|]. intros r (x & Hx & Hid).
  destruct (decide (r = l)) as [->|Hne].
  - exists (f x). rewrite list_lookup_alter_eq, Hx. by rewrite Hf.
  - exists x. by rewrite list_lookup_alter_ne.
Qed.

Lemma running_mutate aid l flat f s :
  (∀ x, msg_id (f x) = msg_id x ∧ content (f x) = content x
        ∧ complete (f x) = complete x) →
  running aid l flat s → running aid l flat (mutate l f s).
Proof.
  intros Hf (m & ms0 & l' & m' & Hl & Hid & Hc & Hcomp & Hms & Hl' & Hid' & Hc' & Ho).
  destruct (Hf m) as (Hf1 & Hf2 & Hf3).
  exists (f m), ms0, l', (if decide (l' = l) then f m' else m').
  unfold mutate. simpl. rewrite list_lookup_alter_eq, Hl. simpl.
  split_and!; try congruence.
  - destruct (decide (l' = l)) as [->|Hne].
    + by rewrite list_lookup_alter_eq, Hl'.
    + by rewrite list_lookup_alter_ne.
  - destruct (decide (l' = l)); [|done]. destruct (Hf m') as (-> & _). done.
  - destruct (decide (l' = l)); [|done]. destruct (Hf m') as (_ & -> & _). done.
  - apply others_alter; [|done]. intros x. apply Hf.
Qed.

Lemma apply_chunk_msg_fields chunk m :
  msg_id (apply_chunk_msg chunk m) = msg_id m
  ∧ content (apply_chunk_msg chunk m) = add_content (content m) chunk
  ∧ complete (apply_chunk_msg chunk m) = complete m.
Proof.
  unfold apply_chunk_msg, add_content.
  destruct (c_content chunk) as [c|]; [destruct (Js.truthy c)|];
    destruct (c_reasoning chunk) as [r|];
    try destruct (Js.truthy r && negb (Js.eqb (Js.trim r) "None"));
    try destruct (Js.eqb (Js.trim (reasoning _)) "" && negb (Js.eqb (Js.trim r) ""));
    destruct (c_usage chunk), (c_annotations chunk); done.
Qed.

Lemma running_consume aid l flat s builder chunk :
  running aid l flat s →
  running aid l (add_content flat chunk) (fst (consume l (s, builder) chunk)).
Proof.
  intros (m & ms0 & l' & m' & Hl & Hid & Hc & Hcomp & Hms & Hl' & Hid' & Hc' & Ho).
  destruct (apply_chunk_msg_fields chunk m) as (Hf1 & Hf2 & Hf3).
  unfold consume, updateMessageReactivity, deref, mutate. simpl.
  rewrite list_lookup_alter_eq, Hl. simpl.
  exists (apply_chunk_msg chunk m), ms0, (length (alter (apply_chunk_msg chunk) l (heap s))),
    (set_parts_m (apply_chunk_parts chunk builder)
       (getAllTools (apply_chunk_parts chunk builder)) (apply_chunk_msg chunk m)).
  unfold set_messages. cbn [heap messages isLoading fst snd].
  split_and!; try (simpl; congruence).
  - rewrite lookup_app_l; [by rewrite list_lookup_alter_eq, Hl|].
    rewrite length_alter. by eapply lookup_lt_Some.
  - by rewrite Hms, removelast_last.
  - by rewrite list_lookup_middle.
  - apply others_app, others_alter; [|done].
    intros x. apply apply_chunk_msg_fields.
Qed.

Lemma running_foldl aid l cs : ∀ flat s builder,
  running aid l flat s →
  running aid l (foldl add_content flat cs) (fst (foldl (consume l) (s, builder) cs)).
Proof.
  induction cs as [|chunk cs IH]; intros flat s builder H; [done|].
  simpl. destruct (consume l (s, builder) chunk) as [s' builder'] eqn:E.
  apply IH. replace s' with (fst (consume l (s, builder) chunk)) by (by rewrite E).
  by apply running_consume.
Qed.

Lemma findIndex_others aid s ms0 l' m' :
  others aid (heap s) ms0 → heap s !! l' = Some m' → msg_id m' = aid →
  findIndex s aid (ms0 ++ [l']) = Some (length ms0).
Proof.
  intros Ho Hl' Hid. induction Ho as [|r ms0 (x & Hx & Hne) Ho IH]; simpl.
  - unfold deref. rewrite Hl', Hid, String.eqb_refl. done.
  - unfold deref at 1. rewrite Hx.
    apply String.eqb_neq in Hne. rewrite Hne, IH. done.
Qed.

Lemma finalize_finished aid l flat s builder :
  running aid l flat s → finished aid flat (fst (finalize l (s, builder))).
Proof.
  intros H. unfold finalize.
  set (s1 := match deref s l with Some m => _ | None => s end).
  assert (H1 : running aid l flat s1).
  { subst s1. destruct (deref s l) as [m|]; [|done].
    destruct (parts m); [|done]. by apply running_mutate. }
  clearbody s1. clear H.
  match goal with |- context [mutate l ?f s1] => set (s2 := mutate l f s1) end.
  assert (H2 : running aid l flat s2).
  { subst s2. apply running_mutate; [|done]. intros x. by destruct (Js.eqb _ _). }
  clearbody s2. clear H1.
  match goal with
  | |- context [if ?b then (?x, ?y) else (s2, builder)] =>
      set (st3 := if b then (x, y) else (s2, builder))
  end.
  assert (H3 : running aid l flat (fst st3)).
  { subst st3. destruct (_ && _); [|done]. simpl. by apply running_mutate. }
  destruct st3 as [s3 builder3]. simpl in H3. clear H2.
  destruct H3 as (m & ms0 & l' & m' & Hl & Hid & Hc & Hcomp & Hms & Hl' & Hid' & Hc' & Ho).
  assert (Hup : updateAssistantMessage l (set_complete_m true) s3
                = mkState (heap s3 ++ [set_complete_m true m'])
                    (ms0 ++ [length (heap s3)]) (isLoading s3)).
  { unfold updateAssistantMessage, deref. rewrite Hl, Hid, Hms.
    rewrite (findIndex_others aid s3 ms0 l' m' Ho Hl' Hid').
    rewrite list_lookup_middle by done. simpl. rewrite Hl'. simpl.
    unfold set_messages. simpl. f_equal.
    rewrite Hms. rewrite insert_app_r_alt by done. by rewrite Nat.sub_diag. }
  rewrite Hup.
  set (s4 := mkState _ _ _).
  assert (H4 : deref s4 l = Some m).
  { unfold deref. subst s4. simpl. by apply lookup_app_l_Some. }
  rewrite H4, Hcomp. simpl.
  replace (match errorDetails m with Some (_, _) => s4 | None => s4 end) with s4
    by (by destruct (errorDetails m) as [[]|]).
  exists (set_complete_m true m'). simpl. split_and!; try done.
  unfold messages_value. simpl. rewrite omap_app. simpl.
  unfold deref at 2. simpl. rewrite list_lookup_middle by done. simpl.
  by rewrite last_snoc.
Qed.

Lemma begin_running c s :
  others (assistantId c) (heap s) (messages s) → userId c ≠ assistantId c →
  running (assistantId c) (snd (begin c s)) "" (fst (begin c s)).
Proof.
  intros Ho Hne. unfold begin, createAssistantMessage, push, alloc.
  set (s0 := if skipUserMessage c then _ else _).
  assert (H0 : others (assistantId c) (heap s0) (messages s0)).
  { subst s0. destruct (skipUserMessage c); [done|].
    unfold addUserMessage. destruct (_ && _); [done|].
    simpl. apply Forall_app. split; [by apply others_app|].
    constructor; [|done]. eexists. split; [by apply list_lookup_middle|done]. }
  clearbody s0. simpl.
  set (a := mkMessage (assistantId c) "assistant" "" [] "" [] [] None false
              0 0 0 false None).
  exists a, (messages s0), (length (heap s0)), a.
  split_and!; try done; try (by apply list_lookup_middle).
  by apply others_app.
Qed.

Section SendMessage.

Context (JSON_parse : string → option Parsed) (JSON_valid : Json → bool)
  (JSON_stringify_string : string → Json) (toolManager : Registry)
  (findModelById : string → option ModelInfo) (net : nat → FetchOutcome).

Abbreviation sendMessage' :=
  (sendMessage JSON_parse JSON_valid JSON_stringify_string toolManager
     findModelById net).
Abbreviation streamGenerator' :=
  (streamGenerator JSON_parse JSON_valid JSON_stringify_string toolManager
     findModelById net).

(** A turn that is started ends with the assistant message complete,
    whatever generator it consumes, if only the generator ends. *)
Lemma sendMessage_with_finishes (gen : Gen unit) c s :
  ready c s → is_Some (findModelById (selected_model_id c)) → ends gen →
  ∃ s' builder,
    sendMessage_with findModelById gen c s = Some (s', builder)
    ∧ finished (assistantId c) (flat_content (yields (trace gen))) s'.
Proof.
  intros (Hmsg & Hload & Ho & Hne) [model Hmodel] Hends.
  unfold sendMessage_with. rewrite Hload, orb_false_r.
  replace (negb (Js.truthy (Js.trim (message_arg c)))
           && (length (attachments_arg c) =? 0)%nat) with false.
  2:{ destruct Hmsg as [->|Hatt]; [done|].
      destruct (attachments_arg c); [done|]. by rewrite andb_false_r. }
  pose proof (begin_running c s Ho Hne) as Hrun.
  destruct (begin c s) as [s1 l] eqn:Eb. simpl in Hrun.
  rewrite Hmodel.
  pose proof (running_foldl (assistantId c) l (yields (trace gen))
                "" s1 new_parts Hrun) as Hfold.
  destruct (foldl (consume l) (s1, new_parts) _) as [s2 builder] eqn:Ef.
  simpl in Hfold. unfold ends in Hends.
  destruct (outcome gen) as [[]|e|]; [| |done].
  - eexists _, _. split.
    { by rewrite (surjective_pairing (finalize _ _)). }
    apply finalize_finished. by apply running_mutate.
  - eexists _, _. split.
    { by rewrite (surjective_pairing (finalize _ _)). }
    by apply finalize_finished.
Qed.

Lemma sendMessage_finishes c s :
  ready c s → is_Some (findModelById (selected_model_id c)) →
  ∃ s' builder,
    sendMessage' c s = Some (s', builder)
    ∧ finished (assistantId c) (flat_content (yields (trace (streamGenerator' c s)))) s'.
Proof.
  intros Hready Hmodel. apply sendMessage_with_finishes; [done|done|].
  unfold ends, streamGenerator. by rewrite generator_returns.
Qed.

End SendMessage.

(** ** Turns: the bound of the loop, the reader (C2, C4) *)

Section Turns.

Context (JSON_parse : string → option Parsed) (JSON_valid : Json → bool)
  (JSON_stringify_string : string → Json) (toolManager : Registry)
  (findModelById : string → option ModelInfo) (net : nat → FetchOutcome).

Abbreviation sendMessage' :=
  (sendMessage JSON_parse JSON_valid JSON_stringify_string toolManager
     findModelById net).
Abbreviation streamGenerator' :=
  (streamGenerator JSON_parse JSON_valid JSON_stringify_string toolManager
     findModelById net).
Abbreviation tool_loop' :=
  (tool_loop JSON_parse JSON_valid JSON_stringify_string toolManager net).

Lemma flat_content_snoc cs chunk :
  flat_content (cs ++ [chunk]) = add_content (flat_content cs) chunk.
Proof. unfold flat_content. by rewrite foldl_app. Qed.

(** C2 (amended): with the bound 2 and a model that asks for tools in every
    response, the generator makes one request and runs no tool, since no
    tool name is ever enabled; the agent loop with tool support on makes
    two requests and runs the tools once, after the first; either way the
    generator returns and [sendMessage], consuming it, marks the message
    complete. *)
Theorem tool_loop_stops_at_bound (c : Call) (s : State) :
  ready c s → is_Some (findModelById (selected_model_id c)) →
  Js.truthy (message_arg c) = true →
  tool_max_iterations (settings_arg c) = Some 2%Z →
  (∀ n, requests_tools JSON_parse (net n)) →
  (length (requests (trace (streamGenerator' c s))) = 1%nat
   ∧ tool_rounds (trace (streamGenerator' c s)) = []
   ∧ outcome (streamGenerator' c s) = Ok tt)
  ∧ (∀ plainMessages baseMessages pdf schemas,
       let loop := tool_loop' plainMessages baseMessages pdf schemas true 2
                     (S (Z.to_nat 2)) 0 0 [] in
       let generator := try_catch loop handler in
       length (requests (trace loop)) = 2%nat
       ∧ length (tool_rounds (trace loop)) = 1%nat
       ∧ outcome loop = Ok tt
       ∧ length (requests (trace generator)) = 2%nat
       ∧ length (tool_rounds (trace generator)) = 1%nat
       ∧ outcome generator = Ok tt
       ∧ ∃ s' builder m,
           sendMessage_with findModelById generator c s = Some (s', builder)
           ∧ last (messages_value s') = Some m
           ∧ msg_id m = assistantId c
           ∧ complete m = true)
  ∧ ∃ s' builder m,
      sendMessage' c s = Some (s', builder)
      ∧ last (messages_value s') = Some m
      ∧ msg_id m = assistantId c
      ∧ complete m = true.
Proof.
  intros Hready Hmodel Hquery Hmax Hnet. split; [|split].
  - destruct (generator_requests JSON_parse JSON_valid JSON_stringify_string
                toolManager findModelById net (currentDate c) (message_arg c)
                (history (messageToStore c) (fst (begin c s)))
                (selected_model_id c) (settings_arg c) (attachments_arg c) Hquery)
      as [Hreq Htools].
    unfold streamGenerator. rewrite Hreq, Htools.
    split_and!; [done|done|apply generator_returns].
  - intros plainMessages baseMessages pdf schemas loop generator.
    destruct (tool_loop_with_tools JSON_parse JSON_valid JSON_stringify_string
                toolManager net plainMessages baseMessages pdf schemas true 2
                (S (Z.to_nat 2)) 0 0 [] eq_refl Hnet) as (Ho & Hreq & Htools).
    { unfold rounds_left. lia. }
    fold loop in Ho, Hreq, Htools. unfold rounds_left in *.
    assert (generator = loop) as Hgen.
    { subst generator. unfold try_catch. by rewrite Ho. }
    rewrite Hgen.
    split_and!; [by rewrite Hreq|by rewrite Htools|done
                 |by rewrite Hreq|by rewrite Htools|done|].
    destruct (sendMessage_with_finishes findModelById loop c s Hready Hmodel)
      as (s' & builder & Hsend & m & Hlast & Hid & Hcontent & Hcomplete & _).
    { unfold ends. by rewrite Ho. }
    by exists s', builder, m.
  - destruct (sendMessage_finishes JSON_parse JSON_valid JSON_stringify_string
                toolManager findModelById net c s Hready Hmodel)
      as (s' & builder & Hsend & m & Hlast & Hid & Hcontent & Hcomplete & _).
    by exists s', builder, m.
Qed.

End Turns.

Lemma demo_ready max : ready (demo_call max) empty_state.
Proof. split_and!; [by left|done|constructor|done]. Qed.

Lemma demo_model max :
  is_Some (demo_models (selected_model_id (demo_call max))).
Proof. by eexists. Qed.

Lemma always_tools_requests_tools n : requests_tools demo_parse (always_tools n).
Proof. by eexists _, _. Qed.

Lemma tool_loop_stops_at_bound_witness :
  length (requests (trace (streamGenerator demo_parse (λ _, true) (λ x, x)
                             demo_tools demo_models always_tools
                             (demo_call (Some 2%Z)) empty_state))) = 1%nat
  ∧ length (tool_rounds
              (trace (tool_loop demo_parse (λ _, true) (λ x, x) demo_tools
                        always_tools [] [] false ["{}"] true 2 3 0 0 []))) = 1%nat.
Proof.
  destruct (tool_loop_stops_at_bound demo_parse (λ _, true) (λ x, x) demo_tools
              demo_models always_tools (demo_call (Some 2%Z)) empty_state
              (demo_ready _) (demo_model _) eq_refl eq_refl
              always_tools_requests_tools) as ((H1 & _) & H2 & _).
  split; [exact H1|].
  exact (proj1 (proj2 (H2 [] [] false ["{}"]))).
Defined.

(** C2 as stated, refuted: on a model that asks for its tool every time,
    with the bound 2, the generator runs no round of tool execution, and
    the loop with tool support on runs one; neither runs two. *)
Lemma two_rounds_never_run :
  (∀ n, requests_tools demo_parse (always_tools n))
  ∧ length (tool_rounds
              (trace (streamGenerator demo_parse (λ _, true) (λ x, x) demo_tools
                        demo_models always_tools (demo_call (Some 2%Z))
                        empty_state))) = 0%nat
  ∧ length (tool_rounds
              (trace (tool_loop demo_parse (λ _, true) (λ x, x) demo_tools
                        always_tools [] [] false ["{}"] true 2 3 0 0 []))) = 1%nat
  ∧ ¬ (length (tool_rounds
                 (trace (streamGenerator demo_parse (λ _, true) (λ x, x) demo_tools
                           demo_models always_tools (demo_call (Some 2%Z))
                           empty_state))) = 2%nat
       ∨ length (tool_rounds
                   (trace (tool_loop demo_parse (λ _, true) (λ x, x) demo_tools
                             always_tools [] [] false ["{}"] true 2 3 0 0 []))) = 2%nat).
Proof.
  split_and!; [apply always_tools_requests_tools|reflexivity|reflexivity|].
  intros [H|H]; vm_compute in H; discriminate.
Qed.

(** C4, on a response whose frame with the finish reason tool_calls is
    followed by a content frame: in one read the later frame is dropped,
    but when it arrives with the next read its chunk is yielded, by the
    reader and so by the generator. *)
Theorem reader_goes_on_after_tool_calls :
  let finish := "data: <tool_calls>" +:+ LF in
  let late := "data: <late>" +:+ LF in
  let one_read := read_loop demo_parse [ReadText (finish +:+ late)] "" round0 in
  let two_reads := read_loop demo_parse [ReadText finish; ReadText late] "" round0 in
  yields (trace one_read) = [tool_calls_chunk [demo_delta]]
  ∧ yields (trace two_reads)
    = [tool_calls_chunk [demo_delta]; content_chunk "late" []]
  ∧ yields (trace (streamGenerator demo_parse (λ _, true) (λ x, x) demo_tools
                     demo_models frames_after_finish (demo_call None) empty_state))
    = [tool_calls_chunk [demo_delta]; content_chunk "late" []].
Proof. split_and!; reflexivity. Qed.

(** ** The history of a request (C10) *)

Lemma omap_deref_app (h h' : list Message) (refs : list nat) :
  Forall (λ r, is_Some (h !! r)) refs →
  omap (λ r, (h ++ h') !! r) refs = omap (λ r, h !! r) refs.
Proof.
  induction 1 as [|r refs [x Hx] _ IH]; [done|].
  cbn. by rewrite (lookup_app_l_Some _ _ _ _ Hx), Hx, IH.
Qed.

Lemma messages_value_push m s :
  live s →
  messages_value (fst (push m s)) = messages_value s ++ [m]
  ∧ live (fst (push m s)).
Proof.
  intros Hl. unfold push, alloc, messages_value, deref, set_messages, live. simpl.
  split.
  - rewrite omap_app, (omap_deref_app _ _ _ Hl). simpl.
    by rewrite list_lookup_middle.
  - apply Forall_app. split.
    + eapply Forall_impl; [exact Hl|]. intros r [x Hx]. exists x.
      by apply lookup_app_l_Some.
    + constructor; [|done]. eexists. by apply list_lookup_middle.
Qed.

Lemma begin_messages c s :
  live s →
  ∃ user,
    messages_value (fst (begin c s))
    = messages_value s ++ user
      ++ [mkMessage (assistantId c) "assistant" "" [] "" [] [] None false
            0 0 0 false None]
    ∧ Forall (λ m, content m = messageToStore c) user.
Proof.
  intros Hl. unfold begin, createAssistantMessage.
  set (s0 := if skipUserMessage c then _ else _).
  assert (H0 : ∃ user, messages_value s0 = messages_value s ++ user
                       ∧ Forall (λ m, content m = messageToStore c) user
                       ∧ live s0).
  { subst s0. destruct (skipUserMessage c).
    - exists []. by rewrite app_nil_r.
    - unfold addUserMessage. destruct (_ && _).
      + exists []. by rewrite app_nil_r.
      + eexists [_]. destruct (messages_value_push
                    (mkMessage (userId c) "user" (messageToStore c) (attachments_arg c)
                       "" [] [] None true 0 0 0 false None) (set_isLoading true s))
          as [Hv Hlive]; [done|].
        split_and!; [exact Hv|by repeat constructor|done]. }
  destruct H0 as (user & Hv & Hu & Hl0). clearbody s0.
  exists user. split; [|done].
  destruct (messages_value_push
              (mkMessage (assistantId c) "assistant" "" [] "" [] [] None false
                 0 0 0 false None) s0 Hl0) as [-> _].
  by rewrite Hv, <-app_assoc.
Qed.

Section History.

Context (JSON_parse : string → option Parsed) (JSON_valid : Json → bool)
  (JSON_stringify_string : string → Json) (toolManager : Registry)
  (findModelById : string → option ModelInfo) (net : nat → FetchOutcome).

(** C10: the history [sendMessage] hands to the generator is the messages
    of the array before the call that are complete and whose content is
    not the text stored for the user, in their order; the new user message
    and the new assistant message are not among them; and the one request
    of the turn carries exactly these, formatted, between the system
    message and the user message. *)
Theorem history_is_complete_and_different (c : Call) (s : State) :
  live s →
  let h := history (messageToStore c) (fst (begin c s)) in
  h = List.filter (in_history (messageToStore c)) (messages_value s)
  ∧ (∀ m, m ∈ h ↔ m ∈ messages_value s ∧ complete m = true
                   ∧ content m ≠ messageToStore c)
  ∧ h `sublist_of` messages_value s
  ∧ (Js.truthy (message_arg c) = true →
     req_messages <$> requests
       (trace (streamGenerator JSON_parse JSON_valid JSON_stringify_string
                 toolManager findModelById net c s))
     = [system_messages (settings_arg c) ++ (formatMessageForAPI <$> h)
        ++ [user_message (currentDate c) (message_arg c) (attachments_arg c)]]).
Proof.
  intros Hl h.
  assert (Hh : h = List.filter (in_history (messageToStore c)) (messages_value s)).
  { subst h. unfold history. destruct (begin_messages c s Hl) as (user & -> & Hu).
    fold (in_history (messageToStore c)).
    rewrite !List.filter_app. simpl.
    replace (List.filter (in_history (messageToStore c)) user) with (@nil Message).
    - by rewrite !app_nil_r.
    - induction Hu as [|m user Hm Hu IH]; [done|]. simpl.
      unfold in_history at 1. unfold Js.eqb. rewrite Hm, String.eqb_refl.
      by rewrite andb_false_r. }
  split_and!.
  - done.
  - intros m. rewrite Hh, list_elem_of_In, List.filter_In, <-list_elem_of_In.
    unfold in_history, Js.eqb.
    rewrite andb_true_iff, negb_true_iff, String.eqb_neq. tauto.
  - rewrite Hh. clear. induction (messages_value s) as [|m l IH]; [done|].
    simpl. destruct (in_history _ m); by constructor.
  - intros Hq. unfold streamGenerator.
    destruct (generator_requests JSON_parse JSON_valid JSON_stringify_string
                toolManager findModelById net (currentDate c) (message_arg c)
                (history (messageToStore c) (fst (begin c s)))
                (selected_model_id c) (settings_arg c) (attachments_arg c) Hq)
      as [-> _].
    done.
Qed.

End History.

Lemma history_is_complete_and_different_witness :
  let old := mkMessage "m0" "user" "hi" [] "" [] [] None true 0 0 0 false None in
  let answer := mkMessage "m1" "assistant" "Hello" [] "" [] [] None true 0 0 0 false None in
  let s := mkState [old; answer] [0%nat; 1%nat] false in
  history (messageToStore (demo_call None)) (fst (begin (demo_call None) s)) = [answer].
Proof.
  intros old answer s.
  destruct (history_is_complete_and_different demo_parse (λ _, true) (λ x, x)
              demo_tools demo_models always_tools (demo_call None) s) as [H _].
  - repeat constructor; by eexists.
  - exact H.
Defined.

(** ** Snapshots of the builder (C5) *)

Module HeapFacts.
Import PartsHeap.

Lemma elems_of_ext h e a els :
  elems_of h a = Some els → elems_of (h ++ e) a = Some els.
Proof.
  unfold elems_of. destruct (h !! a) as [o|] eqn:E; [|done].
  by rewrite (lookup_app_l_Some _ _ _ _ E).
Qed.

Lemma read_tool_ext h e t v : read_tool h t = Some v → read_tool (h ++ e) t = Some v.
Proof.
  unfold read_tool. destruct (h !! t) as [[]|] eqn:E; try done.
  rewrite (lookup_app_l_Some _ _ _ _ E).
  destruct (h !! function) as [o|] eqn:Ef; [|done].
  by rewrite (lookup_app_l_Some _ _ _ _ Ef).
Qed.

Lemma read_image_ext h e i v : read_image h i = Some v → read_image (h ++ e) i = Some v.
Proof.
  unfold read_image. destruct (h !! i) as [o|] eqn:E; [|done].
  by rewrite (lookup_app_l_Some _ _ _ _ E).
Qed.

Lemma mapM_ext {A B} (f g : A → option B) l vs :
  (∀ x v, f x = Some v → g x = Some v) →
  mapM f l = Some vs → mapM g l = Some vs.
Proof.
  intros Hfg. rewrite !mapM_Some. intros H. eapply Forall2_impl; [done|].
  intros x v. apply Hfg.
Qed.

Lemma read_part_ext h e p v :
  read_part h p = Some v →
  read_part (h ++ e) p = Some v
  ∧ part_members (h ++ e) p = part_members h p
  ∧ part_array (h ++ e) p = part_array h p.
Proof.
  unfold read_part, part_members, part_array.
  destruct (h !! p) as [o|] eqn:E; [|done].
  rewrite (lookup_app_l_Some _ _ _ _ E).
  destruct o as [ty c|k a|a| | | |]; try done.
  - destruct (elems_of h a) as [ts|] eqn:Ea; [|done].
    rewrite (elems_of_ext _ e _ _ Ea). simpl.
    destruct (mapM (read_tool h) ts) as [tools|] eqn:Em; [|done].
    rewrite (mapM_ext _ (read_tool (h ++ e)) _ _ (read_tool_ext h e) Em). done.
  - destruct (elems_of h a) as [ts|] eqn:Ea; [|done].
    rewrite (elems_of_ext _ e _ _ Ea). simpl.
    destruct (mapM (read_image h) ts) as [imgs|] eqn:Em; [|done].
    rewrite (mapM_ext _ (read_image (h ++ e)) _ _ (read_image_ext h e) Em). done.
Qed.

Lemma flat_map_part_ext h e l vs :
  Forall2 (λ p v, read_part h p = Some v) l vs →
  flat_map (part_array (h ++ e)) l = flat_map (part_array h) l
  ∧ flat_map (part_members (h ++ e)) l = flat_map (part_members h) l.
Proof.
  induction 1 as [|x y r vr Hx Hr [IH1 IH2]]; [done|].
  simpl. rewrite IH1, IH2.
  by destruct (read_part_ext h e x y Hx) as (_ & -> & ->).
Qed.

Lemma lookup_snoc2_1 (h : Heap) x y : (h ++ [x; y]) !! length h = Some x.
Proof. by apply list_lookup_middle. Qed.

Lemma lookup_snoc2_2 (h : Heap) x y : (h ++ [x; y]) !! S (length h) = Some y.
Proof.
  change (h ++ [x; y]) with (h ++ [x] ++ [y]). rewrite app_assoc.
  apply list_lookup_middle. rewrite length_app. simpl. lia.
Qed.

Lemma copy_part_ok h p v :
  read_part h p = Some v →
  ∃ h1 p',
    copy_part h p = Some (h1, p')
    ∧ (∃ new, h1 = h ++ new)
    ∧ fresh_for h p'
    ∧ read_part h1 p' = Some v
    ∧ Forall (fresh_for h) (part_array h1 p')
    ∧ part_members h1 p' = part_members h p.
Proof.
  unfold read_part, copy_part, part_members, part_array, alloc, fresh_for.
  destruct (h !! p) as [o|] eqn:E; [|done].
  destruct o as [ty c|k a|a| | | |]; try done.
  - intros Hv. eexists _, _. split; [done|].
    rewrite !(list_lookup_middle h [] (OText ty c) (length h) eq_refl).
    split_and!; [by eexists|done|done|by constructor|done].
  - destruct (elems_of h a) as [ts|] eqn:Ea; [|done]. simpl.
    destruct (mapM (read_tool h) ts) as [tools|] eqn:Em; [|done]. simpl.
    intros [= <-]. eexists _, _. split; [done|].
    rewrite <-app_assoc. simpl. rewrite length_app. simpl.
    replace (length h + 1)%nat with (S (length h)) by lia.
    rewrite !lookup_snoc2_2.
    unfold elems_of. rewrite !lookup_snoc2_1. simpl.
    split_and!; [by eexists|lia| |by repeat constructor|done].
    by rewrite (mapM_ext _ (read_tool (h ++ _)) _ _ (read_tool_ext h _) Em).
  - destruct (elems_of h a) as [ts|] eqn:Ea; [|done]. simpl.
    destruct (mapM (read_image h) ts) as [imgs|] eqn:Em; [|done]. simpl.
    intros [= <-]. eexists _, _. split; [done|].
    rewrite <-app_assoc. simpl. rewrite length_app. simpl.
    replace (length h + 1)%nat with (S (length h)) by lia.
    rewrite !lookup_snoc2_2.
    unfold elems_of. rewrite !lookup_snoc2_1. simpl.
    split_and!; [by eexists|lia| |by repeat constructor|done].
    by rewrite (mapM_ext _ (read_image (h ++ _)) _ _ (read_image_ext h _) Em).
Qed.

Lemma fresh_for_ext h e l : fresh_for (h ++ e) l → fresh_for h l.
Proof. unfold fresh_for. rewrite length_app. lia. Qed.

Lemma copy_parts_ok ps : ∀ h vs,
  Forall2 (λ p v, read_part h p = Some v) ps vs →
  ∃ h2 ps',
    copy_parts h ps = Some (h2, ps')
    ∧ (∃ new, h2 = h ++ new)
    ∧ Forall2 (λ p v, read_part h2 p = Some v) ps' vs
    ∧ Forall (fresh_for h) ps'
    ∧ Forall (fresh_for h) (flat_map (part_array h2) ps')
    ∧ flat_map (part_members h2) ps' = flat_map (part_members h) ps.
Proof.
  induction ps as [|p r IH]; intros h vs Hvs.
  { inversion Hvs; subst. exists h, []. split_and!; try done.
    exists []. by rewrite app_nil_r. }
  inversion Hvs as [|? v ? vr Hp Hr]; subst.
  destruct (copy_part_ok h p v Hp)
    as (h1 & p' & Hc & [n1 ->] & Hf & Hread & Harr & Hmem).
  assert (Hr1 : Forall2 (λ p v, read_part (h ++ n1) p = Some v) r vr).
  { eapply Forall2_impl; [done|]. intros x y Hx. by apply (read_part_ext h n1). }
  destruct (IH (h ++ n1) vr Hr1)
    as (h2 & r' & Hcs & [n2 ->] & Hread' & Hf' & Harr' & Hmem').
  exists ((h ++ n1) ++ n2), (p' :: r'). simpl. rewrite Hc. simpl. rewrite Hcs. simpl.
  destruct (read_part_ext (h ++ n1) n2 p' v Hread) as (Hread2 & Hmem2 & Harr2).
  split_and!.
  - done.
  - exists (n1 ++ n2). by rewrite app_assoc.
  - by constructor.
  - constructor; [done|]. eapply Forall_impl; [done|]. intros l. apply fresh_for_ext.
  - apply Forall_app. rewrite Harr2. split; [done|].
    eapply Forall_impl; [done|]. intros l. apply fresh_for_ext.
  - rewrite Hmem2, Hmem, Hmem'. f_equal.
    by destruct (flat_map_part_ext h n1 r vr Hr) as [_ ->].
Qed.

(** X30: on a builder whose parts read back as [ps], [toReactiveArray]
    returns an array that reads back as [ps] too, leaves every object of the
    builder as it was, allocates the array, the part objects and their
    [tools] and [images] arrays afresh, and puts the builder's own tool
    and image objects into them. *)
Lemma toReactiveArray_spec b ps :
  read_parts (heap b) (parts b) = Some ps →
  ∃ h' snap,
    toReactiveArray b = Some (h', snap)
    ∧ (∃ new, h' = heap b ++ new)
    ∧ read_parts h' snap = Some ps
    ∧ read_parts h' (parts b) = Some ps
    ∧ Forall (fresh_for (heap b)) (containers h' snap)
    ∧ members h' snap = members (heap b) (parts b).
Proof.
  unfold read_parts, toReactiveArray, members, containers.
  destruct (elems_of (heap b) (parts b)) as [locs|] eqn:E; [|done]. simpl.
  intros Hps. pose proof Hps as Hps'. apply mapM_Some in Hps.
  destruct (copy_parts_ok locs (heap b) ps Hps)
    as (h2 & ps' & Hc & [n ->] & Hread & Hf & Harr & Hmem).
  rewrite Hc. simpl. unfold alloc.
  exists ((heap b ++ n) ++ [OArray ps']), (length (heap b ++ n)).
  assert (Hsnap : elems_of ((heap b ++ n) ++ [OArray ps']) (length (heap b ++ n))
                  = Some ps').
  { unfold elems_of. by rewrite list_lookup_middle. }
  rewrite Hsnap. simpl.
  assert (Hext : ∀ p v, read_part (heap b ++ n) p = Some v →
            read_part ((heap b ++ n) ++ [OArray ps']) p = Some v
            ∧ part_members ((heap b ++ n) ++ [OArray ps']) p
              = part_members (heap b ++ n) p
            ∧ part_array ((heap b ++ n) ++ [OArray ps']) p
              = part_array (heap b ++ n) p).
  { intros p v. apply read_part_ext. }
  split_and!.
  - done.
  - exists (n ++ [OArray ps']). by rewrite app_assoc.
  - apply mapM_Some. eapply Forall2_impl; [done|]. intros p v Hp. by apply Hext.
  - rewrite <-app_assoc. rewrite (elems_of_ext _ _ _ _ E). simpl.
    apply mapM_Some. eapply Forall2_impl; [exact Hps|].
    intros p v Hp. by apply (read_part_ext (heap b) (n ++ [OArray ps'])).
  - destruct (flat_map_part_ext (heap b ++ n) [OArray ps'] ps' ps Hread) as [-> _].
    constructor; [unfold fresh_for; rewrite length_app; lia|].
    by apply Forall_app.
  - destruct (flat_map_part_ext (heap b ++ n) [OArray ps'] ps' ps Hread) as [_ ->].
    done.
Qed.

(** C5, on a builder with one tool: the array [toReactiveArray] returns
    holds the very tool object of the builder, so the next delta the
    builder takes in changes the arguments read through the snapshot. *)
Theorem toReactiveArray_shares_tool_objects :
  ∃ b h snap tool,
    one_tool = Some b
    ∧ toReactiveArray b = Some (h, snap)
    (* the snapshot and the builder hold the same tool object *)
    ∧ members (heap b) (parts b) = [tool]
    ∧ members h snap = [tool]
    ∧ ¬ fresh_for (heap b) tool
    (* so the next delta of the builder changes the snapshot taken before *)
    ∧ ∃ b', addOrUpdateTool "function" second_delta (mkBuilder h (parts b)) = Some b'
            ∧ read_parts h snap
              = Some [ToolGroup (Some "function")
                        [mkTool 0 (Some "call_1") "function" "search" "{" None]]
            ∧ read_parts (heap b') snap
              = Some [ToolGroup (Some "function")
                        [mkTool 0 (Some "call_1") "function" "search" "{}" None]].
Proof.
  eexists _, _, _, _. split; [reflexivity|]. split; [reflexivity|].
  split; [reflexivity|]. split; [reflexivity|].
  split; [unfold fresh_for; simpl; lia|].
  eexists. split; [reflexivity|]. split; reflexivity.
Qed.

End HeapFacts.

(** ** More of the parts builder *)

Lemma toolType_eqb_refl k : toolType_eqb k k = true.
Proof. destruct k as [x|]; [apply String.eqb_refl|done]. Qed.

Lemma getOrCreatePart_cases ty k ps :
  (getOrCreatePart ty k ps = ps
   ∧ ∃ p, last ps = Some p ∧ part_type p = ty
          ∧ (ty = TToolGroup → ∃ ts, p = ToolGroup k ts))
  ∨ (∃ p, getOrCreatePart ty k ps = ps ++ [p] ∧ part_type p = ty
          ∧ (ty = TToolGroup → p = ToolGroup k [])
          ∧ part_tools p = [] ∧ part_content p = ""
          ∧ (∀ imgs, p = ImagePart imgs → imgs = [])).
Proof.
  unfold getOrCreatePart, getLastPart.
  destruct ty, (last ps) as [[c|c|k' ts|imgs]|] eqn:E; simpl;
    try (left; split; [done|]; eexists; split_and!; done);
    try (right; eexists; split_and!; [done..|]; by intros ? [= <-]).
  destruct (toolType_eqb k' k) eqn:Ek.
  - apply toolType_eqb_eq in Ek as ->.
    left; split; [done|]. eexists; split_and!; [done..|]. intros _. by eexists.
  - right; eexists; split_and!; [done..|]. by intros ? [=].
Qed.

Lemma getOrCreatePart_last_same ty k ps p :
  part_type p = ty → (ty = TToolGroup → ∃ ts, p = ToolGroup k ts) →
  getOrCreatePart ty k (ps ++ [p]) = ps ++ [p].
Proof.
  intros Hty Hk. unfold getOrCreatePart, getLastPart. rewrite last_snoc.
  destruct ty, p as [c|c|k' ts|imgs]; try done.
  destruct (Hk eq_refl) as [ts' [= -> ->]]. by rewrite toolType_eqb_refl.
Qed.

(** X1: [getOrCreatePart] leaves a part of the kind asked for (and, for a
    tool group, of the tool type asked for) at the end of the array; it
    adds at most one part, an empty one; and asking again for the same
    kind adds nothing. *)
Theorem getOrCreatePart_idempotent (ty : PartType) (k : option string) (ps : Parts) :
  (∃ p, last (getOrCreatePart ty k ps) = Some p ∧ part_type p = ty
        ∧ (ty = TToolGroup → ∃ ts, p = ToolGroup k ts))
  ∧ (getOrCreatePart ty k ps = ps
     ∨ ∃ p, getOrCreatePart ty k ps = ps ++ [p]
            ∧ part_tools p = [] ∧ part_content p = "" ∧ part_images p = [])
  ∧ getOrCreatePart ty k (getOrCreatePart ty k ps) = getOrCreatePart ty k ps.
Proof.
  destruct (getOrCreatePart_cases ty k ps)
    as [(-> & p & Hl & Hty & Hk)|(p & -> & Hty & Hk & Ht & Hc & Hi)].
  - split_and!; [by exists p|by left|].
    destruct (last_snoc_inv ps) as [->|(ps' & x & ->)]; [done|].
    rewrite last_snoc in Hl. injection Hl as ->.
    by apply getOrCreatePart_last_same.
  - split_and!.
    + exists p. rewrite last_snoc. split_and!; [done..|].
      intros ->. rewrite (Hk eq_refl). by eexists.
    + right. exists p. split_and!; [done..|].
      destruct p as [| | |imgs]; try done. simpl. by apply Hi.
    + apply getOrCreatePart_last_same; [done|].
      intros ->. rewrite (Hk eq_refl). by eexists.
Qed.

(** What [getOrCreatePart] followed by an update of the part does to the
    array: the part updated is the last one, old or new. *)
Lemma update_getOrCreatePart ty k f ps :
  ∃ pre p,
    part_type p = ty
    ∧ update_last f (getOrCreatePart ty k ps) = pre ++ [f p]
    ∧ (ps = pre ++ [p]
       ∨ (ps = pre ∧ part_tools p = [] ∧ part_content p = "" ∧ part_images p = []))
    ∧ (ty = TToolGroup → ∃ ts, p = ToolGroup k ts).
Proof.
  destruct (getOrCreatePart_cases ty k ps)
    as [(-> & p & Hl & Hty & Hk)|(p & -> & Hty & Hk & Ht & Hc & Hi)].
  - destruct (last_snoc_inv ps) as [->|(ps' & x & ->)]; [done|].
    rewrite last_snoc in Hl. injection Hl as ->.
    exists ps', p. rewrite update_last_snoc. split_and!; [done|done|by left|done].
  - exists ps, p. rewrite update_last_snoc. split_and!; [done|done| |].
    + right. split_and!; [done..|]. destruct p as [| | |imgs]; try done.
      simpl. by apply Hi.
    + intros ->. rewrite (Hk eq_refl). by eexists.
Qed.

Lemma all_images_app a b : all_images (a ++ b) = all_images a ++ all_images b.
Proof. apply flat_map_app. Qed.

Lemma text_of_app a b : text_of (a ++ b) = text_of a +:+ text_of b.
Proof.
  induction a as [|p a IH]; simpl; [by rewrite append_nil_l|].
  by rewrite IH, append_assoc.
Qed.

(** An update of the last part that keeps its images keeps the images of
    the array, and likewise for the text. *)
Lemma all_images_update ty k f ps :
  (∀ p, part_type p = ty → part_images (f p) = part_images p) →
  all_images (update_last f (getOrCreatePart ty k ps)) = all_images ps.
Proof.
  intros Hf. destruct (update_getOrCreatePart ty k f ps)
    as (pre & p & Hty & -> & [->|(-> & _ & _ & Hi)] & _);
    rewrite !all_images_app; simpl; rewrite (Hf _ Hty); [done|].
  by rewrite Hi, !app_nil_r.
Qed.

Lemma text_of_update ty k f ps :
  (∀ p, part_type p = ty → part_text (f p) = part_text p) → ty ≠ TContent →
  text_of (update_last f (getOrCreatePart ty k ps)) = text_of ps.
Proof.
  intros Hf Hty'. destruct (update_getOrCreatePart ty k f ps)
    as (pre & p & Hty & -> & [->|(-> & _ & _ & _)] & _);
    rewrite !text_of_app; simpl; rewrite (Hf _ Hty); [done|].
  destruct p; simpl in *; by rewrite ?append_nil_r.
Qed.

Lemma text_of_appendContent text ps :
  text_of (appendContent text ps) = text_of ps +:+ text.
Proof.
  unfold appendContent. destruct (Js.truthy text) eqn:E; cbn [negb].
  - destruct (update_getOrCreatePart TContent None
                (λ part, set_content (part_content part +:+ text) part) ps)
      as (pre & p & Hty & -> & [->|(-> & _ & Hc & _)] & _);
      destruct p; try done; rewrite !text_of_app; simpl in *;
      rewrite ?append_nil_r, ?append_assoc; [done|].
    by rewrite Hc, append_nil_l.
  - apply truthy_false in E as ->. by rewrite append_nil_r.
Qed.

Lemma all_images_appendContent text ps :
  all_images (appendContent text ps) = all_images ps.
Proof.
  unfold appendContent. destruct (Js.truthy text); cbn [negb]; [|done].
  apply all_images_update. by intros [] ?.
Qed.

Lemma text_of_appendReasoning text ps :
  text_of (appendReasoning text ps) = text_of ps.
Proof.
  unfold appendReasoning. destruct (_ || _); [done|].
  apply text_of_update; [|done]. intros [] ?; try done; by destruct (_ && _).
Qed.

Lemma all_images_appendReasoning text ps :
  all_images (appendReasoning text ps) = all_images ps.
Proof.
  unfold appendReasoning. destruct (_ || _); [done|].
  apply all_images_update. intros [] ?; try done; by destruct (_ && _).
Qed.

Lemma text_of_addOrUpdateTool k d ps :
  text_of (addOrUpdateTool k d ps) = text_of ps.
Proof.
  apply text_of_update; [|done]. intros [] ?; try done. simpl. by destruct update_first.
Qed.

Lemma all_images_addOrUpdateTool k d ps :
  all_images (addOrUpdateTool k d ps) = all_images ps.
Proof.
  apply all_images_update. intros [] ?; try done. simpl. by destruct update_first.
Qed.

Lemma text_of_addImage u rp ps : text_of (addImage u rp ps) = text_of ps.
Proof.
  unfold addImage. destruct (negb _); [done|].
  apply text_of_update; [|done]. by intros [] ?.
Qed.

Lemma all_images_addImage u rp ps :
  Js.truthy u = true →
  all_images (addImage u rp ps) = all_images ps ++ [mkImage u rp].
Proof.
  intros Hu. unfold addImage. rewrite Hu. cbn [negb].
  destruct (update_getOrCreatePart TImage None (push_image (mkImage u rp)) ps)
    as (pre & p & Hty & -> & [->|(-> & _ & _ & Hi)] & _);
    destruct p; try done; rewrite !all_images_app; simpl in *;
    rewrite ?app_nil_r, <-?app_assoc; [done|].
  by rewrite Hi.
Qed.

Lemma text_of_processImage image ps : text_of (processImage image ps) = text_of ps.
Proof.
  unfold processImage. destruct (Js.or_else _ _) as [u|]; [|done].
  destruct (Js.truthy u); [apply text_of_addImage|done].
Qed.

Lemma all_images_processImage image ps :
  all_images (processImage image ps) = all_images ps ++ option_list (image_of image).
Proof.
  unfold processImage, image_of. destruct (Js.or_else _ _) as [u|]; simpl.
  - destruct (Js.truthy u) eqn:Hu; simpl; [by apply all_images_addImage|].
    by rewrite app_nil_r.
  - by rewrite app_nil_r.
Qed.

Lemma setToolResult_go_forget tid r ps ps' :
  setToolResult_go tid r ps = Some ps' → forget_results <$> ps' = forget_results <$> ps.
Proof.
  revert ps'. induction ps as [|p ps IH]; intros ps' H; [done|].
  assert (∀ q, (λ rest', q :: rest') <$> setToolResult_go tid r ps = Some ps' →
               forget_results <$> ps' = forget_results <$> (q :: ps)) as Hrest.
  { intros q Hq. destruct (setToolResult_go tid r ps) as [rest|]; [|done].
    injection Hq as <-. rewrite !fmap_cons. by rewrite (IH rest). }
  destruct p as [c|c|k ts|imgs]; simpl in H; try by apply Hrest.
  destruct (update_first _ _ ts) as [ts'|] eqn:E; [|by apply Hrest].
  injection H as <-. rewrite !fmap_cons. cbn [forget_results]. do 2 f_equal.
  clear -E. revert ts' E. induction ts as [|t ts IH]; intros ts' E; [done|].
  simpl in E. destruct (Js.strict_eqV (id t) tid).
  - by injection E as <-.
  - destruct (update_first _ _ ts) as [r'|]; [|done]. injection E as <-.
    rewrite !fmap_cons. by rewrite (IH r').
Qed.

Lemma setToolResult_forget tid r ps :
  forget_results <$> fst (setToolResult tid r ps) = forget_results <$> ps.
Proof.
  unfold setToolResult. destruct (setToolResult_go tid r ps) eqn:E; [|done].
  by apply setToolResult_go_forget in E.
Qed.

Lemma text_of_forget ps : text_of (forget_results <$> ps) = text_of ps.
Proof.
  induction ps as [|p ps IH]; [done|]. rewrite fmap_cons. cbn [text_of foldr].
  fold (text_of (forget_results <$> ps)). rewrite IH. by destruct p.
Qed.

Lemma all_images_forget ps : all_images (forget_results <$> ps) = all_images ps.
Proof.
  induction ps as [|p ps IH]; [done|]. rewrite fmap_cons. cbn [all_images flat_map].
  fold (all_images (forget_results <$> ps)). rewrite IH. by destruct p.
Qed.

Lemma text_of_setToolResult tid r ps : text_of (fst (setToolResult tid r ps)) = text_of ps.
Proof. by rewrite <-text_of_forget, setToolResult_forget, text_of_forget. Qed.

Lemma all_images_setToolResult tid r ps :
  all_images (fst (setToolResult tid r ps)) = all_images ps.
Proof. by rewrite <-all_images_forget, setToolResult_forget, all_images_forget. Qed.

Lemma text_of_apply_chunk chunk ps :
  text_of (apply_chunk_parts chunk ps) = add_content (text_of ps) chunk.
Proof.
  unfold apply_chunk_parts, add_content.
  set (ps1 := match c_content chunk with Some c => _ | None => _ end).
  assert (text_of ps1 = match c_content chunk with
                        | Some c => if Js.truthy c then text_of ps +:+ c else text_of ps
                        | None => text_of ps
                        end) as H1.
  { subst ps1. destruct (c_content chunk) as [c|]; [|done].
    destruct (Js.truthy c); [apply text_of_appendContent|done]. }
  rewrite <-H1. clearbody ps1. clear H1.
  set (ps2 := foldl _ ps1 (c_images chunk)).
  assert (text_of ps2 = text_of ps1) as <-.
  { subst ps2. generalize (c_images chunk). intros l. revert ps1.
    induction l as [|i l IH]; intros ps1; [done|]. simpl.
    by rewrite IH, text_of_processImage. }
  clearbody ps2.
  set (ps3 := match c_reasoning chunk with Some r => _ | None => _ end).
  assert (text_of ps3 = text_of ps2) as <-.
  { subst ps3. destruct (c_reasoning chunk) as [r|]; [|done].
    destruct (_ && _); [apply text_of_appendReasoning|done]. }
  clearbody ps3.
  assert (text_of (apply_tool_deltas (c_tool_calls chunk) ps3) = text_of ps3) as <-.
  { unfold apply_tool_deltas. generalize (c_tool_calls chunk). intros l. revert ps3.
    induction l as [|d l IH]; intros ps3; [done|]. simpl.
    by rewrite IH, text_of_addOrUpdateTool. }
  destruct (c_tool_result chunk) as [[tid r]|]; [apply text_of_setToolResult|done].
Qed.

Lemma all_images_apply_chunk chunk ps :
  all_images (apply_chunk_parts chunk ps)
  = all_images ps ++ omap image_of (c_images chunk).
Proof.
  unfold apply_chunk_parts.
  set (ps1 := match c_content chunk with Some c => _ | None => _ end).
  assert (all_images ps1 = all_images ps) as <-.
  { subst ps1. destruct (c_content chunk) as [c|]; [|done].
    destruct (Js.truthy c); [apply all_images_appendContent|done]. }
  clearbody ps1.
  set (ps2 := foldl _ ps1 (c_images chunk)).
  assert (all_images ps2 = all_images ps1 ++ omap image_of (c_images chunk)) as <-.
  { subst ps2. generalize (c_images chunk). intros l. revert ps1.
    induction l as [|i l IH]; intros ps1; [by rewrite app_nil_r|]. simpl.
    rewrite IH, all_images_processImage, <-app_assoc. f_equal.
    by destruct (image_of i). }
  clearbody ps2.
  set (ps3 := match c_reasoning chunk with Some r => _ | None => _ end).
  assert (all_images ps3 = all_images ps2) as <-.
  { subst ps3. destruct (c_reasoning chunk) as [r|]; [|done].
    destruct (_ && _); [apply all_images_appendReasoning|done]. }
  clearbody ps3.
  assert (all_images (apply_tool_deltas (c_tool_calls chunk) ps3) = all_images ps3) as <-.
  { unfold apply_tool_deltas. generalize (c_tool_calls chunk). intros l. revert ps3.
    induction l as [|d l IH]; intros ps3; [done|]. simpl.
    by rewrite IH, all_images_addOrUpdateTool. }
  destruct (c_tool_result chunk) as [[tid r]|]; [apply all_images_setToolResult|done].
Qed.

Lemma image_of_truthy image img :
  image_of image = Some img → Js.truthy (url img) = true.
Proof.
  unfold image_of. destruct (Js.or_else _ _) as [u|]; [|done].
  destruct (Js.truthy u) eqn:Hu; [|done]. by intros [= <-].
Qed.

Lemma parts_after_S chunks n c :
  chunks !! n = Some c →
  parts_after chunks (S n) = apply_chunk_parts c (parts_after chunks n).
Proof.
  intros H. unfold parts_after. rewrite (take_S_r _ _ _ H). by rewrite foldl_snoc.
Qed.

Lemma parts_after_all chunks n :
  (length chunks ≤ n)%nat → parts_after chunks n = parts_after chunks (length chunks).
Proof. intros H. unfold parts_after. by rewrite !take_ge by lia. Qed.

(** A fact about the builder after every prefix of the chunks follows from
    the fact for the empty builder and its preservation by one chunk. *)
Lemma parts_after_ind (P : list Chunk → Parts → Prop) :
  P [] [] →
  (∀ cs c ps, P cs ps → P (cs ++ [c]) (apply_chunk_parts c ps)) →
  ∀ chunks n, P (take n chunks) (parts_after chunks n).
Proof.
  intros H0 HS chunks n. unfold parts_after.
  induction (take n chunks) as [|c cs IH] using rev_ind; [done|].
  rewrite foldl_snoc. by apply HS.
Qed.

(** X2: the images of the parts are the images of the chunks in arrival
    order, whatever lies between them: for each image object its
    [image_url.url] or else its [url], with the revised prompt or null; an
    image object without a usable URL adds nothing, so no stored image has
    an empty URL. *)
Theorem images_in_arrival_order (chunks : list Chunk) (n : nat) :
  all_images (parts_after chunks n)
  = omap image_of (mjoin (c_images <$> take n chunks))
  ∧ Forall (λ img, Js.truthy (url img) = true) (all_images (parts_after chunks n))
  ∧ (∀ image ps,
       all_images (processImage image ps)
       = all_images ps ++ option_list (image_of image)).
Proof.
  assert (all_images (parts_after chunks n)
          = omap image_of (mjoin (c_images <$> take n chunks))) as H.
  { apply (parts_after_ind
             (λ cs ps, all_images ps = omap image_of (mjoin (c_images <$> cs))));
      [done|].
    intros cs c ps IH. rewrite all_images_apply_chunk, IH.
    rewrite fmap_app, join_app, omap_app. simpl. by rewrite app_nil_r. }
  split_and!; [done| |apply all_images_processImage].
  rewrite H. apply Forall_forall. intros img Hin.
  apply list_elem_of_omap in Hin as (image & _ & Himg).
  by apply image_of_truthy in Himg.
Qed.

Lemma hasContentPart_text ps : hasContentPart ps = false → text_of ps = "".
Proof.
  induction ps as [|p ps IH]; [done|]. simpl. destruct p; simpl; try done;
    intros H; by rewrite (IH H).
Qed.

Lemma flat_content_app cs c : flat_content (cs ++ [c]) = add_content (flat_content cs) c.
Proof. unfold flat_content. by rewrite foldl_snoc. Qed.

Lemma text_of_parts_after chunks n :
  text_of (parts_after chunks n) = flat_content (take n chunks).
Proof.
  apply (parts_after_ind (λ cs ps, text_of ps = flat_content cs)); [done|].
  intros cs c ps IH. by rewrite text_of_apply_chunk, IH, flat_content_app.
Qed.

(** X3: the texts of the content parts, one after the other, spell the
    concatenation of the content fragments of the chunks, which is what
    [sendMessage] keeps in the flat [content] field; so a builder without
    a content part goes with an empty flat content, and
    [ensureContentPartFirst], called with the flat content, changes
    nothing. *)
Theorem content_parts_spell_flat_content (chunks : list Chunk) (n : nat) :
  text_of (parts_after chunks n) = flat_content (take n chunks)
  ∧ (hasContentPart (parts_after chunks n) = false → flat_content (take n chunks) = "")
  ∧ ensureContentPartFirst (flat_content (take n chunks)) (parts_after chunks n)
    = parts_after chunks n.
Proof.
  pose proof (text_of_parts_after chunks n) as H.
  split_and!; [done| |].
  - intros Hc. rewrite <-H. by apply hasContentPart_text.
  - unfold ensureContentPartFirst.
    destruct (hasContentPart (parts_after chunks n)) eqn:Hc.
    + by rewrite andb_false_r.
    + rewrite <-H, (hasContentPart_text _ Hc). by rewrite andb_false_r.
Qed.

Lemma setToolResult_go_found v r ps :
  is_Some (setToolResult_go v r ps)
  ↔ existsb (λ p, existsb (λ t, Js.strict_eqV (id t) v) (part_tools p)) ps = true.
Proof.
  induction ps as [|p ps IH]; simpl; [split; [by intros [? ?]|done]|].
  assert (is_Some ((λ rest', p :: rest') <$> setToolResult_go v r ps)
          ↔ existsb (λ p, existsb (λ t, Js.strict_eqV (id t) v) (part_tools p)) ps
            = true) as Hrest.
  { rewrite <-IH. by rewrite fmap_is_Some. }
  destruct p as [c|c|k ts|imgs]; try done.
  simpl. destruct (existsb (λ t, Js.strict_eqV (id t) v) ts) eqn:E.
  - destruct (update_first_found _ (set_result r) ts E) as [ts' Hts].
    rewrite Hts. by split.
  - pose proof (update_first_not_found _ (set_result r) ts E) as Hts.
    rewrite Hts. by rewrite Hrest.
Qed.

Lemma setToolResult_found v r ps :
  snd (setToolResult v r ps)
  = existsb (λ p, existsb (λ t, Js.strict_eqV (id t) v) (part_tools p)) ps.
Proof.
  pose proof (setToolResult_go_found v r ps) as H.
  unfold setToolResult. destruct (setToolResult_go v r ps) eqn:E; simpl.
  - symmetry. by apply H.
  - destruct (existsb _ ps); [|done]. by destruct (proj2 H eq_refl).
Qed.

(** X4: [setToolResult] returns true exactly when a tool of some tool
    group has the id; it changes nothing in the parts but results of
    tools; and for an id that no tool has it changes nothing at all.  An
    id that is undefined is never found, and null finds the tools whose id
    is null. *)
Theorem setToolResult_only_sets_results (tid r : string) (ps : Parts) :
  snd (setToolResult (Js.Str tid) r ps) = existsb (group_has_id tid) ps
  ∧ forget_results <$> fst (setToolResult (Js.Str tid) r ps) = forget_results <$> ps
  ∧ (existsb (group_has_id tid) ps = false →
     setToolResult (Js.Str tid) r ps = (ps, false))
  ∧ setToolResult Js.Undefined r ps = (ps, false)
  ∧ snd (setToolResult Js.Null r ps) = existsb has_null_id ps
  ∧ forget_results <$> fst (setToolResult Js.Null r ps) = forget_results <$> ps.
Proof.
  pose proof (setToolResult_go_found (Js.Str tid) r ps) as H.
  split_and!; [apply setToolResult_found|apply setToolResult_forget| |
               |rewrite setToolResult_found|apply setToolResult_forget].
  - intros Hn. unfold setToolResult.
    destruct (setToolResult_go (Js.Str tid) r ps) eqn:E; [|done].
    unfold group_has_id, has_id in Hn.
    rewrite (proj1 H) in Hn; [done|by eexists].
  - unfold setToolResult.
    destruct (setToolResult_go Js.Undefined r ps) eqn:E; [|done].
    assert (existsb (λ p, existsb (λ t, Js.strict_eqV (id t) Js.Undefined)
                            (part_tools p)) ps = true) as Hf.
    { apply (setToolResult_go_found Js.Undefined r ps). by eexists. }
    apply existsb_exists in Hf as (p & _ & Hp).
    apply existsb_exists in Hp as (t & _ & Ht). by destruct (id t).
  - unfold has_null_id. f_equal.
Qed.

Lemma update_first_twice test f g l l' :
  (∀ t, test (f t) = test t) →
  update_first test f l = Some l' →
  update_first test g l' = update_first test (λ t, g (f t)) l.
Proof.
  intros Hf. revert l'. induction l as [|t l IH]; intros l' H; [done|].
  simpl in H. destruct (test t) eqn:Et.
  - injection H as <-. simpl. by rewrite Hf, Et.
  - destruct (update_first test f l) as [r|]; [|done]. injection H as <-.
    simpl. by rewrite Et, (IH r).
Qed.

Lemma update_first_ext test f g l :
  (∀ t, f t = g t) → update_first test f l = update_first test g l.
Proof.
  intros H. induction l as [|t l IH]; [done|]. simpl. by rewrite H, IH.
Qed.

Lemma update_first_None_indep test f g l :
  update_first test f l = None → update_first test g l = None.
Proof.
  induction l as [|t l IH]; [done|]. simpl. destruct (test t); [done|].
  destruct (update_first test f l); [done|]. intros _. by rewrite IH.
Qed.

Lemma setToolResult_go_twice tid r1 r2 ps ps1 :
  setToolResult_go tid r1 ps = Some ps1 →
  setToolResult_go tid r2 ps1 = setToolResult_go tid r2 ps.
Proof.
  revert ps1. induction ps as [|p ps IH]; intros ps1 H; [done|].
  assert (∀ q, (∀ rest, setToolResult_go tid r2 (q :: rest)
                        = (λ rest', q :: rest') <$> setToolResult_go tid r2 rest) →
               (λ rest', q :: rest') <$> setToolResult_go tid r1 ps = Some ps1 →
               setToolResult_go tid r2 ps1 = setToolResult_go tid r2 (q :: ps)) as Hrest.
  { intros q Hq H1. destruct (setToolResult_go tid r1 ps) as [rest|]; [|done].
    injection H1 as <-. by rewrite !Hq, (IH rest). }
  destruct p as [c|c|k ts|imgs]; simpl in H; try (by apply Hrest).
  destruct (update_first _ (set_result r1) ts) as [ts'|] eqn:E.
  - injection H as <-. simpl.
    rewrite (update_first_twice (λ t, Js.strict_eqV (id t) tid) (set_result r1)
               (set_result r2) _ _ (λ t, eq_refl) E).
    rewrite (update_first_ext _ (λ t, set_result r2 (set_result r1 t))
               (set_result r2) ts (λ t, eq_refl)).
    destruct (update_first _ (set_result r2) ts) eqn:E2; [done|].
    by rewrite (update_first_None_indep _ _ (set_result r1) _ E2) in E.
  - apply Hrest; [|done]. intros rest. simpl.
    by rewrite (update_first_None_indep _ _ (set_result r2) _ E).
Qed.

Lemma setToolResult_go_None_indep tid r1 r2 ps :
  setToolResult_go tid r1 ps = None → setToolResult_go tid r2 ps = None.
Proof.
  induction ps as [|p ps IH]; [done|].
  destruct p as [c|c|k ts|imgs]; simpl;
    try (destruct (setToolResult_go tid r1 ps); [done|]; intros _; by rewrite IH).
  destruct (update_first _ (set_result r1) ts) eqn:E; [done|].
  rewrite (update_first_None_indep _ _ (set_result r2) _ E).
  destruct (setToolResult_go tid r1 ps); [done|]. intros _. by rewrite IH.
Qed.

(** X5: a second result for the same id finds the same tool again and
    overwrites the first result: setting a result and then another leaves
    what setting the second alone leaves, and returns the same boolean. *)
Theorem later_result_overwrites (tid : Js.value) (r1 r2 : string) (ps : Parts) :
  setToolResult tid r2 (fst (setToolResult tid r1 ps)) = setToolResult tid r2 ps.
Proof.
  unfold setToolResult at 2.
  destruct (setToolResult_go tid r1 ps) as [ps1|] eqn:E; [|done]. simpl.
  unfold setToolResult. rewrite (setToolResult_go_twice _ _ r2 _ _ E).
  destruct (setToolResult_go tid r2 ps) as [ps2|] eqn:E2; [done|].
  by rewrite (setToolResult_go_None_indep _ _ r1 _ E2) in E.
Qed.

(** ** The timing tracker *)

Section Tracker.
Import Timing.

Lemma run_cons c calls t : run (c :: calls) t = run calls (call t c).
Proof. done. Qed.

(** What a run of calls leaves, from any tracker. *)
Lemma run_times calls : ∀ t,
  firstTokenTime (message (run calls t))
  = (if firstTokenReceived t then firstTokenTime (message t)
     else match head (times_of MarkFirstToken calls) with
          | Some x => Some x
          | None => firstTokenTime (message t)
          end)
  ∧ reasoningStartTime (message (run calls t))
    = match reasoningStartTime (message t) with
      | Some s => Some s
      | None => head (times_of StartReasoning calls)
      end
  ∧ reasoningEndTime (message (run calls t))
    = match reasoningEndTime (message t), reasoningStartTime (message t) with
      | Some e, _ => Some e
      | None, Some _ => head (times_of EndReasoning calls)
      | None, None => head (times_of EndReasoning (after_start calls))
      end.
Proof.
  induction calls as [|[x c] calls IH]; intros t.
  - simpl. by destruct (firstTokenReceived t), (reasoningStartTime (message t)),
      (reasoningEndTime (message t)).
  - rewrite run_cons. destruct (IH (call t (x, c))) as (H1 & H2 & H3).
    rewrite H1, H2, H3. clear.
    destruct t as [[f s e] rcv], c; unfold call, markFirstToken, startReasoning,
      endReasoning; simpl; destruct rcv, s, e; simpl; try done.
Qed.

(** X6: of the calls made on the tracker of a new message, the first
    [markFirstToken] gives the first-token time, the first
    [startReasoning] the start of the reasoning, and the first
    [endReasoning] after that start its end; later calls change nothing,
    and an [endReasoning] before any start is ignored.  The duration is
    null exactly when reasoning never started. *)
Theorem tracker_first_call_wins (calls : list (Z * TrackerCall)) (now : Z) :
  let t := run calls fresh_tracker in
  firstTokenTime (message t) = head (times_of MarkFirstToken calls)
  ∧ reasoningStartTime (message t) = head (times_of StartReasoning calls)
  ∧ reasoningEndTime (message t) = head (times_of EndReasoning (after_start calls))
  ∧ (calculateReasoningDuration now t = None ↔ times_of StartReasoning calls = []).
Proof.
  intros t. destruct (run_times calls fresh_tracker) as (H1 & H2 & H3).
  simpl in H1, H2, H3. subst t. split_and!; [|done|done|].
  - rewrite H1. by destruct (head _).
  - unfold calculateReasoningDuration. rewrite H2.
    destruct (times_of StartReasoning calls); simpl; by split.
Qed.

Lemma ordered_mono hi hi' t : (hi ≤ hi')%Z → ordered hi t → ordered hi' t.
Proof.
  intros Hle (H1 & H2 & H3). split_and!.
  - intros e He. destruct (H1 e He) as (s & ? & ? & ?). exists s. split_and!; [done..|lia].
  - intros s Hs. specialize (H2 s Hs). lia.
  - intros f Hf. specialize (H3 f Hf). lia.
Qed.

Lemma ordered_call hi x c t : (hi ≤ x)%Z → ordered hi t → ordered x (call t (x, c)).
Proof.
  intros Hle Ho. pose proof (ordered_mono hi x t Hle Ho) as (H1 & H2 & H3).
  destruct t as [[f s e] rcv], c; unfold call, markFirstToken, startReasoning,
    endReasoning; simpl in *.
  - destruct rcv; simpl; [done|]. split_and!; simpl; [done..|]. intros ? [= <-]. lia.
  - destruct s as [s|]; simpl; [done|]. split_and!; simpl.
    + intros e' He. by destruct (H1 e' He) as (? & ? & _).
    + intros ? [= <-]. lia.
    + done.
  - destruct s as [s|], e as [e|]; simpl; try done. split_and!; simpl; [|done..].
    intros ? [= <-]. exists s. split_and!; [done| |lia]. by apply H2.
Qed.

Lemma ordered_run calls : ∀ hi now t,
  ordered hi t → Forall (Z.le hi) (fst <$> calls) → (hi ≤ now)%Z →
  clock_ok (fst <$> calls) now → ordered now (run calls t).
Proof.
  induction calls as [|[x c] calls IH]; intros hi now t Ho Hhi Hnow Hc.
  - by apply (ordered_mono hi).
  - rewrite run_cons. rewrite fmap_cons in Hhi, Hc. simpl in Hc.
    destruct Hc as (Hx & Hxn & Hc). apply Forall_cons in Hhi as [Hhx _].
    apply (IH x); [by apply (ordered_call hi)|done..].
Qed.

(** X7: when the clock does not run backwards, the time stamps the
    tracker leaves on a new message are in order: an end of the reasoning
    comes with a start that is not after it, no stamp is after the present,
    and the duration of the reasoning, where there is one, is not
    negative. *)
Theorem reasoning_times_in_order (calls : list (Z * TrackerCall)) (now : Z) :
  clock_ok (fst <$> calls) now →
  let t := run calls fresh_tracker in
  (∀ e, reasoningEndTime (message t) = Some e →
        ∃ s, reasoningStartTime (message t) = Some s ∧ (s ≤ e ≤ now)%Z)
  ∧ (∀ f, firstTokenTime (message t) = Some f → (f ≤ now)%Z)
  ∧ (∀ d, calculateReasoningDuration now t = Some d → (0 ≤ d)%Z).
Proof.
  intros Hc t.
  assert (ordered now t) as (H1 & H2 & H3).
  { subst t. destruct calls as [|[x c] calls]; [done|].
    rewrite fmap_cons in Hc. simpl in Hc. destruct Hc as (Hx & Hxn & Hc).
    apply (ordered_run _ x); [|by constructor|done|by rewrite fmap_cons].
    done. }
  split_and!; [|done|].
  - intros e He. destruct (H1 e He) as (s & ? & ? & ?). by exists s.
  - intros d. unfold calculateReasoningDuration.
    destruct (reasoningStartTime (message t)) as [s|] eqn:Hs; [|done].
    intros [= <-]. destruct (reasoningEndTime (message t)) as [e|] eqn:He; simpl.
    + destruct (H1 e eq_refl) as (s' & Hs' & ? & ?). simplify_eq. lia.
    + specialize (H2 s eq_refl). lia.
Qed.

End Tracker.

Lemma reasoning_times_in_order_witness :
  let t := Timing.run [(10, Timing.MarkFirstToken); (10, Timing.StartReasoning);
                       (25, Timing.MarkFirstToken); (25, Timing.EndReasoning)]%Z
             fresh_tracker in
  (∀ e, Timing.reasoningEndTime (Timing.message t) = Some e →
        ∃ s, Timing.reasoningStartTime (Timing.message t) = Some s ∧ (s ≤ e ≤ 30)%Z)
  ∧ (∀ f, Timing.firstTokenTime (Timing.message t) = Some f → (f ≤ 30)%Z)
  ∧ (∀ d, Timing.calculateReasoningDuration 30 t = Some d → (0 ≤ d)%Z).
Proof.
  apply (reasoning_times_in_order
           [(10, Timing.MarkFirstToken); (10, Timing.StartReasoning);
            (25, Timing.MarkFirstToken); (25, Timing.EndReasoning)]%Z 30%Z).
  simpl. repeat split; try lia; repeat constructor; lia.
Defined.

Section TrackedChunks.
Import Timing.

Lemma times_of_app c l1 l2 : times_of c (l1 ++ l2) = times_of c l1 ++ times_of c l2.
Proof. apply omap_app. Qed.

Lemma chunk_calls_cons now chunk rest :
  chunk_calls ((now, chunk) :: rest)
  = (if has_content chunk
     then [(content_mark now, MarkFirstToken); (content_end now, EndReasoning)]
     else [])
    ++ (if has_reasoning chunk
        then [(reasoning_mark now, MarkFirstToken);
              (reasoning_start now, StartReasoning)]
        else [])
    ++ chunk_calls rest.
Proof.
  unfold chunk_calls. cbn [flat_map]. rewrite app_assoc. f_equal.
  unfold calls_of, has_content, has_reasoning. cbn [fst snd].
  by destruct (c_content chunk), (c_reasoning chunk).
Qed.

Lemma head_mark chunks :
  head (times_of MarkFirstToken (chunk_calls chunks))
  = head (omap first_token_at chunks).
Proof.
  induction chunks as [|[x chunk] rest IH]; [done|].
  rewrite chunk_calls_cons. unfold first_token_at at 1. simpl.
  by destruct (has_content chunk), (has_reasoning chunk).
Qed.

Lemma head_start chunks :
  head (times_of StartReasoning (chunk_calls chunks))
  = head (omap reasoning_start_at chunks).
Proof.
  induction chunks as [|[x chunk] rest IH]; [done|].
  rewrite chunk_calls_cons. unfold reasoning_start_at at 1. simpl.
  by destruct (has_content chunk), (has_reasoning chunk).
Qed.

Lemma head_end chunks :
  head (times_of EndReasoning (chunk_calls chunks))
  = head (omap reasoning_end_at chunks).
Proof.
  induction chunks as [|[x chunk] rest IH]; [done|].
  rewrite chunk_calls_cons. unfold reasoning_end_at at 1. simpl.
  by destruct (has_content chunk), (has_reasoning chunk).
Qed.

Lemma after_start_chunks chunks :
  after_start (chunk_calls chunks) = chunk_calls (after_reasoning chunks).
Proof.
  induction chunks as [|[x chunk] rest IH]; [done|].
  rewrite chunk_calls_cons. simpl.
  by destruct (has_content chunk), (has_reasoning chunk).
Qed.

(** X8: over a stream of chunks, [sendMessage] stamps the first token at
    the first chunk that carries content or reasoning, the start of the
    reasoning at the first chunk that carries reasoning, and its end at
    the first chunk with content that comes after that one; content that
    arrives before any reasoning, or in the chunk that starts it, ends
    nothing. *)
Theorem chunks_stamp_the_message (chunks : list (Readings * Chunk)) :
  let t := run (chunk_calls chunks) fresh_tracker in
  firstTokenTime (message t) = head (omap first_token_at chunks)
  ∧ reasoningStartTime (message t) = head (omap reasoning_start_at chunks)
  ∧ reasoningEndTime (message t)
    = head (omap reasoning_end_at (after_reasoning chunks)).
Proof.
  intros t. destruct (run_times (chunk_calls chunks) fresh_tracker) as (H1 & H2 & H3).
  simpl in H1, H2, H3. subst t. rewrite H1, H2, H3.
  rewrite head_mark, head_start, after_start_chunks, head_end. clear.
  split_and!; [|done..]. by destruct (head _).
Qed.

End TrackedChunks.

(** ** The model catalogue *)

Section CatalogueFacts.
Import Catalogue.

(** Induction on an entry with the entries under it. *)
Lemma Item_ind' (P : Item → Prop) :
  (∀ i c n t, P (mkItem i c n t None)) →
  (∀ i c n t ms, Forall P ms → P (mkItem i c n t (Some ms))) →
  ∀ item, P item.
Proof.
  intros H0 H1. fix IH 1. intros [i c n t [ms|]]; [|apply H0].
  apply H1. induction ms as [|x ms IHms]; constructor; [apply IH|apply IHms].
Qed.

Lemma head_app {A} (a b : list A) :
  head (a ++ b) = match head a with Some x => Some x | None => head b end.
Proof. by destruct a. Qed.

Lemma first_found_flat {A B} (body : A → option B) (test : B → bool)
    (g : A → list B) (l : list A) :
  Forall (λ x, body x = head (List.filter test (g x))) l →
  first_found body l = head (List.filter test (flat_map g l)).
Proof.
  induction 1 as [|x l Hx _ IH]; [done|].
  simpl. rewrite List.filter_app, head_app, <-Hx, <-IH. done.
Qed.

Lemma find_in_item_first wanted item :
  find_in_item wanted item
  = head (List.filter (λ i, strict_eq (id i) wanted) (items_of item)).
Proof.
  induction item as [i c n t|i c n t ms IH] using Item_ind'; simpl.
  - by destruct (strict_eq i wanted).
  - destruct (strict_eq i wanted); [done|].
    by apply first_found_flat.
Qed.

(** X9: [findModelById] searches the list depth first: it returns the
    first entry in document order, categories and the models under them
    alike, whose id is strictly equal to the id asked for; so what it
    returns has that id and is an entry of the list, and it returns null
    exactly when no entry, at any depth, has the id, or when the argument
    is no array. *)
Theorem findModelById_first_in_document_order
    (modelsList : list Item) (wanted : option string) :
  findModelById (Some modelsList) wanted
  = head (List.filter (λ i, strict_eq (id i) wanted) (flat_map items_of modelsList))
  ∧ (∀ found, findModelById (Some modelsList) wanted = Some found →
       strict_eq (id found) wanted = true ∧ found ∈ flat_map items_of modelsList)
  ∧ (findModelById (Some modelsList) wanted = None
     ↔ ∀ item, item ∈ flat_map items_of modelsList → strict_eq (id item) wanted = false)
  ∧ findModelById None wanted = None.
Proof.
  assert (findModelById (Some modelsList) wanted
          = head (List.filter (λ i, strict_eq (id i) wanted)
                    (flat_map items_of modelsList))) as H.
  { apply first_found_flat, Forall_forall. intros item _. apply find_in_item_first. }
  rewrite H. split_and!; [done| | |done].
  - intros found Hf. apply head_Some_elem_of in Hf.
    apply list_elem_of_In, List.filter_In in Hf as [Hin Ht].
    by apply list_elem_of_In in Hin.
  - generalize (flat_map items_of modelsList). intros l. split.
    + intros Hn item Hin. destruct (strict_eq (id item) wanted) eqn:E; [|done].
      assert (item ∈ List.filter (λ i, strict_eq (id i) wanted) l) as Hm.
      { apply list_elem_of_In, List.filter_In. by rewrite <-list_elem_of_In. }
      destruct (List.filter _ l); [by apply elem_of_nil in Hm|done].
    + intros Hn. destruct (List.filter _ l) as [|x r] eqn:E; [done|].
      assert (x ∈ List.filter (λ i, strict_eq (id i) wanted) l) as Hm
        by (rewrite E; left).
      apply list_elem_of_In, List.filter_In in Hm as [Hin Ht].
      apply list_elem_of_In in Hin. by rewrite (Hn x Hin) in Ht.
Qed.

Example default_model_is_found :
  findModelById (Some defaultModels) (Some DEFAULT_MODEL_ID)
  = Some (model "gemini-3-pro-preview" "Gemini 3 Pro Preview")
  ∧ findModelById (Some defaultModels) (Some "gpt-x") = None.
Proof. split; reflexivity. Qed.

End CatalogueFacts.

(** ** The wire format of a message *)

Lemma part_items_kinds p i :
  i ∈ part_items p →
  (∃ t, i = TextItem t)
  ∨ (∃ img, i = ImageUrlItem (url img) ∧ img ∈ part_images p ∧ Js.truthy (url img) = true).
Proof.
  destruct p as [c|c|k ts|imgs]; simpl.
  - destruct (_ && _); [|by intros ?%elem_of_nil].
    intros ->%list_elem_of_singleton. left. by eexists.
  - destruct (_ && _); [|by intros ?%elem_of_nil].
    intros ->%list_elem_of_singleton. left. by eexists.
  - destruct ts; [by intros ?%elem_of_nil|].
    intros ->%list_elem_of_singleton. left. by eexists.
  - intros Hin. apply list_elem_of_In, in_flat_map in Hin as (img & Himg & Hi).
    apply list_elem_of_In in Himg. destruct (Js.truthy (url img)) eqn:E; [|done].
    destruct Hi as [<-|[]]. right. by exists img.
Qed.

Lemma existsb_non_text items :
  existsb (λ p, negb (is_text_item p)) items = true
  ↔ ∃ i, i ∈ items ∧ is_text_item i = false.
Proof.
  rewrite existsb_exists. split; intros (i & Hi & Ht); exists i.
  - apply list_elem_of_In in Hi. by apply negb_true_iff in Ht.
  - apply list_elem_of_In in Hi. split; [done|]. by apply negb_true_iff.
Qed.

Lemma has_image_url_items ps :
  existsb (λ p, negb (is_text_item p)) (flat_map part_items ps) = has_image_url ps.
Proof.
  apply eq_true_iff_eq. rewrite existsb_non_text. unfold has_image_url.
  rewrite existsb_exists. split.
  - intros (i & Hi & Ht). apply list_elem_of_In, in_flat_map in Hi as (p & Hp & Hi).
    apply list_elem_of_In, part_items_kinds in Hi as [[t ->]|(img & -> & Himg & Hu)];
      [done|].
    exists img. split; [|done]. apply in_flat_map. exists p.
    split; [done|by apply list_elem_of_In].
  - intros (img & Himg & Hu). apply in_flat_map in Himg as (p & Hp & Himg).
    exists (ImageUrlItem (url img)). split; [|done].
    apply list_elem_of_In, in_flat_map. exists p. split; [done|].
    destruct p as [| | |imgs]; try done. simpl in *.
    apply in_flat_map. exists img. split; [done|]. rewrite Hu. by left.
Qed.

(** X10: [formatMessageForAPI] keeps the role and the annotations of the
    message; only user and assistant messages get their content as an
    array, and such an array is never empty: for a user message it starts
    with the text, followed by the image and PDF attachments, and there is
    an attachment; messages of other roles never carry tool calls. *)
Theorem formatMessageForAPI_content_shape (msg : Message) :
  api_role (formatMessageForAPI msg) = role msg
  ∧ api_annotations (formatMessageForAPI msg) = annotations msg
  ∧ (∀ items, api_content (formatMessageForAPI msg) = ContentArray items →
       items ≠ [] ∧ (role msg = "user" ∨ role msg = "assistant"))
  ∧ (∀ items, role msg = "user" →
       api_content (formatMessageForAPI msg) = ContentArray items →
       attachments msg ≠ []
       ∧ items = TextItem (content msg) :: attachment_items (attachments msg))
  ∧ (role msg ≠ "assistant" → api_tool_calls (formatMessageForAPI msg) = None).
Proof.
  unfold formatMessageForAPI.
  destruct (String.eqb (role msg) "user") eqn:Eu.
  - apply String.eqb_eq in Eu.
    destruct (attachments msg) as [|a atts] eqn:Ea; simpl;
      (split_and!; [done|done| | |done]).
    + by intros ? [=].
    + by intros ? _ [=].
    + intros items [= <-]. split; [done|by left].
    + by intros items _ [= <-].
  - apply String.eqb_neq in Eu.
    destruct (String.eqb (role msg) "assistant") eqn:Ea; cbn -[flat_map existsb join].
    + apply String.eqb_eq in Ea. split_and!; [done|done| |done|done].
      intros items Hitems. split; [|by right].
      destruct (parts msg) as [|p ps]; [by destruct (_ && _)|].
      destruct (flat_map part_items (p :: ps)) as [|i l]; [done|].
      destruct (existsb _ (i :: l)); [|done]. by injection Hitems as <-.
    + split_and!; [done|done| |done|done]. by intros ? [=].
Qed.

Lemma format_tool_calls_Some tcs l :
  format_tool_calls tcs = Some l →
  l = (λ tc, mkApiToolCall (id tc)
               (if Js.truthy (type tc) then type tc else "function")
               (fn_name tc)
               (if Js.truthy (fn_arguments tc) then fn_arguments tc else "{}"))
      <$> tcs.
Proof. destruct tcs; [done|]. by intros [= <-]. Qed.

Lemma format_tool_calls_spec tcs :
  (format_tool_calls tcs = None ↔ tcs = [])
  ∧ ∀ l, format_tool_calls tcs = Some l →
      tc_id <$> l = id <$> tcs ∧ tc_name <$> l = fn_name <$> tcs
      ∧ Forall (λ tc, Js.truthy (tc_type tc) = true ∧ Js.truthy (tc_arguments tc) = true) l.
Proof.
  split; [by destruct tcs|]. intros l ->%format_tool_calls_Some.
  split_and!.
  - induction tcs as [|x tcs IH]; [done|]. rewrite !fmap_cons. by f_equal.
  - induction tcs as [|x tcs IH]; [done|]. rewrite !fmap_cons. by f_equal.
  - apply Forall_fmap, Forall_forall. intros tc _. simpl.
    split; [by destruct (Js.truthy (type tc)) eqn:E|
            by destruct (Js.truthy (fn_arguments tc)) eqn:E].
Qed.

(** X11: an assistant message is sent with its content as an array
    exactly when one of its parts holds an image with a URL, and as one
    string otherwise; it carries tool calls exactly when the message has
    some, one for each in order with the same id and name, and no tool call
    is sent with an empty type or with empty arguments. *)
Theorem assistant_message_format (msg : Message) :
  role msg = "assistant" →
  ((∃ items, api_content (formatMessageForAPI msg) = ContentArray items)
   ↔ has_image_url (parts msg) = true)
  ∧ (∀ items, api_content (formatMessageForAPI msg) = ContentArray items →
       items = flat_map part_items (parts msg))
  ∧ (api_tool_calls (formatMessageForAPI msg) = None ↔ tool_calls msg = [])
  ∧ (∀ l, api_tool_calls (formatMessageForAPI msg) = Some l →
       tc_id <$> l = id <$> tool_calls msg
       ∧ tc_name <$> l = fn_name <$> tool_calls msg
       ∧ Forall (λ tc, Js.truthy (tc_type tc) = true
                       ∧ Js.truthy (tc_arguments tc) = true) l).
Proof.
  intros Hr. unfold formatMessageForAPI. rewrite Hr. cbn -[flat_map existsb join].
  destruct (format_tool_calls_spec (tool_calls msg)) as [Hn Hs].
  split_and!; [| |done|done].
  - destruct (parts msg) as [|p ps] eqn:Ep.
    { split; [|done]. intros [items H]. by destruct (_ && _). }
    rewrite <-has_image_url_items.
    destruct (flat_map part_items (p :: ps)) as [|i l]; [by split; [intros [? ?]|]|].
    destruct (existsb _ (i :: l)); split; try done; [by eexists|by intros [? ?]].
  - intros items. destruct (parts msg) as [|p ps] eqn:Ep; [by destruct (_ && _)|].
    destruct (flat_map part_items (p :: ps)) as [|i l]; [done|].
    destruct (existsb _ (i :: l)); [by intros [= <-]|done].
Qed.

Lemma assistant_message_format_witness :
  let msg := mkMessage "m1" "assistant" "see" [] ""
               [ContentPart "see"; ImagePart [mkImage "data:image/png;base64,AAAA" None]]
               [mkTool 0 (Some "call_1") "" "search" "" None]
               None true 0 0 0 false None in
  api_content (formatMessageForAPI msg)
    = ContentArray [TextItem "see"; ImageUrlItem "data:image/png;base64,AAAA"]
  ∧ api_tool_calls (formatMessageForAPI msg)
    = Some [mkApiToolCall (Some "call_1") "function" "search" "{}"].
Proof.
  intros msg.
  destruct (assistant_message_format msg eq_refl) as (H1 & H2 & H3 & H4).
  split; [|reflexivity].
  destruct (proj2 H1 eq_refl) as [items Hitems].
  by rewrite Hitems, (H2 items Hitems).
Defined.

Lemma until_comma_app header rest :
  has_char ","%char header = false →
  until_comma (header +:+ "," +:+ rest) = (header, Some rest).
Proof.
  change ("," +:+ rest) with (String ","%char rest).
  induction header as [|c h IH]; [done|]. cbn [has_char].
  intros [Hc Hh]%orb_false_iff.
  rewrite append_cons. cbn [until_comma]. rewrite Hc. by rewrite (IH Hh).
Qed.

Lemma until_comma_none s :
  has_char ","%char s = false → until_comma s = (s, None).
Proof.
  induction s as [|c s IH]; [done|]. simpl. intros [Hc Hs]%orb_false_iff.
  by rewrite Hc, (IH Hs).
Qed.

(** X12: of the attachments of a message, an image goes out with its
    whole data URL and a PDF with the base64 text that follows the comma
    of its data URL, without the prefix; an attachment of another type is
    left out; and a PDF whose data URL has no comma goes out without file
    data. *)
Theorem attachment_items_by_type (a : Attachment) (header data : string) :
  dataUrl a = header +:+ "," +:+ data →
  has_char ","%char header = false → has_char ","%char data = false →
  attachment_items [a]
  = (if String.eqb (att_type a) "image" then [ImageUrlItem (dataUrl a)]
     else if String.eqb (att_type a) "pdf" then [FileItem (filename a) (Some data)]
     else [])
  ∧ (∀ b, att_type b = "pdf" → has_char ","%char (dataUrl b) = false →
          attachment_items [b] = [FileItem (filename b) None]).
Proof.
  intros Hurl Hh Hd. split.
  - unfold attachment_items. simpl. rewrite app_nil_r.
    destruct (String.eqb (att_type a) "image"); [done|].
    destruct (String.eqb (att_type a) "pdf"); [|done].
    unfold split_comma_1. rewrite Hurl, (until_comma_app _ _ Hh).
    by rewrite (until_comma_none _ Hd).
  - intros b Hb Hn. unfold attachment_items. simpl. rewrite Hb. simpl.
    unfold split_comma_1. by rewrite (until_comma_none _ Hn).
Qed.

Lemma attachment_items_by_type_witness :
  attachment_items
    [mkAttachment "a1" "pdf" "paper.pdf" "data:application/pdf;base64,JVBERi0x"
       "application/pdf"]
  = [FileItem "paper.pdf" (Some "JVBERi0x")].
Proof.
  apply (proj1 (attachment_items_by_type
                  (mkAttachment "a1" "pdf" "paper.pdf"
                     "data:application/pdf;base64,JVBERi0x" "application/pdf")
                  "data:application/pdf;base64" "JVBERi0x"
                  eq_refl eq_refl eq_refl)).
Defined.

(** ** The reader: frames and their newlines *)

Lemma has_char_app c a b : has_char c (a +:+ b) = has_char c a || has_char c b.
Proof.
  induction a as [|d a IH]; [by rewrite append_nil_l|].
  rewrite append_cons. simpl. by rewrite IH, orb_assoc.
Qed.

Lemma split_nl_no_LF s : has_char "010"%char s = false → split_nl s = [s].
Proof.
  induction s as [|c s IH]; [done|]. simpl. intros [Hc Hs]%orb_false_iff.
  by rewrite Hc, (IH Hs).
Qed.

Lemma ret_bind {A B} (a : A) (k : A → Gen B) : (mret a ≫= k) = k a.
Proof. unfold mbind, Gen_bind, mret, Gen_ret. simpl. by destruct (k a). Qed.

Section Reader.

Context (JSON_parse : string → option Parsed).

Lemma read_loop_piece piece rest buffer st :
  has_char "010"%char buffer = false → has_char "010"%char piece = false →
  read_loop JSON_parse (ReadText piece :: rest) buffer st
  = read_loop JSON_parse rest (buffer +:+ piece) st.
Proof.
  intros Hb Hp. cbn [read_loop].
  rewrite split_nl_no_LF; [|by rewrite has_char_app, Hb, Hp].
  cbn [removelast for_lines List.last]. by rewrite ret_bind.
Qed.

Lemma read_loop_pieces pieces : ∀ rest buffer st,
  has_char "010"%char buffer = false →
  has_char "010"%char (concat_texts pieces) = false →
  read_loop JSON_parse ((ReadText <$> pieces) ++ rest) buffer st
  = read_loop JSON_parse rest (buffer +:+ concat_texts pieces) st.
Proof.
  induction pieces as [|p pieces IH]; intros rest buffer st Hb Hp.
  - simpl. by rewrite append_nil_r.
  - simpl in Hp. rewrite has_char_app in Hp. apply orb_false_iff in Hp as [Hp Hps].
    rewrite fmap_cons. simpl app. rewrite read_loop_piece by done.
    rewrite IH; [|by rewrite has_char_app, Hb, Hp|done].
    simpl. by rewrite append_assoc.
Qed.

(** X13: the reader waits for the newline of a frame.  Text without a
    newline is only put in the buffer: whatever the pieces are, nothing is
    parsed or yielded for them, not even at the end of the body; and a
    frame that arrives in pieces is read, when its last piece brings the
    newline, as if it had arrived in one read. *)
Theorem frames_wait_for_their_newline (pieces : list string) (st : RoundState) :
  has_char "010"%char (concat_texts pieces) = false →
  read_loop JSON_parse (ReadText <$> pieces) "" st = mret st
  ∧ ∀ last rest,
      read_loop JSON_parse ((ReadText <$> pieces) ++ ReadText last :: rest) "" st
      = read_loop JSON_parse (ReadText (concat_texts pieces +:+ last) :: rest) "" st.
Proof.
  intros Hp. split.
  - rewrite <-(app_nil_r (ReadText <$> pieces)). by rewrite read_loop_pieces.
  - intros last rest. rewrite read_loop_pieces by done. simpl.
    by rewrite !append_nil_l.
Qed.

End Reader.

Lemma frames_wait_for_their_newline_witness :
  read_loop demo_parse (ReadText <$> ["data: <hel"; "lo>"]) "" round0 = mret round0
  ∧ ∀ last rest,
      read_loop demo_parse ((ReadText <$> ["data: <hel"; "lo>"]) ++ ReadText last :: rest)
        "" round0
      = read_loop demo_parse
          (ReadText (concat_texts ["data: <hel"; "lo>"] +:+ last) :: rest) "" round0.
Proof.
  apply (frames_wait_for_their_newline demo_parse ["data: <hel"; "lo>"] round0).
  reflexivity.
Defined.

(** ** The generator: failures become chunks *)

Lemma split_nl_line s rest :
  has_char "010"%char s = false →
  split_nl (s +:+ LF +:+ rest) = s :: split_nl rest.
Proof.
  change (LF +:+ rest) with (String "010"%char rest).
  induction s as [|c s IH]; [done|]. cbn [has_char].
  intros [Hc Hs]%orb_false_iff. rewrite append_cons. cbn [split_nl].
  by rewrite Hc, (IH Hs).
Qed.

Lemma substring_all s : String.substring 0 (String.length s) s = s.
Proof. induction s as [|c s IH]; [done|]. simpl. by rewrite IH. Qed.

Lemma data_line payload :
  String.prefix "data: " ("data: " +:+ payload) = true
  ∧ slice6 ("data: " +:+ payload) = payload.
Proof.
  unfold slice6. rewrite !append_cons, append_nil_l. simpl.
  rewrite Nat.sub_0_r, substring_all. split; [by destruct payload|done].
Qed.

Lemma split_nl_nonempty s : split_nl s ≠ [].
Proof.
  induction s as [|c s IH]; [done|]. simpl.
  destruct (Ascii.eqb c "010"%char); [done|]. by destruct (split_nl s).
Qed.

Lemma removelast_cons {A} (x : A) l : l ≠ [] → removelast (x :: l) = x :: removelast l.
Proof. by destruct l. Qed.

Lemma bind_assoc {A B C} (m : Gen A) (f : A → Gen B) (g : B → Gen C) :
  (m ≫= f) ≫= g = m ≫= λ a, f a ≫= g.
Proof.
  unfold mbind, Gen_bind. destruct m as [t [a| |]]; simpl; try done.
  destruct (f a) as [t' [b| |]]; simpl; try done.
  by rewrite app_assoc.
Qed.

Lemma functional_bind {A B} (m : Gen A) (f g : A → Gen B) :
  (∀ a, f a = g a) → m ≫= f = m ≫= g.
Proof.
  intros H. unfold mbind, Gen_bind. destruct (outcome m); [|done..]. by rewrite H.
Qed.


Section Pass.

Context (JSON_parse : string → option Parsed) (JSON_valid : Json → bool)
  (JSON_stringify_string : string → Json) (toolManager : Registry)
  (net : nat → FetchOutcome) (plainMessages : list Message)
  (baseMessages : list ApiMessage) (hasPDFAttachments : bool)
  (enabledToolSchemas : list Json) (modelSupportsTools : bool)
  (maxToolIterations : Z).

Local Abbreviation step :=
  (round_step JSON_parse JSON_valid JSON_stringify_string toolManager net
     plainMessages baseMessages hasPDFAttachments enabledToolSchemas
     modelSupportsTools maxToolIterations).

(** A pass of the loop whose request fails, or whose body cannot be read
    to its end: what it throws and what it has yielded by then. *)
Lemma step_throws round iteration im :
  match net round with
  | FetchNotOk status errorData =>
      outcome (step round iteration im)
      = Throw (Error ("API request failed with status " +:+ pretty status +:+ ": "
                      +:+ match errorData with
                          | BodyJson msg => Js.or_default msg "Unknown error"
                          | BodyReject _ => "Unknown error"
                          end))
      ∧ yields (trace (step round iteration im)) = []
  | FetchReject e =>
      outcome (step round iteration im) = Throw e
      ∧ yields (trace (step round iteration im)) = []
  | FetchOk body =>
      ∀ e, outcome (read_loop JSON_parse body "" round0) = Throw e →
           outcome (step round iteration im) = Throw e
           ∧ yields (trace (step round iteration im))
             = yields (trace (read_loop JSON_parse body "" round0))
  end.
Proof.
  unfold Stream.round_step. rewrite emit_bind.
  destruct (net round) as [e|status msg|body]; [done|done|].
  intros e He. by rewrite (bind_Throw _ _ e He).
Qed.

End Pass.

Section Failures.

Context (JSON_parse : string → option Parsed) (JSON_valid : Json → bool)
  (JSON_stringify_string : string → Json) (toolManager : Registry)
  (findModelById : string → option ModelInfo).
Context (net : nat → FetchOutcome) (currentDate query : string)
  (plainMessages : list Message) (selectedModel : string) (settings : Settings)
  (attachments : list Attachment).

Local Abbreviation gen :=
  (handleIncomingMessage JSON_parse JSON_valid JSON_stringify_string toolManager
     findModelById net currentDate query plainMessages selectedModel settings
     attachments).

Local Abbreviation loop :=
  (tool_loop JSON_parse JSON_valid JSON_stringify_string toolManager net plainMessages).

Local Abbreviation step :=
  (round_step JSON_parse JSON_valid JSON_stringify_string toolManager net plainMessages).

(** With a query, the generator is its agent loop inside the [try]. *)
Lemma gen_loop :
  Js.truthy query = true →
  ∃ bm pdf schemas sup max fuel,
    gen = try_catch (loop bm pdf schemas sup max (S fuel) 0%nat 0%Z []) handler.
Proof.
  intros Hq. unfold handleIncomingMessage. rewrite Hq. cbn [negb].
  by eexists _, _, _, _, _, _.
Qed.

(** A first pass that throws ends the loop: the chunks of the turn are
    those of the pass and the one of the handler. *)
Lemma gen_first_pass_throws e ys :
  Js.truthy query = true →
  (∀ bm pdf schemas sup max,
     outcome (step bm pdf schemas sup max 0%nat 0%Z []) = Throw e
     ∧ yields (trace (step bm pdf schemas sup max 0%nat 0%Z [])) = ys) →
  yields (trace gen) = ys ++ yields (trace (handler e))
  ∧ outcome gen = outcome (handler e).
Proof.
  intros Hq Ht. destruct (gen_loop Hq) as (bm & pdf & schemas & sup & max & fuel & Hg).
  rewrite Hg. clear Hg. destruct (Ht bm pdf schemas sup max) as [Ho Hy].
  rewrite try_catch_trace, try_catch_outcome, tool_loop_S.
  rewrite (bind_Throw _ _ e Ho). cbn [trace outcome].
  by rewrite yields_app, Hy.
Qed.

(** X14: the generator never throws and never fails to return: whatever
    the network does and whatever the frames hold, every failure inside ends
    as a yielded chunk and the generator returns.  Called without a query it
    makes no request and yields only the chunk of the critical error for the
    missing parameters. *)
Theorem generator_never_throws :
  outcome gen = Ok tt
  ∧ (Js.truthy query = false →
     trace gen
     = [EvYield (critical_chunk
                   (Error "Missing required parameters for handleIncomingMessage"))]).
Proof.
  split; [apply generator_returns|].
  intros Hq. unfold handleIncomingMessage. rewrite Hq. reflexivity.
Qed.


(** The reads before a frame: the reader goes through them, and leaves in
    the buffer what [buffer_after] says. *)
Lemma read_loop_texts texts : ∀ rest buffer st,
  read_loop JSON_parse ((ReadText <$> texts) ++ rest) buffer st
  = read_loop JSON_parse (ReadText <$> texts) buffer st ≫= λ st',
      read_loop JSON_parse rest (foldl next_buffer buffer texts) st'.
Proof.
  induction texts as [|t texts IH]; intros rest buffer st.
  - symmetry. apply (ret_bind st (λ st', read_loop JSON_parse rest buffer st')).
  - rewrite fmap_cons. cbn [app read_loop foldl]. rewrite bind_assoc.
    apply functional_bind. intros st'. apply IH.
Qed.

(** X16: when a read of the first response completes, as its first line,
    a frame with an [error] field, the turn ends with two chunks after
    those of the reads before: the one of the reader for the error of the
    API, whose text is the message of the error, or null or undefined when
    it has none, and the one of the critical error for what the reader then
    throws; what comes after the frame is not read. *)
Theorem api_error_frame_yields_two_chunks
    (texts : list string) (value more payload : string) (rest : list ReadOutcome)
    (st : RoundState) (frame : Frame) (err : ErrorObj) :
  Js.truthy query = true →
  net 0%nat = FetchOk ((ReadText <$> texts) ++ ReadText value :: rest) →
  outcome (read_loop JSON_parse (ReadText <$> texts) "" round0) = Ok st →
  buffer_after texts +:+ value = "data: " +:+ payload +:+ LF +:+ more →
  has_char "010"%char payload = false → payload ≠ "[DONE]" →
  JSON_parse payload = Some (ParsedFrame frame) → f_error frame = Some err →
  yields (trace gen)
  = yields (trace (read_loop JSON_parse (ReadText <$> texts) "" round0))
    ++ [api_error_chunk err;
        critical_chunk
          (Error (match e_message err with
                  | Js.Str text => if Js.truthy text then text else "API error"
                  | _ => "API error"
                  end))].
Proof.
  intros Hq Hnet Hst Hvalue Hp Hdone Hparse Herr.
  set (e := Error (match e_message err with
                   | Js.Str text => if Js.truthy text then text else "API error"
                   | _ => "API error"
                   end)).
  set (before := read_loop JSON_parse (ReadText <$> texts) "" round0) in *.
  destruct (gen_first_pass_throws e (yields (trace before) ++ [api_error_chunk err]) Hq)
    as [-> _]; [|by rewrite <-app_assoc].
  intros bm pdf schemas sup max.
  pose proof (step_throws JSON_parse JSON_valid JSON_stringify_string toolManager
                net plainMessages bm pdf schemas sup max 0%nat 0%Z []) as H.
  rewrite Hnet in H.
  assert (read_loop JSON_parse (ReadText value :: rest) (buffer_after texts) st
          = mkGen [EvYield (api_error_chunk err)] (Throw e)) as Hread.
  { cbn [read_loop]. rewrite Hvalue.
    replace ("data: " +:+ payload +:+ LF +:+ more)
      with (("data: " +:+ payload) +:+ LF +:+ more) by by rewrite !append_assoc.
    rewrite split_nl_line; [|by rewrite has_char_app, Hp].
    rewrite removelast_cons by apply split_nl_nonempty.
    cbn [for_lines].
    destruct (data_line payload) as [-> ->]. cbn [negb].
    apply String.eqb_neq in Hdone as ->. rewrite Hparse, Herr.
    subst e. unfold api_error_chunk. by destruct (e_message err). }
  rewrite read_loop_texts in H. fold before in H.
  rewrite (bind_Ok _ _ _ Hst) in H. unfold buffer_after in Hread.
  rewrite Hread in H. cbn [trace outcome] in H.
  destruct (H e eq_refl) as [Ho Hy]. split; [done|].
  by rewrite Hy, yields_app.
Qed.

End Failures.


Lemma api_error_frame_yields_two_chunks_witness :
  yields (trace (handleIncomingMessage error_parse (λ _, true) (λ x, x) demo_tools
                   demo_models error_in_stream "2026-01-01" "hi" []
                   "gemini-3-pro-preview" (mkSettings None None) []))
  = yields (trace (read_loop error_parse
                     (ReadText <$> ["data: <hello>" +:+ LF; "data: <er"]) "" round0))
    ++ [api_error_chunk (mkErrorObj Js.Null (Some "rate_limit_error"));
        critical_chunk (Error "API error")].
Proof.
  apply (api_error_frame_yields_two_chunks error_parse (λ _, true) (λ x, x)
           demo_tools demo_models error_in_stream "2026-01-01" "hi" []
           "gemini-3-pro-preview" (mkSettings None None) []
           ["data: <hello>" +:+ LF; "data: <er"]
           ("ror>" +:+ LF +:+ "data: <late>" +:+ LF)
           ("data: <late>" +:+ LF) "<error>" [ReadText ("data: <late>" +:+ LF)]
           round0 error_frame (mkErrorObj Js.Null (Some "rate_limit_error"))
           eq_refl eq_refl eq_refl eq_refl eq_refl);
    [discriminate|reflexivity|reflexivity].
Defined.

(** ** Cancellation (C9) *)

Lemma ends_with_app body suffix : ends_with suffix (body +:+ suffix) = true.
Proof.
  induction body as [|c body IH].
  - rewrite append_nil_l. destruct suffix; simpl; by rewrite ?Ascii.eqb_refl, ?String.eqb_refl.
  - rewrite append_cons. cbn [ends_with]. by rewrite IH, orb_true_r.
Qed.

Section Cancellation.

Context (JSON_parse : string → option Parsed) (JSON_valid : Json → bool)
  (JSON_stringify_string : string → Json) (toolManager : Registry)
  (findModelById : string → option ModelInfo) (net : nat → FetchOutcome).

Local Abbreviation send :=
  (sendMessage JSON_parse JSON_valid JSON_stringify_string toolManager
     findModelById net).
Local Abbreviation generator :=
  (streamGenerator JSON_parse JSON_valid JSON_stringify_string toolManager
     findModelById net).

(** C9 (amended): when a fetch or a read of the stream is rejected with an
    AbortError, the generator yields the cancellation marker as its last
    chunk and returns; nothing is requested after the rejection; and
    [sendMessage] leaves the assistant message complete, its content ending
    in the marker.  When the abort comes while the body of a response that
    is not ok is read, the rejection is caught on the spot: the generator
    yields the chunk of the critical error for the failed request, without
    the marker, and returns, and the message is complete with the text of
    that error. *)
Theorem cancellation_ends_turn (c : Call) (s : State) :
  ready c s → is_Some (findModelById (selected_model_id c)) →
  (∀ e, EvRejected e ∈ trace (generator c s) → err_name e = "AbortError" →
     (∃ pre,
        trace (generator c s)
        = pre ++ [EvRejected e;
                  EvYield (mkChunk
                             (Some (String "010" (String "010" "[STREAM CANCELED]")))
                             None [] None None None [] false None)]
        ∧ no_reject pre)
     ∧ outcome (generator c s) = Ok tt
     ∧ ∃ s' builder m body,
         send c s = Some (s', builder)
         ∧ last (messages_value s') = Some m
         ∧ msg_id m = assistantId c
         ∧ complete m = true
         ∧ content m = body +:+ String "010" (String "010" "[STREAM CANCELED]"))
  ∧ (∀ status e,
       Js.truthy (message_arg c) = true →
       net 0%nat = FetchNotOk status (BodyReject e) →
       yields (trace (generator c s))
       = [critical_chunk
            (Error ("API request failed with status " +:+ pretty status
                    +:+ ": Unknown error"))]
       ∧ outcome (generator c s) = Ok tt
       ∧ ∃ s' builder m,
           send c s = Some (s', builder)
           ∧ last (messages_value s') = Some m
           ∧ msg_id m = assistantId c
           ∧ complete m = true
           ∧ content m
             = String "010" (String "010"
                 ("[CRITICAL ERROR: Failed to patch request."
                  +:+ "API request failed with status " +:+ pretty status
                  +:+ ": Unknown error" +:+ "]"))).
Proof.
  intros Hready Hmodel.
  destruct (sendMessage_finishes JSON_parse JSON_valid JSON_stringify_string
              toolManager findModelById net c s Hready Hmodel)
    as (s' & builder & Hsend & m & Hlast & Hid & Hcontent & Hcomplete & _).
  split.
  - intros e Hin Hname.
    destruct (generator_canceled JSON_parse JSON_valid JSON_stringify_string
                toolManager findModelById net (currentDate c) (message_arg c)
                (history (messageToStore c) (fst (begin c s)))
                (selected_model_id c) (settings_arg c) (attachments_arg c) e Hin Hname)
      as (pre & Htrace & Hpre).
    split_and!; [by exists pre|apply generator_returns|].
    exists s', builder, m, (flat_content (yields pre)).
    split_and!; try done.
    rewrite Hcontent. unfold streamGenerator in *. rewrite Htrace.
    change [EvRejected e; EvYield cancel_chunk]
      with ([EvRejected e] ++ [EvYield cancel_chunk]).
    rewrite app_assoc, yields_app. simpl. rewrite yields_app. simpl.
    by rewrite app_nil_r, flat_content_snoc.
  - intros status e Hq Hnet.
    set (err := Error ("API request failed with status " +:+ pretty status
                       +:+ ": Unknown error")).
    assert (yields (trace (generator c s)) = [critical_chunk err]) as Hy.
    { unfold streamGenerator.
      destruct (gen_first_pass_throws JSON_parse JSON_valid JSON_stringify_string
                  toolManager findModelById net (currentDate c) (message_arg c)
                  (history (messageToStore c) (fst (begin c s)))
                  (selected_model_id c) (settings_arg c) (attachments_arg c)
                  err [] Hq) as [-> _]; [|done].
      intros bm pdf schemas sup max.
      pose proof (step_throws JSON_parse JSON_valid JSON_stringify_string toolManager
                    net (history (messageToStore c) (fst (begin c s)))
                    bm pdf schemas sup max 0%nat 0%Z []) as H.
      by rewrite Hnet in H. }
    split_and!; [done|apply generator_returns|].
    exists s', builder, m. split_and!; try done.
    rewrite Hcontent, Hy. subst err. unfold flat_content, critical_chunk, Error.
    cbn [foldl add_content c_content err_message]. unfold LF.
    rewrite !append_cons, !append_nil_l. cbn [Js.truthy].
    rewrite ?append_cons, ?append_nil_l. cbn [Js.truthy].
    rewrite ?append_cons, ?append_nil_l.
    by rewrite ?append_assoc, ?append_cons, ?append_nil_l.
Qed.

End Cancellation.

Lemma cancellation_ends_turn_witness :
  ∃ s' builder m body,
    sendMessage demo_parse (λ _, true) (λ x, x) demo_tools demo_models
      aborted_mid_stream (demo_call None) empty_state = Some (s', builder)
    ∧ last (messages_value s') = Some m
    ∧ msg_id m = "a1"
    ∧ complete m = true
    ∧ content m = body +:+ String "010" (String "010" "[STREAM CANCELED]").
Proof.
  apply (proj1 (cancellation_ends_turn demo_parse (λ _, true) (λ x, x) demo_tools
                  demo_models aborted_mid_stream (demo_call None) empty_state
                  (demo_ready None) (demo_model None)) AbortError).
  - apply (list_elem_of_lookup_2 _ 2). reflexivity.
  - reflexivity.
Defined.

(** C9 as stated, refuted: the signal is aborted while the error body of a
    response with the status 500 is read.  The generator yields one chunk,
    the critical error of the failed request, and no chunk with the
    cancellation marker; the message is complete, but its content does not
    end in the marker. *)
Lemma abort_swallowed_with_error_body :
  let marker := String "010" (String "010" "[STREAM CANCELED]") in
  let generator :=
    streamGenerator demo_parse (λ _, true) (λ x, x) demo_tools demo_models
      abort_in_error_body (demo_call None) empty_state in
  abort_in_error_body 0%nat = FetchNotOk 500 (BodyReject AbortError)
  ∧ outcome generator = Ok tt
  ∧ c_content <$> yields (trace generator)
    = [Some (String "010" (String "010"
               "[CRITICAL ERROR: Failed to patch request.API request failed with status 500: Unknown error]"))]
  ∧ ∃ s' builder m,
      sendMessage demo_parse (λ _, true) (λ x, x) demo_tools demo_models
        abort_in_error_body (demo_call None) empty_state = Some (s', builder)
      ∧ last (messages_value s') = Some m
      ∧ complete m = true
      ∧ content m
        = String "010" (String "010"
            "[CRITICAL ERROR: Failed to patch request.API request failed with status 500: Unknown error]")
      ∧ ¬ ∃ body, content m = body +:+ marker.
Proof.
  intros marker generator. split_and!; [reflexivity..|].
  eexists _, _, _. split_and!; [reflexivity..|].
  intros [body Hbody]. pose proof (ends_with_app body marker) as H.
  rewrite <-Hbody in H. vm_compute in H. discriminate.
Qed.

(** ** The agent loop is bounded *)

Lemma tool_rounds_request r t : tool_rounds (EvRequest r :: t) = tool_rounds t.
Proof. done. Qed.

Lemma tool_rounds_exec c t : tool_rounds (EvExecTools c :: t) = c :: tool_rounds t.
Proof. done. Qed.

Section Bound.

Context (JSON_parse : string → option Parsed) (JSON_valid : Json → bool)
  (JSON_stringify_string : string → Json) (toolManager : Registry)
  (net : nat → FetchOutcome) (plainMessages : list Message)
  (baseMessages : list ApiMessage) (hasPDFAttachments : bool)
  (enabledToolSchemas : list Json) (modelSupportsTools : bool)
  (maxToolIterations : Z).

Local Abbreviation step :=
  (round_step JSON_parse JSON_valid JSON_stringify_string toolManager net
     plainMessages baseMessages hasPDFAttachments enabledToolSchemas
     modelSupportsTools maxToolIterations).
Local Abbreviation loop :=
  (tool_loop JSON_parse JSON_valid JSON_stringify_string toolManager net
     plainMessages baseMessages hasPDFAttachments enabledToolSchemas
     modelSupportsTools maxToolIterations).

(** A pass runs the tools once if it goes on, and not at all if it ends
    the loop. *)
Lemma step_rounds round iteration im :
  length (tool_rounds (trace (step round iteration im)))
  = match outcome (step round iteration im) with
    | Ok (Some _) => 1%nat
    | _ => 0%nat
    end.
Proof.
  unfold Stream.round_step. rewrite emit_bind. cbn [trace outcome].
  rewrite tool_rounds_request.
  destruct (net round) as [e|status msg|body]; [done|done|].
  destruct (read_loop_spec JSON_parse body "" round0) as (_ & _ & Hev).
  apply reader_events_requests in Hev as [_ Ht].
  destruct (outcome (read_loop JSON_parse body "" round0)) as [st| |] eqn:Ho.
  - rewrite (bind_Ok _ _ st Ho). cbn [trace outcome].
    rewrite tool_rounds_app, Ht. cbn [app].
    destruct (_ || _); [done|]. destruct (_ <=? _)%Z; [done|].
    rewrite emit_bind. cbn [trace outcome]. rewrite tool_rounds_exec.
    cbn [length]. f_equal.
    pose proof (yield_all_only
                  (tool_result_of <$>
                   executeToolCallsLocally JSON_valid JSON_stringify_string
                     toolManager (Object_values (toolCallAccumulator st))
                     plainMessages)) as Hy.
    apply only_yields_counts in Hy as [_ Hy].
    unfold mbind, Gen_bind. cbn [outcome yield_all trace mret Gen_ret].
    cbn [yield_all trace] in Hy. by rewrite app_nil_r, Hy.
  - rewrite (bind_Throw _ _ e Ho). cbn [trace outcome]. by rewrite Ht.
  - rewrite (bind_Diverge _ _ Ho). cbn [trace outcome]. by rewrite Ht.
Qed.

(** X17: the agent loop is bounded for every network and every registry.
    From the counter [iteration] on it makes at least one request and at
    most [max 1 (maxToolIterations - iteration)]; every round of tool
    execution is followed by one more request, so the tools run once less
    often than the model is asked; and the loop ends. *)
Theorem agent_loop_is_bounded (fuel round : nat) (iteration : Z)
    (im : list ApiMessage) :
  (rounds_left maxToolIterations iteration ≤ fuel)%nat →
  let t := trace (loop fuel round iteration im) in
  outcome (loop fuel round iteration im) ≠ Diverge
  ∧ length (requests t) = S (length (tool_rounds t))
  ∧ (length (requests t) ≤ rounds_left maxToolIterations iteration)%nat.
Proof.
  revert round iteration im.
  induction fuel as [|fuel IH]; intros round iteration im Hf; [unfold rounds_left in Hf; lia|].
  cbn zeta. rewrite tool_loop_S.
  pose proof (round_step_continues JSON_parse JSON_valid JSON_stringify_string
                toolManager net plainMessages baseMessages hasPDFAttachments
                enabledToolSchemas modelSupportsTools maxToolIterations
                round iteration im) as Hc.
  destruct (round_step_counts JSON_parse JSON_valid JSON_stringify_string
              toolManager net plainMessages baseMessages hasPDFAttachments
              enabledToolSchemas modelSupportsTools maxToolIterations
              round iteration im) as [Hq _].
  pose proof (step_rounds round iteration im) as Hr.
  pose proof (round_step_ends JSON_parse JSON_valid JSON_stringify_string
                toolManager net plainMessages baseMessages hasPDFAttachments
                enabledToolSchemas modelSupportsTools maxToolIterations
                round iteration im) as He.
  set (g := step round iteration im) in *. clearbody g.
  destruct (outcome g) as [[[iteration' im']|]|e|] eqn:Ho.
  - destruct (Hc _ _ eq_refl) as (-> & Hlt & _).
    assert (rounds_left maxToolIterations iteration
            = S (rounds_left maxToolIterations (iteration + 1))) as Hrl
      by (unfold rounds_left; lia).
    destruct (IH (S round) (iteration + 1)%Z im') as (Hend & Hn & Hle); [lia|].
    cbn zeta in Hn, Hle.
    rewrite (bind_Ok _ _ _ Ho). cbn [trace outcome].
    rewrite requests_app, tool_rounds_app, !length_app, Hq, Hr, Hn.
    split_and!; [done|simpl; lia|simpl in *; lia].
  - rewrite (bind_Ok _ _ _ Ho). cbn [trace outcome mret Gen_ret].
    rewrite app_nil_r, Hq. split_and!; [done|simpl; lia|].
    unfold rounds_left. simpl. lia.
  - rewrite (bind_Throw _ _ _ Ho). cbn [trace outcome].
    rewrite Hq. split_and!; [done|simpl; lia|].
    unfold rounds_left. simpl. lia.
  - by destruct He.
Qed.

End Bound.

Lemma agent_loop_is_bounded_witness :
  let t := trace (tool_loop demo_parse (λ _, true) (λ x, x) demo_tools always_tools
                    [] [] false ["{}"] true 3 5 0 0 []) in
  outcome (tool_loop demo_parse (λ _, true) (λ x, x) demo_tools always_tools
             [] [] false ["{}"] true 3 5 0 0 []) ≠ Diverge
  ∧ length (requests t) = S (length (tool_rounds t))
  ∧ (length (requests t) ≤ rounds_left 3 0)%nat.
Proof.
  apply (agent_loop_is_bounded demo_parse (λ _, true) (λ x, x) demo_tools always_tools
           [] [] false ["{}"] true 3 5 0 0 []).
  vm_compute. lia.
Defined.

(** ** Tools: the registry and the execution of tool calls *)

Section Tools.
Import ToolManager.

Context (JSON_valid : Json → bool) (JSON_stringify_string : string → Json).

Local Abbreviation execute :=
  (executeToolCallsLocally JSON_valid JSON_stringify_string).

Lemma execute_cons reg c calls history :
  execute reg (c :: calls) history = execute reg [c] history ++ execute reg calls history.
Proof. done. Qed.

Lemma execute_one reg c history :
  ∃ content, execute reg [c] history = [tool_message (a_id c) (a_name c) content]
             ∧ (getTool reg (a_name c) = None → content = unknown_tool_content (a_name c)).
Proof.
  unfold Stream.executeToolCallsLocally. rewrite fmap_cons, fmap_nil.
  destruct (getTool reg (a_name c)) as [tool|]; [|by eexists].
  destruct (executor tool _ history); by eexists.
Qed.

Lemma execute_ids reg calls history :
  api_tool_call_id <$> execute reg calls history = a_id <$> calls
  ∧ api_name <$> execute reg calls history = (λ c, Some (a_name c)) <$> calls.
Proof.
  induction calls as [|c calls [IH1 IH2]]; [done|].
  rewrite execute_cons, !fmap_app, IH1, IH2.
  by destruct (execute_one reg c history) as (content & -> & _).
Qed.

(** X19: every tool call of a response is answered: [executeToolCallsLocally]
    gives one tool message for each call, in the order of the calls, with
    the id and the name of the call, also for a tool that is not registered
    or that throws.  With the registry as it is constructed, which holds no
    tool, and for any tool that has been unregistered, the answer is the
    error text for an unknown tool. *)
Theorem every_tool_call_is_answered (reg : Registry) (calls : list AccTool)
    (history : list Message) :
  api_tool_call_id <$> execute reg calls history = a_id <$> calls
  ∧ api_name <$> execute reg calls history = (λ c, Some (a_name c)) <$> calls
  ∧ Forall (λ m, api_role m = "tool" ∧ api_tool_calls m = None)
      (execute reg calls history)
  ∧ execute new_ToolManager calls history
    = (λ c, tool_message (a_id c) (a_name c) (unknown_tool_content (a_name c))) <$> calls
  ∧ (∀ name ex sc c, a_name c = name →
       execute (unregisterTool name (registerTool name ex sc reg)) [c] history
       = [tool_message (a_id c) name (unknown_tool_content name)]).
Proof.
  split_and!.
  - induction calls as [|c calls IH]; [done|]. rewrite execute_cons, fmap_app, IH.
    by destruct (execute_one reg c history) as (content & -> & _).
  - induction calls as [|c calls IH]; [done|]. rewrite execute_cons, fmap_app, IH.
    by destruct (execute_one reg c history) as (content & -> & _).
  - induction calls as [|c calls IH]; [done|]. rewrite execute_cons.
    apply Forall_app. split; [|done].
    destruct (execute_one reg c history) as (content & -> & _). by repeat constructor.
  - induction calls as [|c calls IH]; [done|]. rewrite execute_cons, IH, fmap_cons.
    destruct (execute_one new_ToolManager c history) as (content & -> & Hc).
    by rewrite Hc.
  - intros name ex sc c <-.
    destruct (execute_one (unregisterTool (a_name c) (registerTool (a_name c) ex sc reg))
                c history) as (content & -> & Hc).
    rewrite Hc; [done|]. unfold getTool, unregisterTool. apply lookup_delete_eq.
Qed.

(** X20: the registry is a map from names: a tool that is registered is
    found under its name, with the executor and the schema given last; a
    tool that is unregistered is not found; neither touches an entry of
    another name; and [getSchemasByNames] gives the schemas of the names
    that are registered, in the order of the names, and passes over the
    others. *)
Theorem registry_round_trip (reg : Registry) (name : string)
    (ex : Json → list Message → ExecResult) (sc : Json) :
  getTool (registerTool name ex sc reg) name = Some (mkToolEntry ex sc)
  ∧ getTool (unregisterTool name reg) name = None
  ∧ (∀ other, other ≠ name →
       getTool (registerTool name ex sc reg) other = getTool reg other
       ∧ getTool (unregisterTool name reg) other = getTool reg other)
  ∧ (∀ names,
       getSchemasByNames (registerTool name ex sc reg) names
       = omap (λ n, if String.eqb n name then Some sc else schema <$> getTool reg n) names)
  ∧ (∀ names,
       getSchemasByNames (unregisterTool name reg) names
       = omap (λ n, if String.eqb n name then None else schema <$> getTool reg n) names)
  ∧ (∀ names, getSchemasByNames new_ToolManager names = []).
Proof.
  unfold getTool, registerTool, unregisterTool, getSchemasByNames, new_ToolManager.
  split_and!.
  - apply lookup_insert_eq.
  - apply lookup_delete_eq.
  - intros other Hne. by rewrite lookup_insert_ne, lookup_delete_ne.
  - intros names. rewrite list_fmap_omap. apply list_omap_ext, Forall2_same_length_lookup.
    split; [done|]. intros i n n' Hn Hn'. simplify_eq.
    destruct (String.eqb n name) eqn:E.
    + apply String.eqb_eq in E as ->. by rewrite lookup_insert_eq.
    + apply String.eqb_neq in E. by rewrite lookup_insert_ne.
  - intros names. rewrite list_fmap_omap. apply list_omap_ext, Forall2_same_length_lookup.
    split; [done|]. intros i n n' Hn Hn'. simplify_eq.
    destruct (String.eqb n name) eqn:E.
    + apply String.eqb_eq in E as ->. by rewrite lookup_delete_eq.
    + apply String.eqb_neq in E. by rewrite lookup_delete_ne.
  - intros names. induction names as [|n names IH]; [done|]. simpl.
    by rewrite lookup_empty.
Qed.

End Tools.

(** ** The order of the accumulated tool calls *)

Lemma acc_set_keys i v acc k :
  k ∈ keys (acc_set i v acc) ↔ k = i ∨ k ∈ keys acc.
Proof.
  unfold keys. induction acc as [|[j w] acc IH]; simpl.
  - rewrite list_elem_of_singleton. split; [by left|]. intros [->|H]; [done|].
    by apply elem_of_nil in H.
  - destruct (i =? j)%Z eqn:E.
    + apply Z.eqb_eq in E as ->. rewrite !fmap_cons, !elem_of_cons. simpl. tauto.
    + destruct (_ && _).
      * rewrite !fmap_cons, !elem_of_cons. simpl. tauto.
      * rewrite !fmap_cons, !elem_of_cons, IH. simpl. tauto.
Qed.

Lemma acc_set_order i v acc :
  index_order (keys acc) → index_order (keys (acc_set i v acc)).
Proof.
  unfold keys. induction acc as [|[j w] acc IH]; intros H.
  - simpl. by split.
  - rewrite fmap_cons in H. cbn [index_order fst] in H. destruct H as [Hj H].
    cbn [acc_set]. destruct (i =? j)%Z eqn:E.
    { apply Z.eqb_eq in E as ->. rewrite fmap_cons. by split. }
    apply Z.eqb_neq in E.
    destruct (is_array_index i && (negb (is_array_index j) || (i <? j)%Z)) eqn:Eb.
    + apply andb_true_iff in Eb as [Hi Hb].
      rewrite !fmap_cons. cbn [index_order fst]. split_and!; [|done|done].
      constructor.
      * unfold may_follow. rewrite Hi. apply orb_true_iff in Hb as [Hb|Hb].
        -- left. by apply negb_true_iff.
        -- right. by apply Z.ltb_lt.
      * eapply Forall_impl; [exact Hj|]. intros y. unfold may_follow. rewrite Hi.
        destruct (is_array_index j) eqn:Ej.
        -- cbn [negb orb] in Hb. apply Z.ltb_lt in Hb. intros [?|?]; [by left|right; lia].
        -- intros [? _]. by left.
    + rewrite fmap_cons. cbn [index_order fst]. split; [|by apply IH].
      apply Forall_forall. intros y Hy.
      apply (acc_set_keys i v acc y) in Hy as [->|Hy];
        [|by apply (proj1 (Forall_forall _ _) Hj)].
      unfold may_follow. destruct (is_array_index j) eqn:Ej.
      * cbn [negb orb] in Eb. destruct (is_array_index i); [|by left].
        cbn [andb] in Eb. apply Z.ltb_ge in Eb. right. lia.
      * cbn [negb orb] in Eb. rewrite andb_true_r in Eb. by split.
Qed.

Lemma index_order_ascending l :
  index_order l → Forall (λ i, is_array_index i = true) l → ascending l.
Proof.
  induction l as [|x l IH]; [done|]. intros [Hx Hl] Ha.
  apply Forall_cons in Ha as [Hax Ha]. split; [|by apply IH].
  apply Forall_forall. intros y Hy.
  pose proof (proj1 (Forall_forall _ _) Hx y Hy) as Hf.
  pose proof (proj1 (Forall_forall _ _) Ha y Hy) as Hay. simpl in Hay.
  unfold may_follow in Hf. rewrite Hax in Hf. destruct Hf as [Hf|Hf]; [congruence|done].
Qed.

Lemma bind_Ok_inv {A B} (m : Gen A) (k : A → Gen B) b :
  outcome (m ≫= k) = Ok b → ∃ a, outcome m = Ok a ∧ outcome (k a) = Ok b.
Proof.
  unfold mbind, Gen_bind. destruct (outcome m) as [a| |]; simpl; [by exists a|done|done].
Qed.

Lemma yields_yield_all cs : yields (EvYield <$> cs) = cs.
Proof. induction cs as [|c cs IH]; [done|]. rewrite fmap_cons. simpl. by rewrite IH. Qed.

Section Order.

Context (JSON_parse : string → option Parsed) (JSON_valid : Json → bool)
  (JSON_stringify_string : string → Json) (toolManager : Registry)
  (net : nat → FetchOutcome) (plainMessages : list Message)
  (baseMessages : list ApiMessage) (hasPDFAttachments : bool)
  (enabledToolSchemas : list Json) (modelSupportsTools : bool)
  (maxToolIterations : Z).

Local Abbreviation step :=
  (round_step JSON_parse JSON_valid JSON_stringify_string toolManager net
     plainMessages baseMessages hasPDFAttachments enabledToolSchemas
     modelSupportsTools maxToolIterations).

Context (P : Accumulator → Prop) (HP : ∀ acc d, P acc → P (accumulate acc d)).

(** What holds of the accumulator and is kept by every delta holds of it
    when the reader is done. *)
Lemma process_choice_accumulator parsed choice st st' :
  P (toolCallAccumulator st) →
  outcome (process_choice parsed choice st) = Ok st' → P (toolCallAccumulator st').
Proof.
  intros H0. unfold process_choice.
  repeat match goal with
  | |- context [when ?b ?m] => destruct b; unfold when at 1
  | |- context [match ?x with _ => _ end] => destruct x
  end; cbn; intros [= <-]; cbn; try done; by apply foldl_preserves.
Qed.

Lemma for_lines_accumulator lines : ∀ st st',
  P (toolCallAccumulator st) →
  outcome (for_lines JSON_parse lines st) = Ok st' → P (toolCallAccumulator st').
Proof.
  induction lines as [|line rest IH]; intros st st' H0 H.
  { by injection H as <-. }
  cbn [for_lines] in H.
  destruct (negb (String.prefix "data: " line)); [by eapply IH|].
  destruct (String.eqb (slice6 line) "[DONE]"); [by injection H as <-|].
  destruct (JSON_parse (slice6 line)) as [[|parsed]|]; [done| |by eapply IH].
  destruct (f_error parsed) as [err|]; [done|].
  apply bind_Ok_inv in H as (st1 & H1 & H2).
  assert (P (toolCallAccumulator st1)) as HP1.
  { destruct (choice0 parsed) as [choice|].
    - by eapply process_choice_accumulator.
    - by injection H1 as <-. }
  destruct (Js.strict_eqO _ _); [by injection H2 as <-|by eapply IH].
Qed.

Lemma read_loop_accumulator body : ∀ buffer st st',
  P (toolCallAccumulator st) →
  outcome (read_loop JSON_parse body buffer st) = Ok st' → P (toolCallAccumulator st').
Proof.
  induction body as [|r body IH]; intros buffer st st' H0 H.
  { by injection H as <-. }
  destruct r as [value|e]; [|done]. cbn [read_loop] in H.
  apply bind_Ok_inv in H as (st1 & H1 & H2).
  eapply IH; [|exact H2]. by eapply for_lines_accumulator.
Qed.

End Order.

Section Execution.

Context (JSON_parse : string → option Parsed) (JSON_valid : Json → bool)
  (JSON_stringify_string : string → Json) (toolManager : Registry)
  (net : nat → FetchOutcome) (plainMessages : list Message)
  (baseMessages : list ApiMessage) (hasPDFAttachments : bool)
  (enabledToolSchemas : list Json) (modelSupportsTools : bool)
  (maxToolIterations : Z).

Local Abbreviation step :=
  (round_step JSON_parse JSON_valid JSON_stringify_string toolManager net
     plainMessages baseMessages hasPDFAttachments enabledToolSchemas
     modelSupportsTools maxToolIterations).

(** X18: the tool calls of a response are kept, executed and sent back to
    the model in the order of [Object.values]: the calls whose index is an
    array index in the ascending order of their indexes, whatever the order
    in which the deltas arrived, and after them the calls of other indexes;
    no index comes twice.  In a pass of the loop that runs the tools, the
    round of tool execution gets the calls in this order, one tool result
    is yielded for each call in this order, and the messages for the next
    request carry the calls and their answers in this order. *)
Theorem tool_calls_run_in_index_order (round : nat) (iteration : Z)
    (im : list ApiMessage) (body : list ReadOutcome) (st : RoundState) :
  modelSupportsTools = true → net round = FetchOk body →
  outcome (read_loop JSON_parse body "" round0) = Ok st →
  hadToolCalls st = true → (iteration + 1 < maxToolIterations)%Z →
  let acc := toolCallAccumulator st in
  let calls := snd <$> acc in
  index_order (fst <$> acc)
  ∧ (Forall (λ i, is_array_index i = true) (fst <$> acc) → ascending (fst <$> acc))
  ∧ tool_rounds (trace (step round iteration im)) = [calls]
  ∧ ∃ assistant results chunks,
      outcome (step round iteration im)
      = Ok (Some ((iteration + 1)%Z, im ++ assistant :: results))
      ∧ api_role assistant = "assistant"
      ∧ api_tool_calls assistant
        = Some ((λ c, mkApiToolCall
                        (match a_id c with Js.Str i => Some i | _ => None end)
                        (a_type c) (a_name c) (a_arguments c)) <$> calls)
      ∧ api_tool_call_id <$> results = a_id <$> calls
      ∧ api_name <$> results = (λ c, Some (a_name c)) <$> calls
      ∧ yields (trace (step round iteration im))
        = yields (trace (read_loop JSON_parse body "" round0)) ++ chunks
      ∧ fst <$> omap c_tool_result chunks = a_id <$> calls.
Proof.
  intros Hon Hnet Hst Hhad Hlt acc calls.
  assert (index_order (fst <$> acc)) as Horder.
  { apply (read_loop_accumulator JSON_parse (λ a, index_order (keys a))
             (λ a d, acc_set_order _ _ a) body "" round0 st); [done|exact Hst]. }
  rewrite (round_step_with_tools JSON_parse JSON_valid JSON_stringify_string
             toolManager net plainMessages baseMessages hasPDFAttachments
             enabledToolSchemas modelSupportsTools maxToolIterations
             round iteration im body st Hon Hnet Hst Hhad).
  replace (maxToolIterations <=? iteration + 1)%Z with false
    by (symmetry; apply Z.leb_gt; lia).
  destruct (read_loop_spec JSON_parse body "" round0) as (_ & _ & Hev).
  apply reader_events_requests in Hev as [_ Htr].
  destruct (execute_ids JSON_valid JSON_stringify_string toolManager
              (Object_values (toolCallAccumulator st)) plainMessages) as [Hids Hnames].
  cbn [trace outcome].
  split_and!; [done|by apply index_order_ascending| |].
  - change (?x :: ?l ++ ?y :: ?l') with ([x] ++ l ++ [y] ++ l').
    rewrite !tool_rounds_app, Htr.
    destruct (only_yields_counts _
                (yield_all_only (tool_result_of <$>
                   executeToolCallsLocally JSON_valid JSON_stringify_string
                     toolManager (Object_values (toolCallAccumulator st))
                     plainMessages))) as [_ Hyt].
    cbn [trace yield_all] in Hyt. by rewrite Hyt.
  - eexists _, _, _. split; [reflexivity|]. split; [done|].
    split; [done|]. split; [exact Hids|]. split; [exact Hnames|]. split.
    + change (?x :: ?l ++ ?y :: ?l') with ([x] ++ l ++ [y] ++ l').
      rewrite !yields_app, yields_yield_all. reflexivity.
    + subst calls acc.
      change (snd <$> toolCallAccumulator st)
        with (Object_values (toolCallAccumulator st)).
      rewrite <-Hids.
      change (yields [EvExecTools (Object_values (toolCallAccumulator st))])
        with (@nil Chunk). cbn [app].
      generalize (executeToolCallsLocally JSON_valid JSON_stringify_string
                    toolManager (Object_values (toolCallAccumulator st))
                    plainMessages).
      intros results. induction results as [|m results IH]; [done|].
      rewrite !fmap_cons. cbn. by rewrite IH.
Qed.

End Execution.

Lemma tool_calls_run_in_index_order_witness :
  tool_rounds
    (trace (round_step unordered_parse (λ _, true) (λ x, x) demo_tools
              unordered_tools [] [] false ["{}"] true 4 0 0 []))
  = [[mkAccTool (Js.Str "call_a") "function" "first" "";
      mkAccTool (Js.Str "call_b") "function" "second" ""]].
Proof.
  apply (proj1 (proj2 (proj2
           (tool_calls_run_in_index_order unordered_parse (λ _, true) (λ x, x)
              demo_tools unordered_tools [] [] false ["{}"] true 4 0 0 []
              [ReadText ("data: <unordered>" +:+ LF)]
              (mkRoundState
                 [(0%Z, mkAccTool (Js.Str "call_a") "function" "first" "");
                  (1%Z, mkAccTool (Js.Str "call_b") "function" "second" "")]
                 true (Some "tool_calls"))
              eq_refl eq_refl eq_refl eq_refl eq_refl)))).
Defined.

(** ** The consumer: what [sendMessage] leaves in the array *)

Lemma others_not_at aid h refs l m :
  others aid h refs → h !! l = Some m → msg_id m = aid → l ∉ refs.
Proof.
  intros Ho Hl Hid Hin.
  apply (proj1 (Forall_forall _ _) Ho) in Hin as (x & Hx & Hne). congruence.
Qed.

Lemma omap_lookup_alter {A} (f : A → A) (h : list A) (l : nat) (refs : list nat) :
  l ∉ refs → omap (λ r, alter f l h !! r) refs = omap (λ r, h !! r) refs.
Proof.
  induction refs as [|r refs IH]; [done|]. intros Hn.
  apply not_elem_of_cons in Hn as [Hne Hn]. cbn.
  rewrite list_lookup_alter_ne by done. by rewrite IH.
Qed.

Lemma others_live aid h refs : others aid h refs → Forall (λ r, is_Some (h !! r)) refs.
Proof. intros H. eapply Forall_impl; [done|]. intros r (x & Hx & _). by eexists. Qed.

Lemma tracking_mutate aid l builder before f s :
  (∀ x, msg_id (f x) = msg_id x ∧ content (f x) = content x
        ∧ complete (f x) = complete x
        ∧ (parts x = builder → tool_calls x = getAllTools builder →
           parts (f x) = builder ∧ tool_calls (f x) = getAllTools builder)) →
  tracking aid l builder before s → tracking aid l builder before (mutate l f s).
Proof.
  intros Hf (m & ms0 & l' & m' & Hl & Hid & Hcomp & Hc & Hms & Hl' & Hid' & Hc'
             & Hp & Ht & Ho & Hb).
  destruct (Hf m) as (Hf1 & Hf2 & Hf3 & _).
  exists (f m), ms0, l', (if decide (l' = l) then f m' else m').
  unfold mutate. cbn [heap messages]. rewrite list_lookup_alter_eq, Hl.
  split_and!; try (simpl; congruence).
  - destruct (decide (l' = l)) as [->|Hne].
    + by rewrite list_lookup_alter_eq, Hl'.
    + by rewrite list_lookup_alter_ne.
  - destruct (decide (l' = l)); [|done]. destruct (Hf m') as (-> & _). done.
  - destruct (decide (l' = l)); [|done]. destruct (Hf m') as (_ & -> & _). done.
  - destruct (decide (l' = l)); [|done]. by destruct (Hf m') as (_ & _ & _ & [? ?]).
  - destruct (decide (l' = l)); [|done]. by destruct (Hf m') as (_ & _ & _ & [? ?]).
  - apply others_alter; [|done]. intros x. apply Hf.
  - rewrite omap_lookup_alter; [done|]. by eapply others_not_at.
Qed.

Lemma apply_chunk_msg_parts chunk m :
  parts (apply_chunk_msg chunk m) = parts m
  ∧ tool_calls (apply_chunk_msg chunk m) = tool_calls m
  ∧ role (apply_chunk_msg chunk m) = role m.
Proof.
  unfold apply_chunk_msg.
  destruct (c_content chunk) as [c|]; [destruct (Js.truthy c)|];
    destruct (c_reasoning chunk) as [r|];
    try destruct (Js.truthy r && negb (Js.eqb (Js.trim r) "None"));
    try destruct (Js.eqb (Js.trim (reasoning _)) "" && negb (Js.eqb (Js.trim r) ""));
    destruct (c_usage chunk), (c_annotations chunk); done.
Qed.

Lemma tracking_consume aid l builder before s chunk :
  tracking aid l builder before s →
  tracking aid l (apply_chunk_parts chunk builder) before
    (fst (consume l (s, builder) chunk))
  ∧ snd (consume l (s, builder) chunk) = apply_chunk_parts chunk builder.
Proof.
  intros (m & ms0 & l' & m' & Hl & Hid & Hcomp & Hc & Hms & Hl' & Hid' & Hc'
          & Hp & Ht & Ho & Hb).
  destruct (apply_chunk_msg_fields chunk m) as (Hf1 & Hf2 & Hf3).
  unfold consume, updateMessageReactivity, deref, mutate. cbn [heap messages isLoading].
  rewrite list_lookup_alter_eq, Hl. cbn [fmap option_fmap option_map].
  split; [|done].
  exists (apply_chunk_msg chunk m), ms0, (length (alter (apply_chunk_msg chunk) l (heap s))),
    (set_parts_m (apply_chunk_parts chunk builder)
       (getAllTools (apply_chunk_parts chunk builder)) (apply_chunk_msg chunk m)).
  unfold alloc, set_messages. cbn [heap messages isLoading fst snd].
  assert (content (apply_chunk_msg chunk m)
          = text_of (apply_chunk_parts chunk builder)) as Htext
    by (by rewrite text_of_apply_chunk, Hf2, Hc).
  split_and!; try (simpl; congruence).
  - rewrite lookup_app_l; [by rewrite list_lookup_alter_eq, Hl|].
    rewrite length_alter. by eapply lookup_lt_Some.
  - by rewrite Hms, removelast_last.
  - by rewrite list_lookup_middle.
  - apply others_app, others_alter; [|done].
    intros x. apply apply_chunk_msg_fields.
  - rewrite omap_deref_app.
    + rewrite omap_lookup_alter; [done|]. by eapply others_not_at.
    + apply (others_live aid), others_alter; [|done].
      intros x. apply apply_chunk_msg_fields.
Qed.

Lemma tracking_foldl aid l before cs : ∀ s builder,
  tracking aid l builder before s →
  tracking aid l (foldl (λ ps c, apply_chunk_parts c ps) builder cs) before
    (fst (foldl (consume l) (s, builder) cs))
  ∧ snd (foldl (consume l) (s, builder) cs)
    = foldl (λ ps c, apply_chunk_parts c ps) builder cs.
Proof.
  induction cs as [|chunk cs IH]; intros s builder H; [done|].
  cbn [foldl]. destruct (tracking_consume aid l builder before s chunk H) as [H1 H2].
  destruct (consume l (s, builder) chunk) as [s' builder'] eqn:E.
  simpl in H1, H2. subst builder'. by apply IH.
Qed.

Lemma tracking_finalize aid l builder before s :
  tracking aid l builder before s →
  ∃ m,
    messages_value (fst (finalize l (s, builder))) = before ++ [m]
    ∧ msg_id m = aid ∧ complete m = true
    ∧ parts m = builder ∧ tool_calls m = getAllTools builder
    ∧ content m = text_of builder
    ∧ isLoading (fst (finalize l (s, builder))) = false
    ∧ snd (finalize l (s, builder)) = builder.
Proof.
  intros H. unfold finalize.
  set (s1 := match deref s l with Some m => _ | None => s end).
  assert (H1 : tracking aid l builder before s1).
  { subst s1. destruct (deref s l) as [m|]; [|done].
    destruct (parts m); [|done]. by apply tracking_mutate. }
  clearbody s1. clear H.
  match goal with |- context [mutate l ?f s1] => set (s2 := mutate l f s1) end.
  assert (H2 : tracking aid l builder before s2).
  { subst s2. apply tracking_mutate; [|done]. intros x. by destruct (Js.eqb _ _). }
  clearbody s2. clear H1.
  destruct H2 as (m & ms0 & l' & m' & Hl & Hid & Hcomp & Hc & Hms & Hl' & Hid' & Hc'
                  & Hp & Ht & Ho & Hb).
  assert (Hd : deref s2 l = Some m) by done.
  rewrite Hd. cbn [fmap option_fmap option_map default from_option Datatypes.id].
  assert (hasImagePart builder && negb (hasContentPart builder)
          && Js.truthy (content m) = false) as ->.
  { destruct (hasContentPart builder) eqn:Ecp; [by rewrite andb_false_r|].
    by rewrite Hc, (hasContentPart_text _ Ecp), andb_false_r. }
  assert (Hup : updateAssistantMessage l (set_complete_m true) s2
                = mkState (heap s2 ++ [set_complete_m true m'])
                    (ms0 ++ [length (heap s2)]) (isLoading s2)).
  { unfold updateAssistantMessage, deref. rewrite Hl, Hid, Hms.
    rewrite (findIndex_others aid s2 ms0 l' m' Ho Hl' Hid').
    rewrite list_lookup_middle by done. simpl. rewrite Hl'. simpl.
    unfold set_messages. simpl. f_equal.
    rewrite Hms. rewrite insert_app_r_alt by done. by rewrite Nat.sub_diag. }
  rewrite Hup.
  set (s4 := mkState _ _ _).
  assert (H4 : deref s4 l = Some m).
  { unfold deref. subst s4. simpl. by apply lookup_app_l_Some. }
  rewrite H4, Hcomp. cbn [andb].
  replace (match errorDetails m with Some (_, _) => s4 | None => s4 end) with s4
    by (by destruct (errorDetails m) as [[]|]).
  exists (set_complete_m true m'). cbn [fst snd]. split_and!; try done.
  unfold messages_value, set_isLoading, deref. subst s4. cbn [heap messages].
  rewrite omap_app, omap_deref_app by (by eapply others_live).
  rewrite Hb. cbn. by rewrite list_lookup_middle.
Qed.

Lemma begin_tracking c s :
  others (assistantId c) (heap s) (messages s) → userId c ≠ assistantId c →
  ∃ before,
    tracking (assistantId c) (snd (begin c s)) [] before (fst (begin c s))
    ∧ messages_value (fst (begin c s)) = before ++ [new_assistant (assistantId c)].
Proof.
  intros Ho Hne. unfold begin, createAssistantMessage, push, alloc.
  set (s0 := if skipUserMessage c then _ else _).
  assert (H0 : others (assistantId c) (heap s0) (messages s0)).
  { subst s0. destruct (skipUserMessage c); [done|].
    unfold addUserMessage. destruct (_ && _); [done|].
    simpl. apply Forall_app. split; [by apply others_app|].
    constructor; [|done]. eexists. split; [by apply list_lookup_middle|done]. }
  clearbody s0. cbn [fst snd set_messages heap messages isLoading].
  fold (new_assistant (assistantId c)).
  exists (omap (λ r, heap s0 !! r) (messages s0)).
  assert (omap (λ r, (heap s0 ++ [new_assistant (assistantId c)]) !! r) (messages s0)
          = omap (λ r, heap s0 !! r) (messages s0)) as Hb
    by (apply omap_deref_app; by eapply others_live).
  split.
  - exists (new_assistant (assistantId c)), (messages s0), (length (heap s0)),
      (new_assistant (assistantId c)).
    cbn [heap messages].
    split_and!; try done; try (by apply list_lookup_middle).
    by apply others_app.
  - unfold messages_value, deref, set_messages. cbn [heap messages].
    rewrite omap_app, Hb. cbn. by rewrite list_lookup_middle.
Qed.

Section Stored.

Context (JSON_parse : string → option Parsed) (JSON_valid : Json → bool)
  (JSON_stringify_string : string → Json) (toolManager : Registry)
  (findModelById : string → option ModelInfo) (net : nat → FetchOutcome).

Local Abbreviation send :=
  (sendMessage JSON_parse JSON_valid JSON_stringify_string toolManager
     findModelById net).
Local Abbreviation generator :=
  (streamGenerator JSON_parse JSON_valid JSON_stringify_string toolManager
     findModelById net).

(** X21: when a turn is over, the last message of the array is the
    assistant's, complete, and it shows what the builder made of the chunks
    of the turn: its parts are the parts of the builder, its tool calls
    their flat tool list, and its flat content the concatenation of the
    content fragments, which is the text of its content parts.  The
    messages before it are those that were there when the turn began; the
    end of the turn adds no part and no text of its own. *)
Theorem sendMessage_stores_the_parts (c : Call) (s : State) :
  ready c s → is_Some (findModelById (selected_model_id c)) →
  let chunks := yields (trace (generator c s)) in
  let builder := parts_after chunks (length chunks) in
  ∃ s' m before,
    send c s = Some (s', builder)
    ∧ messages_value (fst (begin c s)) = before ++ [new_assistant (assistantId c)]
    ∧ messages_value s' = before ++ [m]
    ∧ msg_id m = assistantId c ∧ complete m = true
    ∧ parts m = builder ∧ tool_calls m = getAllTools builder
    ∧ content m = flat_content chunks ∧ content m = text_of builder
    ∧ isLoading s' = false.
Proof.
  intros (Hmsg & Hload & Ho & Hne) [model Hmodel] chunks builder.
  unfold sendMessage, sendMessage_with. rewrite Hload, orb_false_r.
  replace (negb (Js.truthy (Js.trim (message_arg c)))
           && (length (attachments_arg c) =? 0)%nat) with false.
  2:{ destruct Hmsg as [->|Hatt]; [done|].
      destruct (attachments_arg c); [done|]. by rewrite andb_false_r. }
  destruct (begin_tracking c s Ho Hne) as (before & Htr & Hbefore).
  destruct (begin c s) as [s1 l] eqn:Eb. cbn [fst snd] in Htr, Hbefore.
  rewrite Hmodel.
  pose proof (generator_returns JSON_parse JSON_valid JSON_stringify_string
                toolManager findModelById net (currentDate c) (message_arg c)
                (history (messageToStore c) (fst (begin c s)))
                (selected_model_id c) (settings_arg c) (attachments_arg c)) as Hret.
  fold (generator c s) in Hret. rewrite Hret. fold chunks.
  destruct (tracking_foldl (assistantId c) l before chunks s1 new_parts Htr)
    as [Hfold Hsnd].
  assert (foldl (λ ps ch, apply_chunk_parts ch ps) new_parts chunks = builder) as Hb.
  { subst builder. unfold parts_after. by rewrite take_ge. }
  rewrite Hb in Hfold, Hsnd.
  destruct (foldl (consume l) (s1, new_parts) chunks) as [s2 builder'] eqn:Ef.
  cbn [fst snd] in Hfold, Hsnd. subst builder'.
  assert (tracking (assistantId c) l builder before
            (mutate l (set_parts_m builder (getAllTools builder)) s2)) as Htr3
    by (by apply tracking_mutate).
  destruct (tracking_finalize _ _ _ _ _ Htr3)
    as (m & Hmv & Hid & Hcomp & Hp & Ht & Hc & Hl & Hs).
  eexists _, m, before. split_and!; try done.
  - by rewrite (surjective_pairing (finalize _ _)), Hs.
  - rewrite Hc. subst builder. by rewrite text_of_parts_after, take_ge.
Qed.

End Stored.

Lemma sendMessage_stores_the_parts_witness :
  let builder :=
    [ImagePart [mkImage "data:image/png;base64,AAAA" None;
                mkImage "data:image/png;base64,BBBB" (Some "a cat")];
     ContentPart "Hello"] in
  ∃ s' m before,
    sendMessage image_parse (λ _, true) (λ x, x) demo_tools demo_models image_stream
      (demo_call None) empty_state = Some (s', builder)
    ∧ messages_value (fst (begin (demo_call None) empty_state))
      = before ++ [new_assistant "a1"]
    ∧ messages_value s' = before ++ [m]
    ∧ msg_id m = "a1" ∧ complete m = true
    ∧ parts m = builder ∧ tool_calls m = []
    ∧ content m = "Hello" ∧ content m = "Hello"
    ∧ isLoading s' = false.
Proof.
  exact (sendMessage_stores_the_parts image_parse (λ _, true) (λ x, x) demo_tools
           demo_models image_stream (demo_call None) empty_state
           (demo_ready None) (demo_model None)).
Defined.

(** ** [updateAssistantMessage] *)

Lemma live_values (h : list Message) (refs : list nat) :
  Forall (λ r, is_Some (h !! r)) refs →
  Forall2 (λ r m, h !! r = Some m) refs (omap (λ r, h !! r) refs).
Proof.
  induction 1 as [|r refs [x Hx] _ IH]; [constructor|].
  cbn. rewrite Hx. by constructor.
Qed.

Lemma values_omap (h : list Message) (refs : list nat) ms :
  Forall2 (λ r m, h !! r = Some m) refs ms → omap (λ r, h !! r) refs = ms.
Proof.
  induction 1 as [|r m refs ms Hr _ IH]; [done|]. cbn. by rewrite Hr, IH.
Qed.

Lemma findIndex_list_find s mid refs ms :
  Forall2 (λ r m, heap s !! r = Some m) refs ms →
  findIndex s mid refs = fst <$> list_find (λ m, msg_id m = mid) ms.
Proof.
  induction 1 as [|r m refs ms Hr _ IH]; [done|].
  cbn [findIndex list_find]. unfold deref. rewrite Hr.
  destruct (String.eqb (msg_id m) mid) eqn:E.
  - apply String.eqb_eq in E. by rewrite decide_True.
  - apply String.eqb_neq in E. rewrite decide_False by done.
    rewrite IH. by destruct (list_find _ ms) as [[i x]|].
Qed.

(** X23: [updateAssistantMessage] puts an updated copy in the place of
    the first message of the array that has the id of the message it is
    given; the array keeps its length and its other messages.  No message
    object is changed, the one passed in included: it only lends its id.
    When no message of the array has the id, nothing happens. *)
Theorem updateAssistantMessage_replaces_a_copy (l : nat) (updates : Message → Message)
    (s : State) (message : Message) :
  live s → deref s l = Some message →
  let s' := updateAssistantMessage l updates s in
  (∀ r x, heap s !! r = Some x → heap s' !! r = Some x)
  ∧ isLoading s' = isLoading s
  ∧ match list_find (λ m, msg_id m = msg_id message) (messages_value s) with
    | Some (i, old) => messages_value s' = <[i := updates old]> (messages_value s)
    | None => s' = s
    end.
Proof.
  intros Hlive Hl s'. subst s'. unfold updateAssistantMessage. rewrite Hl.
  pose proof (live_values _ _ Hlive) as Hv. fold (messages_value s) in Hv.
  unfold messages_value, deref in *.
  rewrite (findIndex_list_find s _ _ _ Hv).
  destruct (list_find _ (omap _ (messages s))) as [[i old]|] eqn:Ef; cbn [fmap option_fmap option_map fst].
  2:{ by split_and!. }
  apply list_find_Some in Ef as (Hi & _ & _).
  destruct (Forall2_lookup_r _ _ _ _ _ Hv Hi) as (r & Hr & Hold).
  rewrite Hr. cbn [mbind option_bind]. rewrite Hold.
  unfold alloc, set_messages. cbn [heap messages isLoading].
  split_and!; [|done|].
  - intros r' x Hx. by apply lookup_app_l_Some.
  - apply values_omap. apply Forall2_insert.
    + eapply Forall2_impl; [exact Hv|]. intros r' m' Hm'. by apply lookup_app_l_Some.
    + by apply list_lookup_middle.
Qed.

Lemma updateAssistantMessage_replaces_a_copy_witness :
  let user := mkMessage "m0" "user" "hi" [] "" [] [] None true 0 0 0 false None in
  let s := mkState [user; new_assistant "m1"] [0%nat; 1%nat] true in
  let s' := updateAssistantMessage 1 (set_complete_m true) s in
  messages_value s' = [user; set_complete_m true (new_assistant "m1")]
  ∧ heap s' !! 1%nat = Some (new_assistant "m1").
Proof.
  intros user s s'.
  destruct (updateAssistantMessage_replaces_a_copy 1 (set_complete_m true) s
              (new_assistant "m1")) as (H1 & _ & H3).
  - repeat constructor; by eexists.
  - reflexivity.
  - split; [exact H3|]. by apply H1.
Defined.

(** ** A turn without a model *)

Lemma update_tracked aid l builder before s f :
  tracking aid l builder before s →
  ∃ m',
    messages_value (updateAssistantMessage l f s) = before ++ [f m']
    ∧ msg_id m' = aid ∧ content m' = text_of builder ∧ parts m' = builder
    ∧ isLoading (updateAssistantMessage l f s) = isLoading s.
Proof.
  intros (m & ms0 & l' & m' & Hl & Hid & Hcomp & Hc & Hms & Hl' & Hid' & Hc'
          & Hp & Ht & Ho & Hb).
  assert (Hup : updateAssistantMessage l f s
                = mkState (heap s ++ [f m']) (ms0 ++ [length (heap s)]) (isLoading s)).
  { unfold updateAssistantMessage, deref. rewrite Hl, Hid, Hms.
    rewrite (findIndex_others aid s ms0 l' m' Ho Hl' Hid').
    rewrite list_lookup_middle by done. simpl. rewrite Hl'. simpl.
    unfold set_messages. simpl. f_equal.
    rewrite Hms. rewrite insert_app_r_alt by done. by rewrite Nat.sub_diag. }
  rewrite Hup. exists m'. split_and!; try done.
  unfold messages_value, deref. cbn [heap messages].
  rewrite omap_app, omap_deref_app by (by eapply others_live).
  rewrite Hb. cbn. by rewrite list_lookup_middle.
Qed.

Section NoModel.

Context (JSON_parse : string → option Parsed) (JSON_valid : Json → bool)
  (JSON_stringify_string : string → Json) (toolManager : Registry)
  (findModelById : string → option ModelInfo) (net : nat → FetchOutcome).

Local Abbreviation send :=
  (sendMessage JSON_parse JSON_valid JSON_stringify_string toolManager
     findModelById net).

(** X22: when the catalogue has no model with the selected id, the turn
    ends at once: the user message has been added, the assistant message is
    complete with the text "Error: No AI model selected." and no parts, the
    loading flag is off again, and the builder is never fed. *)
Theorem unknown_model_is_reported (c : Call) (s : State) :
  ready c s → findModelById (selected_model_id c) = None →
  ∃ s' m before,
    send c s = Some (s', [])
    ∧ messages_value (fst (begin c s)) = before ++ [new_assistant (assistantId c)]
    ∧ messages_value s' = before ++ [m]
    ∧ msg_id m = assistantId c ∧ complete m = true
    ∧ content m = "Error: No AI model selected." ∧ parts m = []
    ∧ isLoading s' = false.
Proof.
  intros (Hmsg & Hload & Ho & Hne) Hmodel.
  unfold sendMessage, sendMessage_with. rewrite Hload, orb_false_r.
  replace (negb (Js.truthy (Js.trim (message_arg c)))
           && (length (attachments_arg c) =? 0)%nat) with false.
  2:{ destruct Hmsg as [->|Hatt]; [done|].
      destruct (attachments_arg c); [done|]. by rewrite andb_false_r. }
  destruct (begin_tracking c s Ho Hne) as (before & Htr & Hbefore).
  destruct (begin c s) as [s1 l] eqn:Eb. cbn [fst snd] in Htr, Hbefore.
  rewrite Hmodel.
  assert (default "" (content <$> deref s1 l) = "") as ->.
  { destruct Htr as (m & _ & _ & _ & Hl & _ & _ & Hc & _).
    unfold deref. by rewrite Hl. }
  cbn [Js.truthy]. rewrite append_nil_l.
  match goal with
  | |- context [updateAssistantMessage l ?f s1] =>
      destruct (update_tracked _ _ _ _ _ f Htr) as (m' & Hmv & Hid & Hc & Hp & Hl)
  end.
  eexists _, _, before. split_and!; [done|done|exact Hmv|done..].
Qed.

End NoModel.

Lemma unknown_model_is_reported_witness :
  ∃ s' m before,
    sendMessage demo_parse (λ _, true) (λ x, x) demo_tools demo_models hello_stream
      unknown_model_call empty_state = Some (s', [])
    ∧ messages_value (fst (begin unknown_model_call empty_state))
      = before ++ [new_assistant "a1"]
    ∧ messages_value s' = before ++ [m]
    ∧ msg_id m = "a1" ∧ complete m = true
    ∧ content m = "Error: No AI model selected." ∧ parts m = []
    ∧ isLoading s' = false.
Proof.
  apply (unknown_model_is_reported demo_parse (λ _, true) (λ x, x) demo_tools
           demo_models hello_stream unknown_model_call empty_state);
    [|reflexivity].
  split_and!; [by left|done|constructor|done].
Defined.

(** ** The conversation store *)

Section Titles.
Import Storage.

Lemma trimStart_head s c r : Js.trimStart s = String c r → Js.is_ws c = false.
Proof.
  induction s as [|d s IH]; [done|]. simpl.
  destruct (Js.is_ws d) eqn:E; [done|]. by intros [= <- _].
Qed.

Lemma trim_head s c r : Js.trim s = String c r → Js.is_ws c = false.
Proof.
  unfold Js.trim. destruct (Js.trimStart s) as [|d t] eqn:E; [done|].
  apply trimStart_head in E. simpl. rewrite E. simpl. by intros [= <- _].
Qed.

Lemma first_line_no_LF s : has_char "010"%char (first_line s) = false.
Proof.
  induction s as [|c s IH]; [done|]. simpl.
  destruct (Ascii.eqb c "010"%char) eqn:E; [done|].
  destruct (_ && _); [done|]. simpl. by rewrite E, IH.
Qed.

Lemma substring_no_char c n s :
  has_char c s = false → has_char c (String.substring 0 n s) = false.
Proof.
  revert s. induction n as [|n IH]; intros [|d s]; try done.
  simpl. intros [Hd Hs]%orb_false_iff. by rewrite Hd, IH.
Qed.

Lemma substring_length n s : (String.length (String.substring 0 n s) ≤ n)%nat.
Proof.
  revert s. induction n as [|n IH]; intros [|d s]; simpl; try lia.
  specialize (IH s). lia.
Qed.

Lemma is_ws_line_break c :
  Js.is_ws c = false → Ascii.eqb c "010"%char = false ∧ Ascii.eqb c "013"%char = false.
Proof.
  intros H. split; apply Ascii.eqb_neq; intros ->; done.
Qed.

Lemma find_app_skip {A} (test : A → bool) pre x post :
  (∀ y, y ∈ pre → test y = false) → test x = true →
  List.find test (pre ++ x :: post) = Some x.
Proof.
  intros Hpre Hx. induction pre as [|y pre IH]; simpl.
  - by rewrite Hx.
  - rewrite (Hpre y) by left. apply IH. intros z Hz. apply Hpre. by right.
Qed.

Lemma substring_short n s : (String.length s ≤ n)%nat → String.substring 0 n s = s.
Proof.
  revert n. induction s as [|d s IH]; intros [|n] E; simpl in *; try done; try lia.
  rewrite IH; [done|lia].
Qed.

(** X24: the title derived for a conversation is never empty, has at most
    40 characters and no line feed; it is "New Chat" when no user message
    has content other than white space, and otherwise it is cut from the
    first line of the first such message, trimmed, and starts with its
    first character. *)
Theorem derived_title_is_short (plainMessages : list Message) :
  let title := deriveTitleFromMessages plainMessages in
  title ≠ ""
  ∧ (String.length title ≤ 40)%nat
  ∧ has_char "010"%char title = false
  ∧ ((∀ msg, msg ∈ plainMessages → role msg = "user" → Js.trim (content msg) = "") →
     title = "New Chat")
  ∧ (∀ pre msg post c r,
       plainMessages = pre ++ msg :: post →
       (∀ m, m ∈ pre → role m = "user" → Js.trim (content m) = "") →
       role msg = "user" → Js.trim (content msg) = String c r →
       title = String.substring 0 40 (first_line (Js.trim (content msg)))
       ∧ ∃ r', title = String c r').
Proof.
  intros title. subst title. unfold deriveTitleFromMessages.
  split_and!.
  - destruct (List.find _ _) as [m|]; [|done]. cbn zeta.
    match goal with |- context [Js.truthy ?t] => destruct (Js.truthy t) eqn:E end;
      [|done].
    intros H. by rewrite H in E.
  - destruct (List.find _ _) as [m|]; [|simpl; lia].
    set (t := first_line _). destruct (40 <? String.length t)%nat eqn:E.
    + pose proof (substring_length 40 t).
      destruct (Js.truthy _); [done|simpl; lia].
    + apply Nat.ltb_ge in E. destruct (Js.truthy _); [done|simpl; lia].
  - destruct (List.find _ _) as [m|]; [|done].
    pose proof (first_line_no_LF (Js.trim (content m))) as H.
    set (t := first_line _) in *.
    destruct (40 <? String.length t)%nat.
    + pose proof (substring_no_char _ 40 _ H). by destruct (Js.truthy _).
    + by destruct (Js.truthy _).
  - intros Hnone. destruct (List.find _ _) as [m|] eqn:E; [|done].
    apply List.find_some in E as [Hin Ht]. apply list_elem_of_In in Hin.
    apply andb_true_iff in Ht as [[Hr _]%andb_true_iff Ht].
    apply String.eqb_eq in Hr. by rewrite (Hnone m Hin Hr) in Ht.
  - intros pre msg post c r -> Hpre Hr Htrim.
    assert (Js.truthy (content msg) = true) as Hc.
    { apply trim_nonempty. by rewrite Htrim. }
    rewrite find_app_skip.
    2:{ intros m Hm. destruct (String.eqb (role m) "user") eqn:E; [|done].
        apply String.eqb_eq in E. rewrite (Hpre m Hm E). by rewrite andb_false_r. }
    2:{ by rewrite Hr, Hc, Htrim. }
    rewrite Htrim.
    apply trim_head in Htrim as Hws. apply is_ws_line_break in Hws as [Hlf Hcr].
    cbn [first_line]. rewrite Hlf, Hcr. cbn [andb].
    set (t := String c (first_line r)).
    assert (String.substring 0 40 t = String c (String.substring 0 39 (first_line r)))
      as Hsub by done.
    destruct (40 <? String.length t)%nat eqn:E.
    + rewrite Hsub. cbn [Js.truthy]. split; [done|by eexists].
    + apply Nat.ltb_ge in E. cbn [Js.truthy].
      rewrite (substring_short 40 t E). split; [done|by eexists].
Qed.

End Titles.

Section StoreEntries.
Import Storage.

Lemma filter_filter_same {A} (f : A → bool) l :
  List.filter f (List.filter f l) = List.filter f l.
Proof.
  induction l as [|x l IH]; [done|]. simpl. destruct (f x) eqn:E; [|done].
  simpl. by rewrite E, IH.
Qed.

Lemma filter_filter_neg {A} (f : A → bool) l :
  List.filter f (List.filter (λ x, negb (f x)) l) = [].
Proof.
  induction l as [|x l IH]; [done|]. simpl. destruct (f x) eqn:E; [done|].
  simpl. by rewrite E, IH.
Qed.

(** X25: storing the messages of a conversation that is in the store
    leaves exactly one metadata entry for it, the last of the list, and the
    entries of the other conversations as they were, in their order; the
    conversation holds the stored form of the messages; its title is kept,
    unless it was empty or "Untitled", in which case it is derived from the
    messages; and no other conversation is touched. *)
Theorem storeMessages_keeps_one_entry (conversationId : string)
    (plainMessages : list Message) (lastUpdated : Z) (st : Store) (data : Conversation) :
  conversations st !! conversationId = Some data →
  let st' := storeMessages conversationId plainMessages lastUpdated st in
  let title' :=
    if negb (Js.truthy (title data)) || String.eqb (title data) "Untitled"
    then deriveTitleFromMessages plainMessages else title data in
  entries_of conversationId st' = [mkMetadata conversationId title' lastUpdated]
  ∧ last (entries st') = Some (mkMetadata conversationId title' lastUpdated)
  ∧ entries_but conversationId st' = entries_but conversationId st
  ∧ conversations st' !! conversationId
    = Some (mkConversation title' lastUpdated (raw <$> plainMessages))
  ∧ loadMessages conversationId st' = raw <$> plainMessages
  ∧ (∀ other, other ≠ conversationId →
       conversations st' !! other = conversations st !! other).
Proof.
  intros Hdata st' title'. subst st' title'. unfold storeMessages. rewrite Hdata.
  unfold entries_of, entries_but, entries, loadMessages.
  cbn [metadata conversations default from_option Datatypes.id].
  rewrite lookup_insert_eq. split_and!; try done.
  - rewrite List.filter_app, filter_filter_neg. cbn [List.filter meta_id].
    by rewrite String.eqb_refl.
  - by rewrite last_snoc.
  - rewrite List.filter_app, filter_filter_same. cbn [List.filter meta_id].
    rewrite String.eqb_refl. cbn [negb]. by rewrite app_nil_r.
  - intros other Hne. by rewrite lookup_insert_ne.
Qed.

(** X26: a conversation that is deleted is gone from the store, with its
    metadata entry, and a store of its messages that comes late, as the one
    at the end of a turn, does not bring it back; storing for an id that
    the store does not have changes nothing.  The other conversations and
    their entries stay. *)
Theorem deleted_conversation_stays_deleted (conversationId : string)
    (plainMessages : list Message) (lastUpdated : Z) (st : Store) :
  let st' := deleteConversation conversationId st in
  conversations st' !! conversationId = None
  ∧ entries_of conversationId st' = []
  ∧ entries_but conversationId st' = entries_but conversationId st
  ∧ loadMessages conversationId st' = []
  ∧ storeMessages conversationId plainMessages lastUpdated st' = st'
  ∧ (conversations st !! conversationId = None →
     storeMessages conversationId plainMessages lastUpdated st = st)
  ∧ (∀ other, other ≠ conversationId →
       conversations st' !! other = conversations st !! other).
Proof.
  intros st'. subst st'.
  unfold deleteConversation, storeMessages, entries_of, entries_but, entries,
    loadMessages.
  cbn [metadata conversations default from_option Datatypes.id].
  rewrite lookup_delete_eq. split_and!; try done.
  - apply filter_filter_neg.
  - apply filter_filter_same.
  - by intros ->.
  - intros other Hne. by rewrite lookup_delete_ne.
Qed.

Lemma raw_format msg :
  plain_annotations msg → formatMessageForAPI (raw msg) = formatMessageForAPI msg.
Proof.
  unfold plain_annotations, formatMessageForAPI, raw.
  destruct msg as [i r c atts rs ps tcs an co tc tt pt er ed].
  cbn [role attachments content annotations parts reasoning tool_calls].
  intros Ha.
  destruct (String.eqb r "assistant") eqn:Ea.
  - apply String.eqb_eq in Ea as ->. done.
  - apply String.eqb_neq in Ea. rewrite (Ha Ea).
    by destruct (String.eqb r "user"), atts.
Qed.

Lemma raw_in_history mts msg : in_history mts (raw msg) = in_history mts msg.
Proof. done. Qed.

Lemma filter_fmap_raw mts msgs :
  List.filter (in_history mts) (raw <$> msgs)
  = raw <$> List.filter (in_history mts) msgs.
Proof.
  induction msgs as [|m msgs IH]; [done|]. rewrite fmap_cons. cbn [List.filter].
  rewrite raw_in_history. destruct (in_history mts m); [|done].
  by rewrite fmap_cons, IH.
Qed.

(** X27: a conversation that is stored and loaded again is sent to the
    model as before.  The stored form of a message keeps what the wire
    format reads (the token totals and the error fields are not stored), so
    the messages loaded are formatted as those stored were, and the history
    the next turn takes from them is formatted as it would have been taken
    from the originals; storing what was loaded stores the same again. *)
Theorem reloaded_conversation_formats_alike (conversationId : string)
    (plainMessages : list Message) (lastUpdated : Z) (st : Store) :
  is_Some (conversations st !! conversationId) →
  Forall plain_annotations plainMessages →
  let loaded :=
    loadMessages conversationId
      (storeMessages conversationId plainMessages lastUpdated st) in
  formatMessageForAPI <$> loaded = formatMessageForAPI <$> plainMessages
  ∧ (∀ messageToStore,
       formatMessageForAPI <$> List.filter (in_history messageToStore) loaded
       = formatMessageForAPI <$> List.filter (in_history messageToStore) plainMessages)
  ∧ raw <$> loaded = loaded.
Proof.
  intros [data Hdata] Hall loaded. subst loaded.
  unfold storeMessages, loadMessages. rewrite Hdata. cbn [conversations].
  rewrite lookup_insert_eq. cbn [messages].
  assert (∀ l, Forall plain_annotations l →
               formatMessageForAPI <$> (raw <$> l) = formatMessageForAPI <$> l) as Hfmt.
  { induction 1 as [|m l Hm _ IH]; [done|].
    by rewrite !fmap_cons, IH, raw_format. }
  split_and!.
  - by apply Hfmt.
  - intros mts. rewrite filter_fmap_raw. apply Hfmt.
    apply Forall_forall. intros m Hm. apply list_elem_of_In, List.filter_In in Hm as [Hm _].
    apply list_elem_of_In in Hm. by apply (proj1 (Forall_forall _ _) Hall).
  - clear. induction plainMessages as [|m l IH]; [done|].
    rewrite !fmap_cons, IH. f_equal. unfold raw. cbn [role].
    by destruct (String.eqb (role m) "user"), (String.eqb (role m) "assistant").
Qed.

End StoreEntries.

Lemma storeMessages_keeps_one_entry_witness :
  entries_of "c1" (Storage.storeMessages "c1" two_messages 2 one_conversation)
  = [Storage.mkMetadata "c1" "What is Rocq?" 2]
  ∧ entries (Storage.storeMessages "c1" two_messages 2 one_conversation)
    = [Storage.mkMetadata "c0" "Earlier" 0; Storage.mkMetadata "c1" "What is Rocq?" 2].
Proof.
  destruct (storeMessages_keeps_one_entry "c1" two_messages 2 one_conversation
              (Storage.mkConversation "Untitled" 1 []) eq_refl) as (H1 & _).
  split; [exact H1|reflexivity].
Defined.

Lemma reloaded_conversation_formats_alike_witness :
  formatMessageForAPI
    <$> Storage.loadMessages "c1" (Storage.storeMessages "c1" two_messages 2 one_conversation)
  = formatMessageForAPI <$> two_messages.
Proof.
  apply (reloaded_conversation_formats_alike "c1" two_messages 2 one_conversation).
  - by eexists.
  - repeat constructor; by intros ?.
Defined.

(** ** The groups of the panel *)

Section Groups.
Import ChatPanel.

Lemma alternating_snoc {A} (l : list A) (x y : A) :
  alternating (l ++ [x]) → x ≠ y → alternating ((l ++ [x]) ++ [y]).
Proof.
  intros Ha Hne i a b Hi HSi.
  destruct (decide (S i < length (l ++ [x]))%nat) as [Hlt|Hge].
  - rewrite lookup_app_l in Hi by lia. rewrite lookup_app_l in HSi by lia.
    by apply (Ha i).
  - rewrite length_app in Hge. simpl in Hge.
    apply lookup_lt_Some in HSi as Hlen. rewrite !length_app in Hlen. simpl in Hlen.
    assert (i = length l) as -> by lia.
    rewrite lookup_app_l in Hi by (rewrite length_app; simpl; lia).
    rewrite list_lookup_middle in Hi by done.
    rewrite lookup_app_r in HSi by (rewrite length_app; simpl; lia).
    rewrite length_app in HSi. simpl in HSi.
    replace (S (length l) - (length l + 1))%nat with 0%nat in HSi by lia.
    simpl in HSi. congruence.
Qed.

Lemma differs_spec c k : differs c k = false ↔ c = Some k.
Proof.
  destruct c as [[]|], k; simpl; split; try done; by intros [=].
Qed.

Lemma ungroup_snoc gs g : ungroup (gs ++ [g]) = ungroup gs ++ parts g.
Proof. unfold ungroup. rewrite fmap_app, join_app. simpl. by rewrite app_nil_r. Qed.

Lemma grouping_enter k part done st :
  kind_of part = k → grouping done st → grouping (done ++ [part]) (enter k part st).
Proof.
  intros Hk (Hu & Hw & Hc & Ha). unfold enter.
  destruct (differs (currentGroupType st) k) eqn:Ed.
  - unfold push_current. destruct (currentGroupType st) as [k0|] eqn:Et.
    + destruct Hc as [Hne Hall].
      destruct (currentGroup st) as [|p cur] eqn:Ec; [done|].
      split_and!; cbn [groups currentGroup currentGroupType].
      * by rewrite ungroup_snoc, <-Hu.
      * apply Forall_app. split; [done|]. constructor; [|done].
        split; [done|]. by exists k0.
      * split; [done|]. by constructor.
      * rewrite fmap_app. cbn [fmap list_fmap type]. apply alternating_snoc; [done|].
        intros [= ->]. by destruct k.
    + destruct Hc as [Hcur Hgs]. rewrite Hcur, Hgs in *.
      split_and!; cbn [groups currentGroup currentGroupType].
      * by rewrite <-Hu.
      * done.
      * split; [done|]. by constructor.
      * intros i a b Hi HSi. by destruct i.
  - apply differs_spec in Ed. rewrite Ed in *. destruct Hc as [Hne Hall].
    split_and!; cbn [groups currentGroup currentGroupType].
    + by rewrite app_assoc, Hu.
    + done.
    + split; [by destruct (currentGroup st)|].
      apply Forall_app. split; [done|]. by constructor.
    + done.
Qed.

Lemma grouping_step part done st :
  grouping done st → grouping (done ++ [part]) (step st part).
Proof. intros H. destruct part; by apply grouping_enter. Qed.

Lemma grouping_foldl ps : ∀ done st,
  grouping done st → grouping (done ++ ps) (foldl step st ps).
Proof.
  induction ps as [|p ps IH]; intros done st H; [by rewrite app_nil_r|].
  cbn [foldl]. rewrite (cons_middle p done ps), app_assoc.
  apply IH. by apply grouping_step.
Qed.

Lemma grouping_start : grouping [] (mkLoop [] [] None).
Proof.
  split_and!; try done.
Qed.

Lemma getPartGroups_loop ps :
  ps ≠ [] →
  ∃ st, grouping ps st ∧ getPartGroups ps = push_current st.
Proof.
  intros Hne. exists (foldl step (mkLoop [] [] None) ps). split.
  - apply (grouping_foldl ps [] _ grouping_start).
  - by destruct ps.
Qed.

Lemma push_current_grouped ps st :
  ps ≠ [] → grouping ps st →
  ungroup (push_current st) = ps ∧ Forall well_grouped (push_current st).
Proof.
  intros Hne (Hu & Hw & Hc & Ha). unfold push_current.
  destruct (currentGroupType st) as [k|] eqn:Et.
  - destruct Hc as [Hcne Hall]. destruct (currentGroup st) as [|q cur] eqn:Ec; [done|].
    split; [by rewrite ungroup_snoc|].
    apply Forall_app. split; [done|]. constructor; [|done].
    split; [done|]. by exists k.
  - destruct Hc as [Hcur Hgs]. rewrite Hcur, Hgs in Hu. by subst ps.
Qed.

(** X28: [getPartGroups] cuts the parts of a message into groups without
    losing, repeating or reordering any: the parts of the groups, one group
    after the other, are the parts of the message.  No group is empty;
    each has a type, never null, and holds only parts of that type
    (reasoning and tool groups are of the mixed type); and two groups that
    follow each other never have the same type, so the groups are as large
    as they can be. *)
Theorem part_groups_partition (ps : list Part) :
  ungroup (getPartGroups ps) = ps
  ∧ Forall well_grouped (getPartGroups ps)
  ∧ alternating (type <$> getPartGroups ps).
Proof.
  destruct ps as [|p ps].
  { split_and!; [done|done|]. intros i a b Hi. by destruct i. }
  destruct (getPartGroups_loop (p :: ps)) as (st & Hg & ->); [done|].
  destruct (push_current_grouped (p :: ps) st) as [Hu Hw]; [done..|].
  split_and!; [done..|].
  destruct Hg as (_ & _ & Hc & Ha). unfold push_current.
  destruct (currentGroupType st) as [k|].
  - destruct Hc as [Hne _]. destruct (currentGroup st); [done|].
    by rewrite fmap_app.
  - destruct Hc as [-> ->]. intros i a b Hi. by destruct i.
Qed.

Lemma no_adjacent_app a b :
  no_adjacent_mergeable (a ++ b) = true →
  no_adjacent_mergeable a = true ∧ no_adjacent_mergeable b = true.
Proof.
  induction a as [|p a IH]; [done|]. intros H.
  destruct a as [|q a].
  - split; [done|]. destruct b as [|q b]; [done|].
    simpl in H. by apply andb_true_iff in H as [_ H].
  - change ((p :: q :: a) ++ b) with (p :: (q :: a) ++ b) in H.
    cbn [no_adjacent_mergeable app] in H. apply andb_true_iff in H as [Hm H].
    destruct (IH H) as [Ha Hb]. split; [|done].
    change (no_adjacent_mergeable (p :: q :: a))
      with (negb (mergeable p q) && no_adjacent_mergeable (q :: a)).
    by rewrite Hm, Ha.
Qed.

Lemma same_kind_mergeable p q :
  kind_of p = kind_of q → kind_of p ≠ Mixed → mergeable p q = true.
Proof. by destruct p, q. Qed.

(** X29: for the parts the builder makes, in which no two neighbours could
    have been merged, every content group and every image group of the
    panel holds exactly one part; only the mixed groups, of reasoning and
    tool groups, can hold more. *)
Theorem builder_groups_are_single (ps : list Part) :
  no_adjacent_mergeable ps = true →
  Forall (λ g, type g ≠ Some Mixed → length (parts g) = 1%nat) (getPartGroups ps).
Proof.
  intros Hps. destruct ps as [|p0 ps0]; [done|].
  destruct (getPartGroups_loop (p0 :: ps0)) as (st & Hg & ->); [done|].
  destruct (push_current_grouped (p0 :: ps0) st) as [Hu Hw]; [done..|].
  rewrite <-Hu in Hps. clear Hu Hg.
  induction Hw as [|g gs (Hne & k & Hk & Hall) _ IH]; [done|].
  unfold ungroup in Hps. rewrite fmap_cons in Hps. simpl in Hps.
  apply no_adjacent_app in Hps as [Hg Hgs]. constructor; [|by apply IH].
  intros Hmixed. destruct (parts g) as [|p [|q rest]]; [done|done|].
  exfalso. apply Forall_cons in Hall as [Hp Hall].
  apply Forall_cons in Hall as [Hq _].
  assert (mergeable p q = true) as Hm.
  { apply same_kind_mergeable; [congruence|]. rewrite Hp. intros ->.
    by rewrite Hk in Hmixed. }
  simpl in Hg. by rewrite Hm in Hg.
Qed.

End Groups.

Lemma builder_groups_are_single_witness :
  Forall (λ g, ChatPanel.type g ≠ Some ChatPanel.Mixed → length (ChatPanel.parts g) = 1%nat)
    (ChatPanel.getPartGroups
       [ReasoningPart "think"; ToolGroup (Some "function") []; ContentPart "answer";
        ImagePart []]).
Proof.
  apply (builder_groups_are_single
           [ReasoningPart "think"; ToolGroup (Some "function") []; ContentPart "answer";
            ImagePart []]).
  reflexivity.
Defined.

(** ** Snapshots of a builder *)

Lemma toReactiveArray_spec_witness :
  PartsHeap.read_parts (PartsHeap.heap builder_with_tool)
    (PartsHeap.parts builder_with_tool)
  = Some [ToolGroup (Some "function")
            [mkTool 0 (Some "call_1") "function" "search" "{" None]]
  ∧ ∃ h' snap,
      PartsHeap.toReactiveArray builder_with_tool = Some (h', snap)
      ∧ (∃ new, h' = PartsHeap.heap builder_with_tool ++ new)
      ∧ PartsHeap.read_parts h' snap
        = Some [ToolGroup (Some "function")
                  [mkTool 0 (Some "call_1") "function" "search" "{" None]]
      ∧ PartsHeap.read_parts h' (PartsHeap.parts builder_with_tool)
        = Some [ToolGroup (Some "function")
                  [mkTool 0 (Some "call_1") "function" "search" "{" None]]
      ∧ Forall (PartsHeap.fresh_for (PartsHeap.heap builder_with_tool))
          (PartsHeap.containers h' snap)
      ∧ PartsHeap.members h' snap
        = PartsHeap.members (PartsHeap.heap builder_with_tool)
            (PartsHeap.parts builder_with_tool).
Proof.
  split; [reflexivity|].
  apply (HeapFacts.toReactiveArray_spec builder_with_tool). reflexivity.
Defined.
